(** * vectfit: Fast Relaxed Vector Fitting (src/src/vectfit.cpp)

    A shallow embedding of the C++ function [vectfit] and the properties of
    its control flow, argument checks, pole classification, basis
    construction, relaxation fallback, pole update and residue recombination.

    Scalars are IEEE binary64 numbers (Rocq's primitive floats), complex
    numbers are pairs of them.  The routines that the source takes from
    xtensor-blas / LAPACK / libm (norms, QR, least squares, eigenvalues,
    matrix products, complex division, pow) are fields of a [Library] record
    and every general theorem is stated for an arbitrary library. *)

From Stdlib Require Import String.
From Stdlib Require Import ZArith List Floats Lia Bool.
From Stdlib Require Uint63.
Import ListNotations.

Set Implicit Arguments.

(** ** The C++ scalar layer *)

Definition double := float.

(** [std::complex<double>] *)
Record complex : Set := Cplx { real : double; imag : double }.

Declare Scope cpp_scope.
Delimit Scope cpp_scope with cpp.

(** [constexpr std::complex<double> C_ZERO {0.0, 0.0};] *)
Definition C_ZERO : complex := Cplx 0%float 0%float.

(** [constexpr double TOLlow = 1e-18;] (the binary64 value nearest to 1e-18)
    and [constexpr double TOLhigh = 1e+18;] *)
Definition TOLlow : double := 0x1.2725dd1d243acp-60%float.
Definition TOLhigh : double := 1e18%float.

(** [a != b] on doubles: true on unordered operands. *)
Definition dne (a b : double) : bool := negb (a =? b)%float.

(** [std::conj] *)
Definition conj (z : complex) : complex := Cplx (real z) (- imag z)%float.

(** [operator==] and [operator!=] of [std::complex]. *)
Definition ceq (a b : complex) : bool :=
  ((real a =? real b) && (imag a =? imag b))%float.
Definition cne (a b : complex) : bool := negb (ceq a b).

(** [complex + complex], [complex - complex] *)
Definition cadd (a b : complex) : complex :=
  Cplx (real a + real b)%float (imag a + imag b)%float.
Definition csub (a b : complex) : complex :=
  Cplx (real a - real b)%float (imag a - imag b)%float.

(** [double + complex]: the scalar is added to the real part. *)
Definition dadd (x : double) (z : complex) : complex :=
  Cplx (real z + x)%float (imag z).

(** [double - complex]: the standard libraries compute the real part as
    [x - real z] or as [- real z + x], which is the same double
    (lemma [sub_as_add]). *)
Definition dsub (x : double) (z : complex) : complex :=
  Cplx (x - real z)%float (- imag z)%float.

(** [double * complex] and [complex * double]: both parts are scaled. *)
Definition dmul (x : double) (z : complex) : complex :=
  Cplx (real z * x)%float (imag z * x)%float.
Definition cmuld (z : complex) (x : double) : complex :=
  Cplx (real z * x)%float (imag z * x)%float.

(** The literal [1i] and the promotion [std::complex<double>(x)]. *)
Definition I1 : complex := Cplx 0%float 1%float.
Definition cplx_of (x : double) : complex := Cplx x 0%float.

(** [xt::isinf] on a complex entry: one of the parts is infinite. *)
Definition cisinf (z : complex) : bool :=
  is_infinity (real z) || is_infinity (imag z).

(** A double that is neither infinite nor NaN, and the same for complex. *)
Definition dfinite (x : double) : bool := negb (is_nan x) && negb (is_infinity x).
Definition cfinite (z : complex) : bool := dfinite (real z) && dfinite (imag z).

(** Two doubles hold the same value: they compare equal, or both are NaN;
    and the same for complex numbers, part by part. *)
Definition dsame (a b : double) : bool :=
  (a =? b)%float || (is_nan a && is_nan b).
Definition csame (a b : complex) : bool :=
  dsame (real a) (real b) && dsame (imag a) (imag b).

(** Conversion of a [size_t] to [double] (sizes of arrays held in memory
    are below 2^63). *)
Definition double_of_size (n : nat) : double :=
  of_uint63 (Uint63.of_Z (Z.of_nat n)).

(** ** Exceptions as results *)

Inductive exn : Set :=
| invalid_argument (what : string)
| runtime_error (what : string).

Inductive outcome (A : Type) : Type :=
| Return (a : A)
| Throw (e : exn).
Arguments Return {A} a.
Arguments Throw {A} e.

Definition bind {A B} (c : outcome A) (k : A -> outcome B) : outcome B :=
  match c with
  | Return a => k a
  | Throw e => Throw e
  end.

Notation "x <- c ;; k" := (bind c (fun x => k))
  (at level 61, c at next level, right associativity) : cpp_scope.
Notation "' pat <- c ;; k" := (bind c (fun x => match x with pat => k end))
  (at level 61, pat pattern, c at next level, right associativity) : cpp_scope.

Open Scope cpp_scope.

(** ** Containers

    xtensor checks neither the indices of an element access nor the ranges
    of a view.  Accesses that the source keeps inside the extents it
    declares are modelled on lists, and the two places where the source
    itself indexes outside an extent (column 1 of a one-column container,
    lines 228, 290, 311, 312 and 390) go through the library, see
    [xt_store] and [xt_col].  The views that the source takes of the QR
    factors (lines 211-216 and 277-279) are inside the factors when these
    have the shapes of a reduced factorisation and the system has at least
    as many rows as columns ([qr_reduced] and [2 N + Nc <= 2 Ns] below);
    the list operations read a default value outside a list, which says
    nothing of what xtensor does with a shorter factor, so the statements
    about the entries of the joint systems and about which errors a call
    can raise carry these two hypotheses. *)

(** An [xt::xtensor<T, 2>] as the list of its rows; a 1-D tensor as a list. *)
Definition matrix (T : Type) := list (list T).

(** [xt::xtensor<T,2> M({r, c}, v)] *)
Definition full {T} (r c : nat) (v : T) : matrix T := repeat (repeat v c) r.

Definition at2 {T} (d : T) (M : matrix T) (i j : nat) : T :=
  nth j (nth i M []) d.

(** In-place update of a list position (nothing happens out of range). *)
Fixpoint upd {T} (l : list T) (i : nat) (v : T) : list T :=
  match l, i with
  | [], _ => []
  | _ :: l', O => v :: l'
  | a :: l', S i' => a :: upd l' i' v
  end.

(** [M(i, j) = v] for indices inside the extents. *)
Definition set2 {T} (M : matrix T) (i j : nat) (v : T) : matrix T :=
  upd M i (upd (nth i M []) j v).

Fixpoint mapi_from {A B} (k : nat) (f : nat -> A -> B) (l : list A) : list B :=
  match l with
  | [] => []
  | a :: l' => f k a :: mapi_from (S k) f l'
  end.
Definition mapi {A B} (f : nat -> A -> B) (l : list A) : list B := mapi_from 0 f l.

(** [xt::view(M, xt::all(), j) = g]: row [k] receives [g k] in column [j]. *)
Definition set_col {T} (M : matrix T) (j : nat) (g : nat -> T) : matrix T :=
  mapi (fun k row => upd row j (g k)) M.

(** [xt::view(M, xt::all(), j) *= c] *)
Definition scale_col (M : matrix double) (j : nat) (c : double) : matrix double :=
  map (fun row => upd row j (nth j row 0 * c)%float) M.

(** [xt::view(M, xt::all(), j)] read as a vector. *)
Definition col {T} (d : T) (M : matrix T) (j : nat) : list T :=
  map (fun row => nth j row d) M.

(** [xt::view(v, xt::range(lo, hi))]; positions outside [v] read as [d]. *)
Definition slice {T} (d : T) (v : list T) (lo hi : nat) : list T :=
  map (fun i => nth i v d) (seq lo (hi - lo)).

(** [xt::view(M, xt::range(r0, r1), xt::range(c0, c1))] *)
Definition submatrix {T} (d : T) (M : matrix T) (r0 r1 c0 c1 : nat) : matrix T :=
  map (fun i => slice d (nth i M []) c0 c1) (seq r0 (r1 - r0)).

(** [xt::view(M, xt::range(r0, r0 + length B)) = B]: rows are overwritten. *)
Definition set_rows {T} (M : matrix T) (r0 : nat) (B : matrix T) : matrix T :=
  mapi (fun i row =>
          if (r0 <=? i) && (i <? r0 + length B) then nth (i - r0) B row else row) M.

(** [xt::view(v, xt::range(r0, r0 + length b)) = b] on a 1-D tensor. *)
Definition set_range {T} (v : list T) (r0 : nat) (b : list T) : list T :=
  mapi (fun i x =>
          if (r0 <=? i) && (i <? r0 + length b) then nth (i - r0) b x else x) v.

(** A matrix of [r] rows of [c] entries. *)
Definition has_shape {T} (r c : nat) (M : matrix T) : Prop :=
  length M = r /\ forall i, i < r -> length (nth i M []) = c.

(** [n] values [g 0 .. g (n-1)]. *)
Definition tabulate {T} (n : nat) (g : nat -> T) : list T := map g (seq 0 n).

(** A counted loop [for (m = lo; m < lo + n; m++) st = body m st]. *)
Fixpoint for_loop {St} (lo n : nat) (body : nat -> St -> St) (st : St) : St :=
  match n with
  | O => st
  | S n' => for_loop (S lo) n' body (body lo st)
  end.

(** The same loop with a body that may throw. *)
Fixpoint for_loop_exn {St} (lo n : nat) (body : nat -> St -> outcome St)
  (st : St) : outcome St :=
  match n with
  | O => Return st
  | S n' => st' <- body lo st ;; for_loop_exn (S lo) n' body st'
  end.

(** An [xt::pyarray<double>]: a NumPy array of any rank, row-major. *)
Record pyarray : Type := PyArray { shape : list nat; storage : list double }.

Definition dimension (a : pyarray) : nat := length (shape a).
Definition size (a : pyarray) : nat := fold_right Nat.mul 1 (shape a).

(** [a(k)] on a rank-1 array and [a(n, k)] on a rank-2 array. *)
Definition py1 (a : pyarray) (k : nat) : double := nth k (storage a) 0%float.
Definition py2 (a : pyarray) (n k : nat) : double :=
  nth (n * nth 1 (shape a) 0 + k) (storage a) 0%float.

(** The rows of a rank-2 array. *)
Definition py_rows (a : pyarray) : matrix double :=
  tabulate (nth 0 (shape a) 0)
           (fun n => tabulate (nth 1 (shape a) 0) (fun k => py2 a n k)).

(** ** The external numerical routines *)

Record Library : Type := {
  (** [operator/] of [std::complex<double>] (the compiler's complex division) *)
  cdiv : complex -> complex -> complex;
  (** [std::pow] / [xt::pow] at an integral exponent *)
  pow : double -> nat -> double;
  (** [xt::linalg::norm] of a 1-D expression (2-norm) *)
  norm : list double -> double;
  (** [xt::linalg::norm] of a 2-D expression (Frobenius norm) *)
  norm_fro : matrix double -> double;
  (** [xt::linalg::qr], reduced mode: the factors Q and R; LAPACK failures
      surface as [std::runtime_error] *)
  qr : matrix double -> outcome (matrix double * matrix double);
  (** [xt::linalg::lstsq]: first component of the result (the solution, a
      2-D array with one column per right-hand side) *)
  lstsq : matrix double -> list double -> outcome (matrix double);
  (** [xt::linalg::eigvals] *)
  eigvals : matrix double -> outcome (list complex);
  (** [xt::linalg::dot]: matrix-vector, matrix-matrix and complex
      matrix-vector products *)
  dot_mv : matrix double -> list double -> list double;
  dot_mm : matrix double -> matrix double -> matrix double;
  dot_cmv : matrix complex -> list complex -> list complex;
  (** xtensor checks no index: what an element write and a column view do
      when the column index is outside the declared extent is the
      container's business (its strides), not the source's. *)
  unchecked_store : matrix double -> nat -> nat -> double -> matrix double;
  unchecked_col : matrix double -> nat -> list double
}.

(** [M(i, j) = v] through xtensor's [operator()], for a container declared
    with the extents [{r, c}]. *)
Definition xt_store (L : Library) (r c : nat) (M : matrix double) (i j : nat)
  (v : double) : matrix double :=
  if (i <? r) && (j <? c) then set2 M i j v
  else unchecked_store L M i j v.

(** [xt::view(M, xt::all(), j)] of a library result. *)
Definition xt_col (L : Library) (M : matrix double) (j : nat) : list double :=
  if forallb (fun row => j <? length row) M then col 0%float M j
  else unchecked_col L M j.

(** ** Argument checks (lines 68-95) *)

Definition INT_MIN : Z := (- 2 ^ 31)%Z.
Definition INT_MAX : Z := (2 ^ 31 - 1)%Z.

(** [(size_t) n_polys]: conversion of an [int] to a 64-bit unsigned value. *)
Definition size_t_of_int (n : Z) : Z := (n mod 2 ^ 64)%Z.

Fixpoint shape_eqb (a b : list nat) : bool :=
  match a, b with
  | [], [] => true
  | x :: a', y :: b' => (x =? y) && shape_eqb a' b'
  | _, _ => false
  end.

Definition msg_f_rank : string := "Error: input f is not 2-dimensional.".
Definition msg_s_rank : string := "Error: input s is not 1-dimensional.".
Definition msg_s_length : string :=
  "Error: 2nd dimension of f does not match the length of s.".
Definition msg_weight : string :=
  "Error: shape of weight does not match shape of f.".
Definition msg_n_polys : string :=
  "Error: input n_polys is not in range [0, 11].".
Definition msg_conjugate : string :=
  "Error: complex poles are not conjugate pairs.".
Definition msg_cindex : string := "Error: unknown cindex value.".

(** The checks in the order of the source; on success the sizes
    [(Nv, Ns, Nc)]. *)
Definition check_arguments (f s weight : pyarray) (n_polys : Z)
  : outcome (nat * nat * nat) :=
  if negb (dimension f =? 2) then Throw (invalid_argument msg_f_rank) else
  let Nv := nth 0 (shape f) 0 in
  let Ns := nth 1 (shape f) 0 in
  if negb (dimension s =? 1) then Throw (invalid_argument msg_s_rank) else
  if negb (Ns =? size s) then Throw (invalid_argument msg_s_length) else
  if negb (shape_eqb (shape f) (shape weight))
  then Throw (invalid_argument msg_weight) else
  let Nc := size_t_of_int n_polys in
  if ((Nc <? 0) || (Nc >? 11))%Z then Throw (invalid_argument msg_n_polys) else
  Return (Nv, Ns, Z.to_nat Nc).

(** ** Finding out which poles are complex (lines 119-136 and 328-345)

    [cindex]: 0-real, 1-complex, 2-conjugate.  The loop variable [m] is
    advanced inside the body, so the loop runs on fuel; [N] iterations are
    more than it ever needs. *)
Fixpoint classify_loop (fuel N : nat) (poles : list complex) (m : nat)
  (cindex : list Z) : outcome (list Z) :=
  match fuel with
  | O => Return cindex
  | S fuel' =>
    if negb (m <? N) then Return cindex else
    if dne (imag (nth m poles C_ZERO)) 0%float then
      if (m =? 0) ||
         ((0 <? m) && ((nth (m - 1) cindex 0 =? 0) || (nth (m - 1) cindex 0 =? 2))%Z)
      then
        if (N - 1 <=? m) || cne (conj (nth m poles C_ZERO)) (nth (m + 1) poles C_ZERO)
        then Throw (invalid_argument msg_conjugate)
        else classify_loop fuel' N poles (m + 2) (upd (upd cindex m 1%Z) (m + 1) 2%Z)
      else classify_loop fuel' N poles (m + 1) cindex
    else classify_loop fuel' N poles (m + 1) cindex
  end.

Definition classify (N : nat) (poles : list complex) : outcome (list Z) :=
  classify_loop N N poles 0 (repeat 0%Z N).

(** The pairing that the classification accepts, stated on the sequence:
    a real pole stands alone, a pole with nonzero imaginary part is
    immediately followed by its exact conjugate, and the scan resumes after
    the pair. *)
Inductive paired : list complex -> Prop :=
| paired_nil : paired []
| paired_real p ps :
    dne (imag p) 0%float = false -> paired ps -> paired (p :: ps)
| paired_conj p q ps :
    dne (imag p) 0%float = true -> cne (conj p) q = false -> paired ps ->
    paired (p :: q :: ps).

(** A sequence with a broken pair: after real poles and complete pairs
    stands a pole with nonzero imaginary part that is the last pole or is
    not immediately followed by its exact conjugate. *)
Definition broken_pair (poles : list complex) : Prop :=
  exists ps p rest,
    poles = ps ++ p :: rest /\ paired ps /\ dne (imag p) 0%float = true /\
    match rest with
    | [] => True
    | q :: _ => cne (conj p) q = true
    end.

Fixpoint pairedb (ps : list complex) : bool :=
  match ps with
  | [] => true
  | p :: rest =>
    if dne (imag p) 0%float then
      match rest with
      | [] => false
      | q :: rest' => negb (cne (conj p) q) && pairedb rest'
      end
    else pairedb rest
  end.

(** What the tags of an accepted sequence look like at position [m]: real,
    or first of a pair with the second right after it, or second of a pair
    with the first right before it. *)
Definition tag_ok (N : nat) (cindex : list Z) (m : nat) : Prop :=
  nth m cindex 0%Z = 0%Z \/
  (nth m cindex 0%Z = 1%Z /\ m + 1 < N /\ nth (m + 1) cindex 0%Z = 2%Z) \/
  (nth m cindex 0%Z = 2%Z /\ 1 <= m /\ nth (m - 1) cindex 0%Z = 1%Z).

Definition tagged (N : nat) (cindex : list Z) : Prop :=
  length cindex = N /\ forall m, m < N -> tag_ok N cindex m.

(** The state of the scan when it stands at position [m]. *)
Definition scan_inv (N : nat) (m : nat) (cindex : list Z) : Prop :=
  length cindex = N /\
  (forall i, i < m -> tag_ok N cindex i) /\
  (forall i, m <= i -> nth i cindex 0%Z = 0%Z).

(** The 5-tuple returned by [vectfit]: (R, P, poles, rmserr, fit). *)
Record fit_result : Type := FitResult {
  residues : matrix complex;
  polys : matrix double;
  poles_out : list complex;
  rmserr : double;
  fit : matrix double
}.

Section Vectfit.

Variable L : Library.

(** The inputs, fixed through the section: [f], [s], [weight] and the sizes
    [Nv], [Ns], [N], [Nc] computed by the argument checks. *)
Variables (f s weight : pyarray).
Variables (Nv Ns N Nc : nat).

(** ** Basis columns of the poles (lines 141-152 and 350-361) *)

Definition one_over (z : complex) : complex := cdiv L (cplx_of 1%float) z.
Definition i_over (z : complex) : complex := cdiv L I1 z.

Definition pole_columns (poles : list complex) (cindex : list Z)
  (Dk : matrix complex) : outcome (matrix complex) :=
  for_loop_exn 0 N
    (fun m Dk =>
       let p := nth m poles C_ZERO in
       if (nth m cindex 0 =? 0)%Z then (* real pole *)
         Return (set_col Dk m (fun k => one_over (dsub (py1 s k) p)))
       else if (nth m cindex 0 =? 1)%Z then (* complex pole, 1st *)
         Return (set_col Dk m (fun k =>
                   cadd (one_over (dsub (py1 s k) p))
                        (one_over (dsub (py1 s k) (conj p)))))
       else if (nth m cindex 0 =? 2)%Z then (* complex pole, 2nd *)
         Return (set_col Dk m (fun k =>
                   csub (i_over (dsub (py1 s k) (conj p)))
                        (i_over (dsub (py1 s k) p))))
       else Throw (runtime_error msg_cindex))
    Dk.

(** The entry that [pole_columns] writes at sample [k] of column [m]. *)
Definition basis_entry (poles : list complex) (cindex : list Z) (m k : nat)
  : complex :=
  let p := nth m poles C_ZERO in
  if (nth m cindex 0 =? 0)%Z then one_over (dsub (py1 s k) p)
  else if (nth m cindex 0 =? 1)%Z
       then cadd (one_over (dsub (py1 s k) p)) (one_over (dsub (py1 s k) (conj p)))
  else csub (i_over (dsub (py1 s k) (conj p))) (i_over (dsub (py1 s k) p)).

(** The value that replaces an infinite entry: [TOLhigh + 0.0i]. *)
Definition sentinel : complex := dadd TOLhigh C_ZERO.

(** [xt::filter(Dk, xt::isinf(Dk)) = TOLhigh + 0.0i;] (line 155) *)
Definition filter_inf (Dk : matrix complex) : matrix complex :=
  map (map (fun z => if cisinf z then dadd TOLhigh C_ZERO else z)) Dk.

(** [xt::pow(s, m) + 0.0i] at sample [k]. *)
Definition s_pow (m k : nat) : complex := dadd (pow L (py1 s k) m) C_ZERO.

(** The basis of pole identification (lines 139-162). *)
Definition Dk_pole (poles : list complex) (cindex : list Z)
  : outcome (matrix complex) :=
  Dk <- pole_columns poles cindex (full Ns (N + Nat.max Nc 1) C_ZERO) ;;
  let Dk := filter_inf Dk in
  let Dk := set_col Dk N (fun _ => Cplx 1%float 0%float) in
  Return (for_loop 1 (Nc - 1) (fun m Dk => set_col Dk (N + m) (s_pow m)) Dk).

(** The basis of residue identification (lines 349-365). *)
Definition Dk_res (poles : list complex) (cindex : list Z)
  : outcome (matrix complex) :=
  Dk <- pole_columns poles cindex (full Ns (N + Nc) C_ZERO) ;;
  Return (for_loop 0 Nc (fun m Dk => set_col Dk (N + m) (s_pow m)) Dk).

(** ** Pole identification (lines 116-320) *)

(** Scaling for the last row of the LS problem (lines 165-171). *)
Definition scale_value : double :=
  let scale :=
    for_loop 0 Nv
      (fun m scale =>
         (scale + pow L (norm L (tabulate Ns (fun k => py2 weight m k * py2 f m k))) 2)%float)
      0%float in
  (PrimFloat.sqrt scale / double_of_size Ns)%float.

(** Left block of [A1]: the weighted basis columns (lines 180-184, 255-259,
    371-375). *)
Definition left_block (Dk : matrix complex) (n : nat) (A1 : matrix complex)
  : matrix complex :=
  for_loop 0 (N + Nc)
    (fun m A1 => set_col A1 m (fun k => dmul (py2 weight n k) (at2 C_ZERO Dk k m)))
    A1.

(** Right block of [A1] over [cnt] columns (lines 186-190, 260-264). *)
Definition right_block (Dk : matrix complex) (n cnt : nat) (A1 : matrix complex)
  : matrix complex :=
  for_loop 0 cnt
    (fun m A1 =>
       set_col A1 (N + Nc + m)
         (fun k => cmuld (dmul (- py2 weight n k)%float (at2 C_ZERO Dk k m))
                         (py2 f n k)))
    A1.

(** [xt::sum] of a complex column. *)
Definition csum (v : list complex) : complex := fold_left cadd v C_ZERO.

(** The real system of response [n] in the relaxed problem (lines 178-204). *)
Definition relaxed_A (Dk : matrix complex) (scale : double) (n : nat)
  : matrix double :=
  let A1 := full Ns (N + Nc + N + 1) C_ZERO in
  let A1 := left_block Dk n A1 in
  let A1 := right_block Dk n (N + 1) A1 in
  let A := full (2 * Ns + 1) (N + Nc + N + 1) 0%float in
  let A := set_rows A 0 (map (map real) A1) in
  let A := set_rows A Ns (map (map imag) A1) in
  (* Integral criterion for sigma *)
  if n =? Nv - 1 then
    for_loop 0 (N + 1)
      (fun m A =>
         let d := csum (col C_ZERO Dk m) in
         set2 A (2 * Ns) (N + Nc + m) (real (dmul scale d)))
      A
  else A.

(** The loop over the responses that fills [AA] and [bb] (lines 174-218). *)
Definition relaxed_AA_bb (Dk : matrix complex) (scale : double)
  : outcome (matrix double * list double) :=
  for_loop_exn 0 Nv
    (fun n '(AA, bb) =>
       '(Q, R) <- qr L (relaxed_A Dk scale n) ;;
       let ind1 := n * (N + 1) in
       let lo := N + Nc in
       let hi := N + Nc + N + 1 in
       let AA := set_rows AA ind1 (submatrix 0%float R lo hi lo hi) in
       if n =? Nv - 1 then
         let qrow := nth (length Q - 1) Q [] in
         let bb :=
           set_range bb ind1
             (map (fun q => (double_of_size Ns * scale * q)%float)
                  (slice 0%float qrow lo (length qrow))) in
         Return (AA, bb)
       else Return (AA, bb))
    (full (Nv * (N + 1)) (N + 1) 0%float, repeat 0%float (Nv * (N + 1))).

(** Column scaling (lines 220-225, 282-287): [Escale(m) = 1 / norm of
    column m], then the column is multiplied by it. *)
Definition column_scaling (cnt : nat) (AA : matrix double)
  : list double * matrix double :=
  for_loop 0 cnt
    (fun m '(Escale, AA) =>
       let e := (1 / norm L (col 0%float AA m))%float in
       (upd Escale m e, scale_col AA m e))
    (repeat 0%float cnt, AA).

(** [x *= Escale] *)
Definition times_Escale (x Escale : list double) : list double :=
  mapi (fun i xi => (xi * nth i Escale 0)%float) x.

(** The relaxed solve (lines 220-231): the scaled solution [x]. *)
Definition relaxed_solve (Dk : matrix complex) (scale : double)
  : outcome (list double) :=
  '(AA, bb) <- relaxed_AA_bb Dk scale ;;
  let '(Escale, AA) := column_scaling (N + 1) AA in
  results <- lstsq L AA bb ;;
  let x := xt_col L results 1 in
  Return (times_Escale x Escale).

(** [std::abs(D) < TOLlow || std::abs(D) > TOLhigh] (line 235) *)
Definition degenerate (D : double) : bool :=
  ((abs D <? TOLlow) || (TOLhigh <? abs D))%float.

(** The new value of [D] in the fallback (lines 239-250). *)
Definition clamp_D (xlast D : double) : double :=
  if (xlast =? 0)%float then 1%float
  else if (abs xlast <? TOLlow)%float
       then (if (0 <? xlast)%float then TOLlow else - TOLlow)%float
  else if (TOLhigh <? abs xlast)%float
       then (if (0 <? xlast)%float then TOLhigh else - TOLhigh)%float
  else D.

(** The system of response [n] without relaxation (lines 254-269). *)
Definition nonrelaxed_A (Dk : matrix complex) (n : nat) : matrix double :=
  let A1 := full Ns (N + Nc + N) C_ZERO in
  let A1 := left_block Dk n A1 in
  let A1 := right_block Dk n N A1 in
  map (map real) A1 ++ map (map imag) A1.

Definition nonrelaxed_b (D : double) (n : nat) : list double :=
  let b1 := tabulate Ns (fun k => (D * py2 weight n k * py2 f n k)%float) in
  b1 ++ map (fun _ => 0%float) b1.

(** The loop over the responses that fills the block's own [AA] and [bb]
    (lines 237-280). *)
Definition nonrelaxed_AA_bb (Dk : matrix complex) (D : double)
  : outcome (matrix double * list double) :=
  for_loop_exn 0 Nv
    (fun n '(AA, bb) =>
       '(Q, R) <- qr L (nonrelaxed_A Dk n) ;;
       let ind1 := n * N in
       let lo := N + Nc in
       let hi := N + Nc + N in
       let AA := set_rows AA ind1 (submatrix 0%float R lo hi lo hi) in
       let Qt := tabulate N (fun j => col 0%float Q (lo + j)) in
       let bb := set_range bb ind1 (dot_mv L Qt (nonrelaxed_b D n)) in
       Return (AA, bb))
    (full (Nv * N) N 0%float, repeat 0%float (Nv * N)).

(** The solve without relaxation (lines 252-291): the value of the block's
    own [C] when the block ends. *)
Definition nonrelaxed_solve (Dk : matrix complex) (D : double)
  : outcome (list double) :=
  '(AA, bb) <- nonrelaxed_AA_bb Dk D ;;
  let '(Escale, AA) := column_scaling N AA in
  results <- lstsq L AA bb ;;
  let C := xt_col L results 1 in
  Return (times_Escale C Escale).

(** The zeros of sigma: [LAMBD] and [SERB] (lines 295-314); first the body
    of the loop at pole [m], then the loop. *)
Definition LAMBD_SERB_body (poles : list complex) (cindex : list Z) (m : nat)
  (st : matrix double * matrix double) : matrix double * matrix double :=
  let '(LAMBD, SERB) := st in
  if (nth m cindex 0 =? 0)%Z then (* real pole *)
    (xt_store L N N LAMBD m m (real (nth m poles C_ZERO)), SERB)
  else if (nth m cindex 0 =? 1)%Z then
    let x := real (nth m poles C_ZERO) in
    let y := imag (nth m poles C_ZERO) in
    let LAMBD := xt_store L N N LAMBD m m x in
    let LAMBD := xt_store L N N LAMBD (m + 1) (m + 1) x in
    let LAMBD := xt_store L N N LAMBD (m + 1) m (- y)%float in
    let LAMBD := xt_store L N N LAMBD m (m + 1) y in
    let SERB := xt_store L N 1 SERB m 1 2%float in
    let SERB := xt_store L N 1 SERB (m + 1) 1 0%float in
    (LAMBD, SERB)
  else (LAMBD, SERB).

Definition LAMBD_SERB (poles : list complex) (cindex : list Z)
  : matrix double * matrix double :=
  for_loop 0 N (LAMBD_SERB_body poles cindex)
           (full N N 0%float, full N 1 1%float).

(** The element writes that the loop performs on [SERB] (lines 311-312), as
    (row, column, value), in the order of the loop. *)
Definition SERB_writes (cindex : list Z) : list (nat * nat * double) :=
  flat_map
    (fun m => if (nth m cindex 0 =? 1)%Z
              then [(m, 1, 2%float); (m + 1, 1, 0%float)]
              else [])
    (seq 0 N).

(** [ZER = LAMBD - xt::linalg::dot(SERB, C) / D] with [C] reshaped to
    [{1, N}] (lines 317-318). *)
Definition ZER (LAMBD SERB : matrix double) (C : list double) (D : double)
  : matrix double :=
  let P := dot_mm L SERB [C] in
  mapi (fun i row => mapi (fun j l => (l - at2 0 P i j / D)%float) row) LAMBD.

(** The whole stage: the relocated poles. *)
Definition pole_identification (poles : list complex) : outcome (list complex) :=
  cindex <- classify N poles ;;
  Dk <- Dk_pole poles cindex ;;
  let scale := scale_value in
  x <- relaxed_solve Dk scale ;;
  let C := slice 0%float x 0 (length x - 1) in
  let D := nth (length x - 1) x 0%float in
  (* Situation: produced D of sigma extremely is small or large *)
  D <- (if degenerate D then
          let D := clamp_D (nth (length x - 1) x 0%float) D in
          _C <- nonrelaxed_solve Dk D ;;   (* the block's own [C] ends here *)
          Return D
        else Return D) ;;
  let '(LAMBD, SERB) := LAMBD_SERB poles cindex in
  eigvals L (ZER LAMBD SERB C D).

(** ** Residue identification (lines 325-441) *)

(** The real system and right-hand side of response [n] (lines 370-380). *)
Definition residue_A (Dk : matrix complex) (n : nat) : matrix double :=
  let A1 := full Ns (N + Nc) C_ZERO in
  let A1 := left_block Dk n A1 in
  map (map real) A1 ++ map (map imag) A1.

Definition residue_b (n : nat) : list double :=
  let b1 := tabulate Ns (fun k => (py2 weight n k * py2 f n k)%float) in
  b1 ++ map (fun _ => 0%float) b1.

(** The loop over the responses (lines 367-399): the real coefficients [Cr]
    and the polynomial coefficients. *)
Definition residue_solve (Dk : matrix complex) (polys : matrix double)
  : outcome (matrix double * matrix double) :=
  for_loop_exn 0 Nv
    (fun n '(Cr, polys) =>
       let '(Escale, A) := column_scaling (N + Nc) (residue_A Dk n) in
       results <- lstsq L A (residue_b n) ;;
       let x := times_Escale (xt_col L results 1) Escale in
       let Cr := upd Cr n (slice 0%float x 0 N) in
       if 0 <? Nc then Return (Cr, upd polys n (slice 0%float x N (N + Nc)))
       else Return (Cr, polys))
    (full Nv N 0%float, polys).

(** Get complex residues (lines 401-421). *)
Definition complex_residues (cindex : list Z) (Cr : matrix double)
  (residues : matrix complex) : matrix complex :=
  for_loop 0 N
    (fun m residues =>
       if (nth m cindex 0 =? 0)%Z then
         for_loop 0 Nv
           (fun n residues => set2 residues n m (cplx_of (at2 0%float Cr n m)))
           residues
       else if (nth m cindex 0 =? 1)%Z then
         for_loop 0 Nv
           (fun n residues =>
              let r1 := at2 0%float Cr n m in
              let r2 := at2 0%float Cr n (m + 1) in
              let residues := set2 residues n m (dadd r1 (cmuld I1 r2)) in
              set2 residues n (m + 1) (dsub r1 (cmuld I1 r2)))
           residues
       else residues)
    residues.

(** Calculate fit on s (lines 423-437). *)
Definition fit_on_s (poles : list complex) (residues : matrix complex)
  (polys fit : matrix double) : matrix double :=
  let Dk2 :=
    for_loop 0 N
      (fun m Dk2 => set_col Dk2 m (fun k => one_over (dsub (py1 s k) (nth m poles C_ZERO))))
      (full Ns N C_ZERO) in
  for_loop 0 Nv
    (fun n fit =>
       let v := dot_cmv L Dk2 (nth n residues []) in
       let fit := upd fit n (tabulate Ns (fun k => real (nth k v C_ZERO))) in
       for_loop 0 Nc
         (fun m fit =>
            upd fit n
              (mapi (fun k x => (x + pow L (py1 s k) m * at2 0 polys n m)%float)
                    (nth n fit [])))
         fit)
    fit.

(** [xt::linalg::norm(fit - f) / std::sqrt(Nv * Ns)] (line 440) *)
Definition rms_error (fit : matrix double) : double :=
  let diff := mapi (fun n row => mapi (fun k x => (x - py2 f n k)%float) row) fit in
  (norm_fro L diff / PrimFloat.sqrt (double_of_size (Nv * Ns)))%float.

Definition residue_identification (poles : list complex)
  (residues : matrix complex) (polys fit : matrix double) : outcome fit_result :=
  cindex <- classify N poles ;;
  Dk <- Dk_res poles cindex ;;
  '(Cr, polys) <- residue_solve Dk polys ;;
  let residues := complex_residues cindex Cr residues in
  let fit := fit_on_s poles residues polys fit in
  Return (FitResult residues polys poles (rms_error fit) fit).

End Vectfit.

(** ** The function [vectfit] (lines 62-444) *)
Definition vectfit (L : Library) (f s : pyarray) (poles : list complex)
  (weight : pyarray) (n_polys : Z) (skip_pole skip_res : bool)
  : outcome fit_result :=
  '(Nv, Ns, Nc) <- check_arguments f s weight n_polys ;;
  let N := length poles in
  (* Initialize *)
  let residues := full Nv N C_ZERO in
  let polys := full Nv Nc 0%float in
  let fit := full Nv Ns 0%float in
  let rmserr := 0%float in
  (* If 0 poles and 0 cf order, return *)
  if (N =? 0) && (Nc =? 0) then
    let rmserr :=
      (norm_fro L (py_rows f) / PrimFloat.sqrt (double_of_size (Nv * Ns)))%float in
    Return (FitResult residues polys poles rmserr fit)
  else
    poles <- (if negb skip_pole && (0 <? N)
              then pole_identification L f s weight Nv Ns N Nc poles
              else Return poles) ;;
    if negb skip_res
    then residue_identification L f s weight Nv Ns N Nc poles residues polys fit
    else Return (FitResult residues polys poles rmserr fit).

(** ** The call as the caller sees it

    [poles] is taken by non-const reference (line 66) and assigned at line
    319: from then on the caller's array holds the relocated poles, also
    when the call throws afterwards.  The pair is what the call returns or
    throws, and the caller's [poles] when the call ends. *)
Definition vectfit_by_reference (L : Library) (f s : pyarray)
  (poles : list complex) (weight : pyarray) (n_polys : Z)
  (skip_pole skip_res : bool) : outcome fit_result * list complex :=
  match check_arguments f s weight n_polys with
  | Throw e => (Throw e, poles)
  | Return (Nv, Ns, Nc) =>
    let N := length poles in
    (* Initialize *)
    let residues := full Nv N C_ZERO in
    let polys := full Nv Nc 0%float in
    let fit := full Nv Ns 0%float in
    let rmserr := 0%float in
    (* If 0 poles and 0 cf order, return *)
    if (N =? 0) && (Nc =? 0) then
      let rmserr :=
        (norm_fro L (py_rows f) / PrimFloat.sqrt (double_of_size (Nv * Ns)))%float in
      (Return (FitResult residues polys poles rmserr fit), poles)
    else
      match (if negb skip_pole && (0 <? N)
             then pole_identification L f s weight Nv Ns N Nc poles
             else Return poles) with
      | Throw e => (Throw e, poles)
      | Return poles' => (* line 319 has assigned the caller's array *)
        (if negb skip_res
         then residue_identification L f s weight Nv Ns N Nc poles' residues polys fit
         else Return (FitResult residues polys poles' rmserr fit),
         poles')
      end
  end.

(** ** An executable library

    Textbook counterparts of the external routines, used to run the model on
    concrete inputs: sums of products for the norms and the products,
    complex division with the zero-divisor rule of C99 Annex G, modified
    Gram-Schmidt for QR, least squares through QR and back substitution,
    closed-form eigenvalues up to order two, and xtensor's stride rule
    (stride 0 on an extent of one) for unchecked accesses. *)
Module Textbook.

Local Open Scope float_scope.

Definition vdot (a b : list double) : double :=
  fold_left (fun acc xy => acc + fst xy * snd xy) (combine a b) 0.

Definition norm (v : list double) : double := PrimFloat.sqrt (vdot v v).
Definition norm_fro (M : matrix double) : double := norm (concat M).

Definition pow (x : double) (n : nat) : double :=
  Nat.iter n (fun acc => acc * x) 1.

Definition cmul (a b : complex) : complex :=
  Cplx (real a * real b - imag a * imag b) (real a * imag b + imag a * real b).

Definition cdiv (a b : complex) : complex :=
  let denom := real b * real b + imag b * imag b in
  let x := (real a * real b + imag a * imag b) / denom in
  let y := (imag a * real b - real a * imag b) / denom in
  if is_nan x && is_nan y && (denom =? 0) &&
     (negb (is_nan (real a)) || negb (is_nan (imag a)))
  then
    let inf := if 1 / real b <? 0 then neg_infinity else infinity in
    Cplx (inf * real a) (inf * imag a)
  else Cplx x y.

Definition columns (M : matrix double) : list (list double) :=
  tabulate (length (hd [] M)) (fun j => col 0 M j).

Definition dot_mv (M : matrix double) (v : list double) : list double :=
  map (fun row => vdot row v) M.

Definition dot_mm (A B : matrix double) : matrix double :=
  map (fun row => map (fun c => vdot row c) (columns B)) A.

Definition dot_cmv (M : matrix complex) (v : list complex) : list complex :=
  map (fun row =>
         fold_left (fun acc xy => cadd acc (cmul (fst xy) (snd xy)))
                   (combine row v) C_ZERO) M.

(** [y + a * x] *)
Definition axpy (a : double) (x y : list double) : list double :=
  map (fun xy => snd xy + a * fst xy) (combine x y).

(** Orthogonalise [v] against the columns [qs]; the coefficients and the
    remainder. *)
Fixpoint project (qs : list (list double)) (v : list double)
  : list double * list double :=
  match qs with
  | [] => ([], v)
  | q :: qs' =>
    let r := vdot q v in
    let '(rs, v') := project qs' (axpy (- r) q v) in
    (r :: rs, v')
  end.

(** Modified Gram-Schmidt over the columns: the columns of Q and of R. *)
Fixpoint mgs (K : nat) (cols qs : list (list double))
  : list (list double) * list (list double) :=
  match cols with
  | [] => (qs, [])
  | a :: cols' =>
    let '(rs, v) := project qs a in
    if (length qs <? K)%nat then
      let d := norm v in
      let '(Q, Rc) := mgs K cols' (qs ++ [map (fun x => x / d) v]) in
      (Q, (rs ++ [d]) :: Rc)
    else
      let '(Q, Rc) := mgs K cols' qs in
      (Q, rs :: Rc)
  end.

Definition qr_factors (A : matrix double) : matrix double * matrix double :=
  let m := length A in
  let K := Nat.min m (length (hd [] A)) in
  let '(Qc, Rc) := mgs K (columns A) [] in
  (tabulate m (fun i => map (fun q => nth i q 0) Qc),
   tabulate K (fun i => map (fun rc => nth i rc 0) Rc)).

Definition qr (A : matrix double) : outcome (matrix double * matrix double) :=
  Return (qr_factors A).

(** Back substitution on the leading [n] x [n] block of an upper-triangular
    [R]. *)
Definition back_subst (n : nat) (R : matrix double) (y : list double)
  : list double :=
  for_loop 0 n
    (fun t x =>
       let i := (n - 1 - t)%nat in
       upd x i ((nth i y 0 - vdot (nth i R []) x) / at2 0 R i i))
    (repeat 0 n).

Definition lstsq (A : matrix double) (b : list double) : outcome (matrix double) :=
  let n := length (hd [] A) in
  let '(Q, R) := qr_factors A in
  let y := map (fun q => vdot q b) (columns Q) in
  Return (map (fun xi => [xi]) (back_subst n R y)).

Definition eigvals (M : matrix double) : outcome (list complex) :=
  match M with
  | [] => Return []
  | [[a]] => Return [Cplx a 0]
  | [[a; b]; [c; d]] =>
    let h := (a + d) / 2 in
    let disc := (a - d) / 2 * ((a - d) / 2) + b * c in
    if disc <? 0
    then Return [Cplx h (PrimFloat.sqrt (- disc)); Cplx h (- PrimFloat.sqrt (- disc))]
    else Return [Cplx (h + PrimFloat.sqrt disc) 0; Cplx (h - PrimFloat.sqrt disc) 0]
  | _ => Throw (runtime_error "eigvals: order above two")
  end.

(** Row-major offset of [(i, j)] in an [r] x [c] container; an extent of one
    has stride 0. *)
Definition offset (r c i j : nat) : nat :=
  (i * (if r =? 1 then 0 else c) + j * (if c =? 1 then 0 else 1))%nat.

Definition unchecked_store (M : matrix double) (i j : nat) (v : double)
  : matrix double :=
  let r := length M in
  let c := length (hd [] M) in
  let flat := upd (concat M) (offset r c i j) v in
  tabulate r (fun i' => tabulate c (fun j' => nth (i' * c + j') flat 0)).

Definition unchecked_col (M : matrix double) (j : nat) : list double :=
  let r := length M in
  let c := length (hd [] M) in
  tabulate r (fun i => nth (offset r c i j) (concat M) 0).

Definition library : Library :=
  Build_Library cdiv pow norm norm_fro qr lstsq eigvals dot_mv dot_mm dot_cmv
                unchecked_store unchecked_col.

End Textbook.

(** Rank-1 and rank-2 arrays from their values. *)
Definition mk1 (v : list double) : pyarray := PyArray [length v] v.
Definition mk2 (r c : nat) (v : list double) : pyarray := PyArray [r; c] v.

(** The arguments that pass every check; [n_polys] is a C [int]. *)
Definition valid_arguments (f s weight : pyarray) (n_polys : Z) : Prop :=
  dimension f = 2 /\ dimension s = 1 /\ size s = nth 1 (shape f) 0 /\
  shape weight = shape f /\ (0 <= n_polys <= 11)%Z.

(** The arguments that some check refuses. *)
Definition bad_arguments (f s weight : pyarray) (n_polys : Z) : Prop :=
  dimension f <> 2 \/ dimension s <> 1 \/ size s <> nth 1 (shape f) 0 \/
  shape weight <> shape f \/ (n_polys < 0)%Z \/ (11 < n_polys)%Z.

(** The result of a call that skips residue identification, or that skips
    everything: the initial values of lines 98-101 around the poles. *)
Definition initial_result (Nv Ns N Nc : nat) (poles : list complex) : fit_result :=
  FitResult (full Nv N C_ZERO) (full Nv Nc 0%float) poles 0%float
            (full Nv Ns 0%float).

(** ** Concrete inputs *)

(** One response sampled at s = 1, 2, 3 with unit weights. *)
Definition f123 : pyarray := mk2 1 3 [1; 2; 3]%float.
Definition s123 : pyarray := mk1 [1; 2; 3]%float.
Definition w111 : pyarray := mk2 1 3 [1; 1; 1]%float.

(** The response 1/(s + 1) sampled at s = 1, 2, 3, 4 with unit weights. *)
Definition s4 : pyarray := mk1 [1; 2; 3; 4]%float.
Definition f4 : pyarray := mk2 1 4 [1 / 2; 1 / 3; 1 / 4; 1 / 5]%float.
Definition w4 : pyarray := mk2 1 4 [1; 1; 1; 1]%float.

(** A constant response at s = 1, 2, 3, 4: the relaxed problem for a real
    start pole has the exact solution D = 0. *)
Definition f1111 : pyarray := mk2 1 4 [1; 1; 1; 1]%float.
Definition start_pole : list complex := [Cplx (-2)%float 0%float].

(** Two samples, the first of which coincides with the real pole 1. *)
Definition s12 : pyarray := mk1 [1; 2]%float.
Definition f12 : pyarray := mk2 1 2 [1; 1]%float.
Definition w12 : pyarray := mk2 1 2 [1; 1]%float.
Definition pole_on_sample : list complex := [Cplx 1%float 0%float].

(** A conjugate pair. *)
Definition pair_poles : list complex :=
  [Cplx (-1)%float 2%float; Cplx (-1)%float (-2)%float].

(** The tuple that the textbook library gives for the response 1/(s + 1)
    fitted on the conjugate pair without relocating it. *)
Definition pair_fit : fit_result :=
  Eval vm_compute in
    match vectfit Textbook.library f4 s4 pair_poles w4 0 true false with
    | Return r => r
    | Throw _ => initial_result 0 0 0 0 []
    end.

(** What the textbook library computes for the constant response during
    pole identification: the basis, the scaled solution of the relaxed solve
    and the coefficients of the solve without relaxation. *)
Definition constant_Dk : matrix complex :=
  Eval vm_compute in
    match Dk_pole Textbook.library s4 4 1 0 start_pole [0%Z] with
    | Return Dk => Dk
    | Throw _ => []
    end.

Definition constant_x : list double :=
  Eval vm_compute in
    match relaxed_solve Textbook.library f1111 w4 1 4 1 0 constant_Dk
            (scale_value Textbook.library f1111 w4 1 4) with
    | Return x => x
    | Throw _ => []
    end.

Definition constant_C' : list double :=
  Eval vm_compute in
    match nonrelaxed_solve Textbook.library f1111 w4 1 4 1 0 constant_Dk 1%float with
    | Return C => C
    | Throw _ => []
    end.

(** A sequence that is not made of conjugate pairs. *)
Definition unpaired_poles : list complex :=
  [Cplx 1%float 2%float; Cplx 3%float 4%float].

(** The selector that the convention of the pole update asks for: 2 on the
    row of the first pole of a pair, 0 on the row of the second, 1 on the
    row of a real pole. *)
Definition selector_value (cindex : list Z) (m : nat) : double :=
  if (nth m cindex 0 =? 1)%Z then 2%float
  else if (nth m cindex 0 =? 2)%Z then 0%float
  else 1%float.

(** The selector after the loop has handled the poles below [i]. *)
Definition selector_progress (cindex : list Z) (i j : nat) : double :=
  if (nth j cindex 0 =? 1)%Z && (j <? i) then 2%float
  else if (nth j cindex 0 =? 2)%Z && (1 <=? j) && (j - 1 <? i) then 0%float
  else 1%float.

(** A column vector as an N x 1 matrix. *)
Definition column (l : list double) : matrix double := map (fun a => [a]) l.

(** A library whose QR, least-squares and eigenvalue routines throw at
    every call, the other routines being those of [L]. *)
Definition without_solvers (L : Library) : Library :=
  Build_Library (cdiv L) (pow L) (norm L) (norm_fro L)
                (fun _ => Throw (runtime_error "qr"))
                (fun _ _ => Throw (runtime_error "lstsq"))
                (fun _ => Throw (runtime_error "eigvals"))
                (dot_mv L) (dot_mm L) (dot_cmv L)
                (unchecked_store L) (unchecked_col L).

(** A library whose QR, least-squares and eigenvalue routines return at
    every call. *)
Definition solvers_return (L : Library) : Prop :=
  (forall A, exists QR, qr L A = Return QR) /\
  (forall A b, exists X, lstsq L A b = Return X) /\
  (forall M, exists v, eigvals L M = Return v).

(** The messages of the errors that the source throws itself: the five of
    the argument checks and the one of the pairing. *)
Definition input_messages : list string :=
  [msg_f_rank; msg_s_rank; msg_s_length; msg_weight; msg_n_polys; msg_conjugate].

(** A computation that throws nothing but [std::invalid_argument] with one
    of these messages. *)
Definition only_invalid_argument {A} (c : outcome A) : Prop :=
  forall e, c = Throw e ->
            exists what, e = invalid_argument what /\ In what input_messages.

(** The factors of a reduced QR factorisation: for a system of [r] rows and
    [c] columns, Q has [r] rows of [min r c] entries and R has [min r c]
    rows of [c] entries. *)
Definition qr_reduced (L : Library) : Prop :=
  forall (r c : nat) (A Q R : matrix double),
    has_shape r c A -> qr L A = Return (Q, R) ->
    has_shape r (Nat.min r c) Q /\ has_shape (Nat.min r c) c R.

(** A library whose eigenvalue routine answers [vals] whatever the matrix,
    the other routines being those of [L]. *)
Definition with_eigvals (L : Library) (vals : list complex) : Library :=
  Build_Library (cdiv L) (pow L) (norm L) (norm_fro L) (qr L) (lstsq L)
                (fun _ => Return vals) (dot_mv L) (dot_mm L) (dot_cmv L)
                (unchecked_store L) (unchecked_col L).

(** ** What the stages compute, in closed form *)

(** What the tag of position [m] says about the poles: a real pole, or a
    pole with nonzero imaginary part followed by its exact conjugate, or
    that conjugate. *)
Definition tag_matches (poles : list complex) (cindex : list Z) (m : nat) : Prop :=
  let p := nth m poles C_ZERO in
  (nth m cindex 0%Z = 0%Z /\ dne (imag p) 0%float = false) \/
  (nth m cindex 0%Z = 1%Z /\ dne (imag p) 0%float = true /\
   cne (conj p) (nth (m + 1) poles C_ZERO) = false) \/
  (nth m cindex 0%Z = 2%Z /\ dne (imag p) 0%float = true /\
   cne (conj (nth (m - 1) poles C_ZERO)) p = false).

(** A pole sequence without complex poles. *)
Definition all_real (N : nat) (poles : list complex) : Prop :=
  forall m, m < N -> dne (imag (nth m poles C_ZERO)) 0%float = false.

(** The real block-diagonal form of a classified pole sequence: a real pole
    [p] gives the 1 x 1 block [p], a pair [x + iy], [x - iy] the 2 x 2 block
    [[x, y], [-y, x]] (lines 299-310). *)
Definition LAMBD_entry (poles : list complex) (cindex : list Z) (i j : nat)
  : double :=
  if (nth i cindex 0 =? 2)%Z then
    if j =? i then real (nth (i - 1) poles C_ZERO)
    else if j + 1 =? i then (- imag (nth (i - 1) poles C_ZERO))%float
    else 0%float
  else
    if j =? i then real (nth i poles C_ZERO)
    else if (nth i cindex 0 =? 1)%Z && (j =? i + 1) then imag (nth i poles C_ZERO)
    else 0%float.

(** Row [i] of [LAMBD] has been written once the loop has passed the first
    pole of its block. *)
Definition LAMBD_row_done (cindex : list Z) (k i : nat) : bool :=
  if (nth i cindex 0 =? 2)%Z then i - 1 <? k else i <? k.

(** The value of [D] that the pole update divides by: the last entry of
    the relaxed solution, clamped when it is degenerate (lines 231-250). *)
Definition update_divisor (D : double) : double :=
  if degenerate D then clamp_D D D else D.

(** The partial fractions [1 / (s_k - p_m)] of all the poles, complex or
    not, at all the samples (lines 424-428). *)
Definition partial_fractions (L : Library) (s : pyarray) (Ns N : nat)
  (poles : list complex) : matrix complex :=
  tabulate Ns (fun k =>
    tabulate N (fun m => one_over L (dsub (py1 s k) (nth m poles C_ZERO)))).

(** The rational model of response [n] at sample [k]: the real part of the
    product of the partial fractions with the residues, to which the
    polynomial terms are added by increasing degree (lines 429-437). *)
Definition model_on_s (L : Library) (s : pyarray) (Ns N Nc : nat)
  (poles : list complex) (residues : matrix complex) (polys : matrix double)
  (n k : nat) : double :=
  fold_left
    (fun acc m => (acc + pow L (py1 s k) m * at2 0 polys n m)%float)
    (seq 0 Nc)
    (real (nth k (dot_cmv L (partial_fractions L s Ns N poles) (nth n residues []))
               C_ZERO)).

(** The library [L] in which the routines that only pole identification
    calls (QR, eigenvalues, the real matrix products and the unchecked
    element store) are those of [L']. *)
Definition with_pole_routines (L L' : Library) : Library :=
  Build_Library (cdiv L) (pow L) (norm L) (norm_fro L) (qr L') (lstsq L)
                (eigvals L') (dot_mv L') (dot_mm L') (dot_cmv L)
                (unchecked_store L') (unchecked_col L).

(** ** More concrete inputs *)

(** The tuple that the textbook library gives for the response 1/(s + 1)
    with the real start pole -2, both stages run. *)
Definition real_fit : fit_result :=
  Eval vm_compute in
    match vectfit Textbook.library f4 s4 start_pole w4 0 false false with
    | Return r => r
    | Throw _ => initial_result 0 0 0 0 []
    end.

(** A conjugate pair followed by a real pole, and two real poles. *)
Definition pair_and_real : list complex := pair_poles ++ [Cplx (-3)%float 0%float].
Definition two_real : list complex := [Cplx (-2)%float 0%float; Cplx (-3)%float 0%float].

(** Two responses at s = 1, 2, 3, 4 with unit weights, and the joint system
    that the textbook library builds for them on the start pole -2. *)
Definition f24 : pyarray := mk2 2 4 [1 / 2; 1 / 3; 1 / 4; 1 / 5; 1; 1; 1; 1]%float.
Definition w24 : pyarray := mk2 2 4 [1; 1; 1; 1; 1; 1; 1; 1]%float.

Definition joint_system : matrix double * list double :=
  Eval vm_compute in
    match relaxed_AA_bb Textbook.library f24 w24 2 4 1 0 constant_Dk
            (scale_value Textbook.library f24 w24 2 4) with
    | Return st => st
    | Throw _ => ([], [])
    end.

(** What an eigenvalue routine answers on a matrix that holds NaN. *)
Definition nan_poles : list complex := [Cplx nan nan; Cplx nan nan].

(** Weights that are all zero at s = 1, 2, 3, 4. *)
Definition w0 : pyarray := mk2 1 4 [0; 0; 0; 0]%float.

(** A rank-1 array where a rank-2 one is expected. *)
Definition f_rank1 : pyarray := mk1 [1; 2; 3]%float.

(** A matrix-vector product has one entry per row of the matrix. *)
Definition dot_mv_sized (L : Library) : Prop :=
  forall (M : matrix double) (v : list double), length (dot_mv L M v) = length M.

(** The joint system that the textbook library builds for the two responses
    in the solve without relaxation, with D = 1. *)
Definition fallback_system : matrix double * list double :=
  Eval vm_compute in
    match nonrelaxed_AA_bb Textbook.library f24 w24 2 4 1 0 constant_Dk 1%float with
    | Return st => st
    | Throw _ => ([], [])
    end.

(** A 2 x 2 system whose first column has the norm 5. *)
Definition columns_3_4 : matrix double := [[3; 1]; [4; 1]]%float.

(** Case analysis on the comparisons of indices in a goal. *)
Ltac eqb_cases :=
  repeat match goal with
         | |- context [?a =? ?b] =>
           let E := fresh "E" in
           destruct (a =? b) eqn:E;
           [apply Nat.eqb_eq in E | apply Nat.eqb_neq in E]
         | |- context [?a <? ?b] =>
           let E := fresh "E" in
           destruct (a <? b) eqn:E;
           [apply Nat.ltb_lt in E | apply Nat.ltb_ge in E]
         end.

(** * Properties *)

(** ** Lists, loops and results *)

Lemma shape_eqb_eq (a b : list nat) : shape_eqb a b = true <-> a = b.
Proof.
  revert b; induction a as [|x a IH]; intros [|y b]; simpl; split;
    try congruence; try reflexivity.
  - rewrite andb_true_iff, Nat.eqb_eq, IH. intros [-> ->]; reflexivity.
  - intros H; injection H as -> ->.
    rewrite Nat.eqb_refl; simpl. apply IH; reflexivity.
Qed.

Lemma size_t_of_int_negative (n : Z) :
  (INT_MIN <= n < 0)%Z -> (11 < size_t_of_int n)%Z.
Proof.
  unfold INT_MIN, size_t_of_int; intros H.
  assert (E : (n mod 2 ^ 64 = n + 2 ^ 64)%Z)
    by (symmetry; apply Z.mod_unique with (q := (-1)%Z); lia).
  rewrite E; lia.
Qed.

Lemma size_t_of_int_small (n : Z) :
  (0 <= n <= INT_MAX)%Z -> size_t_of_int n = n.
Proof.
  unfold INT_MAX, size_t_of_int; intros H. apply Z.mod_small; lia.
Qed.

Lemma check_arguments_valid (f s weight : pyarray) (n_polys : Z) :
  valid_arguments f s weight n_polys ->
  check_arguments f s weight n_polys =
  Return (nth 0 (shape f) 0, nth 1 (shape f) 0, Z.to_nat n_polys).
Proof.
  intros (Hf & Hs & Hlen & Hw & Hn). unfold check_arguments.
  rewrite Hf, Hs, <- Hlen, !Nat.eqb_refl, Hw; simpl.
  replace (shape_eqb (shape f) (shape f)) with true
    by (symmetry; apply shape_eqb_eq; reflexivity).
  simpl. rewrite size_t_of_int_small by (unfold INT_MAX; lia).
  destruct (n_polys <? 0)%Z eqn:E1; [apply Z.ltb_lt in E1; lia|].
  destruct (n_polys >? 11)%Z eqn:E2; [apply Z.gtb_lt in E2; lia|].
  reflexivity.
Qed.

Lemma check_arguments_bad (f s weight : pyarray) (n_polys : Z) :
  (INT_MIN <= n_polys <= INT_MAX)%Z ->
  bad_arguments f s weight n_polys ->
  exists what,
    In what [msg_f_rank; msg_s_rank; msg_s_length; msg_weight; msg_n_polys] /\
    check_arguments f s weight n_polys = Throw (invalid_argument what).
Proof.
  intros Hint Hbad. unfold check_arguments.
  destruct (dimension f =? 2) eqn:Ef; simpl;
    [apply Nat.eqb_eq in Ef | exists msg_f_rank; simpl; auto].
  destruct (dimension s =? 1) eqn:Es; simpl;
    [apply Nat.eqb_eq in Es | exists msg_s_rank; simpl; auto].
  destruct (nth 1 (shape f) 0 =? size s) eqn:El; simpl;
    [apply Nat.eqb_eq in El | exists msg_s_length; simpl; auto].
  destruct (shape_eqb (shape f) (shape weight)) eqn:Ew; simpl;
    [apply shape_eqb_eq in Ew | exists msg_weight; simpl; auto 6].
  destruct ((size_t_of_int n_polys <? 0)%Z || (size_t_of_int n_polys >? 11)%Z)
    eqn:En; [exists msg_n_polys; simpl; auto 7|].
  exfalso. apply orb_false_iff in En as [_ En].
  assert (Hle : (size_t_of_int n_polys <= 11)%Z)
    by (destruct (size_t_of_int n_polys >? 11)%Z eqn:E;
        [discriminate | rewrite Z.gtb_ltb in E; apply Z.ltb_ge in E; exact E]).
  destruct Hbad as [H|[H|[H|[H|[H|H]]]]]; try congruence.
  - pose proof (size_t_of_int_negative (n := n_polys)). lia.
  - rewrite size_t_of_int_small in Hle; lia.
Qed.

Lemma bind_Return_inv {A B} (c : outcome A) (k : A -> outcome B) (b : B) :
  bind c k = Return b -> exists a, c = Return a /\ k a = Return b.
Proof. destruct c; simpl; [eauto | discriminate]. Qed.

Lemma residue_identification_poles L f s weight Nv Ns N Nc poles R P F r :
  residue_identification L f s weight Nv Ns N Nc poles R P F = Return r ->
  poles_out r = poles.
Proof.
  unfold residue_identification. intros H.
  apply bind_Return_inv in H as (cindex & _ & H).
  apply bind_Return_inv in H as (Dk & _ & H).
  apply bind_Return_inv in H as ([Cr P'] & _ & H).
  injection H as <-. reflexivity.
Qed.

(** What a call does once its arguments are accepted and the model is not
    the empty one. *)
Lemma vectfit_stages L f s poles weight n_polys skip_pole skip_res :
  valid_arguments f s weight n_polys ->
  ~ (poles = [] /\ n_polys = 0%Z) ->
  let Nv := nth 0 (shape f) 0 in
  let Ns := nth 1 (shape f) 0 in
  let N := length poles in
  let Nc := Z.to_nat n_polys in
  vectfit L f s poles weight n_polys skip_pole skip_res =
  (poles' <- (if negb skip_pole && (0 <? N)
              then pole_identification L f s weight Nv Ns N Nc poles
              else Return poles) ;;
   if negb skip_res
   then residue_identification L f s weight Nv Ns N Nc poles'
          (full Nv N C_ZERO) (full Nv Nc 0%float) (full Nv Ns 0%float)
   else Return (initial_result Nv Ns N Nc poles')).
Proof.
  intros Hv Hnz. unfold vectfit.
  rewrite (check_arguments_valid Hv); simpl.
  destruct ((length poles =? 0) && (Z.to_nat n_polys =? 0)) eqn:E; [|reflexivity].
  exfalso; apply Hnz. apply andb_true_iff in E as [E1 E2].
  apply Nat.eqb_eq in E1, E2. destruct Hv as (_ & _ & _ & _ & Hn).
  split; [destruct poles; [reflexivity | discriminate] | lia].
Qed.

(** ** Argument checks *)

(** C8: a call whose [f] is not rank 2, whose [s] is not rank 1 or has a
    length other than the second extent of [f], whose [weight] has another
    shape than [f], or whose [n_polys] (any C [int], negative ones included)
    lies outside [0, 11], throws [std::invalid_argument] with one of the five
    messages of the checks; the error is decided by [check_arguments] alone,
    which reads neither the library nor the data, so nothing has been
    computed. *)
Theorem invalid_arguments_rejected (L : Library) (f s : pyarray)
  (poles : list complex) (weight : pyarray) (n_polys : Z)
  (skip_pole skip_res : bool) :
  (INT_MIN <= n_polys <= INT_MAX)%Z ->
  bad_arguments f s weight n_polys ->
  exists what,
    In what [msg_f_rank; msg_s_rank; msg_s_length; msg_weight; msg_n_polys] /\
    check_arguments f s weight n_polys = Throw (invalid_argument what) /\
    vectfit L f s poles weight n_polys skip_pole skip_res =
    Throw (invalid_argument what).
Proof.
  intros Hint Hbad.
  destruct (check_arguments_bad Hint Hbad) as (what & Hin & Hc).
  exists what. repeat split; trivial.
  unfold vectfit. rewrite Hc. reflexivity.
Qed.

Lemma invalid_arguments_rejected_witness :
  exists what,
    In what [msg_f_rank; msg_s_rank; msg_s_length; msg_weight; msg_n_polys] /\
    check_arguments f123 s123 w111 (-1) = Throw (invalid_argument what) /\
    vectfit Textbook.library f123 s123 [] w111 (-1) false false =
    Throw (invalid_argument what).
Proof.
  apply invalid_arguments_rejected.
  - unfold INT_MIN, INT_MAX; lia.
  - right; right; right; right; left; lia.
Defined.

(** ** The empty model and the skipped stages *)

(** C4: with no pole and [n_polys = 0], whatever the skip flags and
    whatever the library, the call returns empty residues and polynomial
    coefficients (Nv rows of no entry), the empty pole sequence, a fitted
    curve of Nv x Ns zeros and the RMS error
    [norm(f) / sqrt(Nv * Ns)]; no solve is attempted: the call returns the
    same with a library whose QR, least-squares and eigenvalue routines
    throw at every call. *)
Theorem zero_model (L : Library) (f s weight : pyarray) (skip_pole skip_res : bool) :
  valid_arguments f s weight 0 ->
  let Nv := nth 0 (shape f) 0 in
  let Ns := nth 1 (shape f) 0 in
  vectfit L f s [] weight 0 skip_pole skip_res =
  Return (FitResult (repeat [] Nv) (repeat [] Nv) []
            (norm_fro L (py_rows f) / PrimFloat.sqrt (double_of_size (Nv * Ns)))%float
            (full Nv Ns 0%float)) /\
  vectfit (without_solvers L) f s [] weight 0 skip_pole skip_res =
  vectfit L f s [] weight 0 skip_pole skip_res.
Proof.
  intros Hv Nv Ns. unfold vectfit.
  rewrite (check_arguments_valid Hv). split; reflexivity.
Qed.

Lemma valid_f123 (n_polys : Z) :
  (0 <= n_polys <= 11)%Z -> valid_arguments f123 s123 w111 n_polys.
Proof. intros H. repeat split; try reflexivity; apply H. Qed.

Lemma zero_model_witness :
  valid_arguments f123 s123 w111 0 /\
  forall skip_pole skip_res,
    vectfit Textbook.library f123 s123 [] w111 0 skip_pole skip_res =
    Return (FitResult [[]] [[]] []
              (PrimFloat.sqrt 14 / PrimFloat.sqrt 3)%float
              [[0; 0; 0]]%float) /\
    vectfit (without_solvers Textbook.library) f123 s123 [] w111 0
            skip_pole skip_res =
    vectfit Textbook.library f123 s123 [] w111 0 skip_pole skip_res.
Proof.
  split.
  - apply valid_f123; lia.
  - intros skip_pole skip_res.
    destruct (@zero_model Textbook.library f123 s123 w111 skip_pole skip_res)
      as [H1 H2]; [apply valid_f123; lia|].
    split; [|exact H2].
    rewrite H1. vm_compute. reflexivity.
Defined.

(** C10: with both stages skipped, accepted arguments and not the empty
    model, the call returns for every library: no pairing of the poles is
    looked at, the residues, polynomial coefficients and fitted curve are
    the zeros they were initialised with, the RMS error is 0 and the poles
    are the input poles. *)
Theorem skip_both_returns_input (L : Library) (f s : pyarray)
  (poles : list complex) (weight : pyarray) (n_polys : Z) :
  valid_arguments f s weight n_polys ->
  ~ (poles = [] /\ n_polys = 0%Z) ->
  vectfit L f s poles weight n_polys true true =
  Return (initial_result (nth 0 (shape f) 0) (nth 1 (shape f) 0)
            (length poles) (Z.to_nat n_polys) poles).
Proof.
  intros Hv Hnz. rewrite (vectfit_stages L true true Hv Hnz). reflexivity.
Qed.

Lemma skip_both_returns_input_witness :
  pairedb unpaired_poles = false /\
  vectfit Textbook.library f123 s123 unpaired_poles w111 0 true true =
  Return (FitResult [[C_ZERO; C_ZERO]] [[]] unpaired_poles 0%float
            [[0; 0; 0]]%float).
Proof.
  split; [reflexivity|].
  apply (@skip_both_returns_input Textbook.library f123 s123 unpaired_poles w111 0).
  - apply valid_f123; lia.
  - intros [H _]; discriminate H.
Defined.

(** C9 as stated fails on the empty model: with [skip_res = true], no pole
    and [n_polys = 0], the RMS error returned for f = [1, 2, 3] is
    sqrt(14)/sqrt(3), not 0. *)
Lemma skip_res_rms_not_zero :
  exists r,
    vectfit Textbook.library f123 s123 [] w111 0 false true = Return r /\
    (rmserr r =? 0)%float = false.
Proof. eexists; split; [vm_compute; reflexivity | reflexivity]. Qed.

(** C9, amended: for accepted arguments other than the empty model,
    (1) whenever the full call ([skip_res = false]) returns, the call with
    [skip_res = true] returns the initial zeros (residues, polynomial
    coefficients, fitted curve), RMS error 0, and the poles of the full
    call; (2) whatever a call with [skip_res = true] returns is made of
    these zeros; (3) with [skip_pole = true] the returned poles are the
    input poles, whether residues are identified or not. *)
Theorem skip_stage_consistency (L : Library) (f s : pyarray)
  (poles : list complex) (weight : pyarray) (n_polys : Z) (skip_pole : bool) :
  valid_arguments f s weight n_polys ->
  ~ (poles = [] /\ n_polys = 0%Z) ->
  let zeros := initial_result (nth 0 (shape f) 0) (nth 1 (shape f) 0)
                 (length poles) (Z.to_nat n_polys) in
  (forall r',
      vectfit L f s poles weight n_polys skip_pole false = Return r' ->
      vectfit L f s poles weight n_polys skip_pole true =
      Return (zeros (poles_out r'))) /\
  (forall r,
      vectfit L f s poles weight n_polys skip_pole true = Return r ->
      r = zeros (poles_out r)) /\
  vectfit L f s poles weight n_polys true true = Return (zeros poles) /\
  (forall r,
      vectfit L f s poles weight n_polys true false = Return r ->
      poles_out r = poles).
Proof.
  intros Hv Hnz zeros. repeat split.
  - intros r'. rewrite !(vectfit_stages L skip_pole _ Hv Hnz); simpl.
    intros H. apply bind_Return_inv in H as (poles' & -> & H); simpl.
    apply residue_identification_poles in H. rewrite H. reflexivity.
  - intros r. rewrite (vectfit_stages L skip_pole true Hv Hnz); simpl.
    intros H. apply bind_Return_inv in H as (poles' & _ & H).
    injection H as <-. reflexivity.
  - rewrite (vectfit_stages L true true Hv Hnz). reflexivity.
  - intros r. rewrite (vectfit_stages L true false Hv Hnz); simpl.
    apply residue_identification_poles.
Qed.

Lemma valid_f4 : valid_arguments f4 s4 w4 0.
Proof. repeat split; try reflexivity; lia. Qed.

Lemma skip_stage_consistency_witness :
  exists r',
    vectfit Textbook.library f4 s4 [Cplx (-2)%float 0%float] w4 0 false false
    = Return r' /\
    vectfit Textbook.library f4 s4 [Cplx (-2)%float 0%float] w4 0 false true
    = Return (initial_result 1 4 1 0 (poles_out r')).
Proof.
  eexists. split.
  - vm_compute. reflexivity.
  - refine (proj1 (@skip_stage_consistency Textbook.library f4 s4
                     [Cplx (-2)%float 0%float] w4 0 false valid_f4 _) _ _).
    + intros [H _]; discriminate H.
    + vm_compute. reflexivity.
Defined.

(** ** Updates and views of lists and matrices *)

Section Lists.

Context {T : Type}.

Lemma length_upd (l : list T) (i : nat) (v : T) : length (upd l i v) = length l.
Proof. revert i; induction l; intros [|i]; simpl; auto. Qed.

Lemma nth_upd_eq (l : list T) (i : nat) (v d : T) :
  i < length l -> nth i (upd l i v) d = v.
Proof.
  revert i; induction l; intros [|i]; simpl; intros H; try lia; auto.
  apply IHl; lia.
Qed.

Lemma nth_upd_neq (l : list T) (i j : nat) (v d : T) :
  i <> j -> nth j (upd l i v) d = nth j l d.
Proof.
  revert i j; induction l; intros [|i] [|j]; simpl; intros H;
    try reflexivity; try lia.
  apply IHl; lia.
Qed.

Lemma length_mapi_from {B} (g : nat -> T -> B) (l : list T) (k : nat) :
  length (mapi_from k g l) = length l.
Proof. revert k; induction l; simpl; auto. Qed.

Lemma nth_mapi_from {B} (g : nat -> T -> B) (l : list T) (k i : nat) (d : T) (e : B) :
  i < length l -> nth i (mapi_from k g l) e = g (k + i) (nth i l d).
Proof.
  revert k i; induction l; simpl; intros k [|i] H; try lia.
  - rewrite Nat.add_0_r; reflexivity.
  - rewrite IHl by lia. f_equal; lia.
Qed.

Lemma length_mapi {B} (g : nat -> T -> B) (l : list T) :
  length (mapi g l) = length l.
Proof. apply length_mapi_from. Qed.

Lemma nth_mapi {B} (g : nat -> T -> B) (l : list T) (i : nat) (d : T) (e : B) :
  i < length l -> nth i (mapi g l) e = g i (nth i l d).
Proof. intros H. unfold mapi. rewrite nth_mapi_from with (d := d); auto. Qed.

Lemma nth_map_seq {B} (g : nat -> B) (lo n i : nat) (d : B) :
  i < n -> nth i (map g (seq lo n)) d = g (lo + i).
Proof.
  revert lo i; induction n as [|n IH]; intros lo [|i] H; simpl; try lia.
  - f_equal; lia.
  - rewrite IH by lia. f_equal; lia.
Qed.

Lemma nth_map_lt {B} (g : T -> B) (l : list T) (i : nat) (d : T) (e : B) :
  i < length l -> nth i (map g l) e = g (nth i l d).
Proof.
  revert i; induction l as [|a l IH]; intros [|i] H; simpl in *; try lia; auto.
  apply IH; lia.
Qed.

Lemma length_tabulate (n : nat) (g : nat -> T) : length (tabulate n g) = n.
Proof. unfold tabulate. rewrite length_map, length_seq. reflexivity. Qed.

Lemma nth_tabulate (n i : nat) (g : nat -> T) (d : T) :
  i < n -> nth i (tabulate n g) d = g i.
Proof. intros H. unfold tabulate. rewrite nth_map_seq by lia. reflexivity. Qed.

Lemma length_slice (d : T) (v : list T) (lo hi : nat) :
  length (slice d v lo hi) = hi - lo.
Proof. unfold slice. rewrite length_map, length_seq. reflexivity. Qed.

Lemma nth_slice (d : T) (v : list T) (lo hi i : nat) :
  i < hi - lo -> nth i (slice d v lo hi) d = nth (lo + i) v d.
Proof. intros H. unfold slice. rewrite nth_map_seq by lia. reflexivity. Qed.

End Lists.

Section Matrices.

Context {T : Type}.

Lemma has_shape_full (r c : nat) (v : T) : has_shape r c (full r c v).
Proof.
  unfold full; split; [apply repeat_length|].
  intros i Hi.
  rewrite (nth_indep _ [] (repeat v c)) by (rewrite repeat_length; lia).
  rewrite nth_repeat. apply repeat_length.
Qed.

Lemma at2_full (r c i j : nat) (v : T) :
  i < r -> j < c -> at2 v (full r c v) i j = v.
Proof.
  intros Hi Hj. unfold at2, full.
  rewrite (nth_indep _ [] (repeat v c)) by (rewrite repeat_length; lia).
  rewrite nth_repeat. apply nth_repeat.
Qed.

Lemma has_shape_set2 (r c : nat) (M : matrix T) (i j : nat) (v : T) :
  has_shape r c M -> has_shape r c (set2 M i j v).
Proof.
  intros [Hr Hc]. unfold set2. split; [rewrite length_upd; exact Hr|].
  intros i' Hi'. destruct (Nat.eq_dec i i') as [<-|Hne].
  - rewrite nth_upd_eq by lia. rewrite length_upd. auto.
  - rewrite nth_upd_neq by exact Hne. auto.
Qed.

Lemma at2_set2_eq (r c : nat) (M : matrix T) (i j : nat) (v d : T) :
  has_shape r c M -> i < r -> j < c -> at2 d (set2 M i j v) i j = v.
Proof.
  intros [Hr Hc] Hi Hj. unfold at2, set2.
  rewrite nth_upd_eq by lia. apply nth_upd_eq. rewrite Hc; lia.
Qed.

Lemma at2_set2_neq (M : matrix T) (i j i' j' : nat) (v d : T) :
  i <> i' \/ j <> j' -> at2 d (set2 M i j v) i' j' = at2 d M i' j'.
Proof.
  intros H. unfold at2, set2.
  destruct (Nat.eq_dec i i') as [<-|Hne].
  - destruct (Nat.lt_ge_cases i (length M)) as [Hlt|Hge].
    + rewrite nth_upd_eq by exact Hlt. apply nth_upd_neq. destruct H; congruence.
    + rewrite !(nth_overflow _ []); try (rewrite ?length_upd; lia). reflexivity.
  - rewrite nth_upd_neq by exact Hne. reflexivity.
Qed.

Lemma has_shape_set_col (r c : nat) (M : matrix T) (j : nat) (g : nat -> T) :
  has_shape r c M -> has_shape r c (set_col M j g).
Proof.
  intros [Hr Hc]. unfold set_col. split; [rewrite length_mapi; exact Hr|].
  intros i Hi. rewrite nth_mapi with (d := []) by lia.
  rewrite length_upd. auto.
Qed.

Lemma at2_set_col_eq (r c : nat) (M : matrix T) (j i : nat) (g : nat -> T) (d : T) :
  has_shape r c M -> i < r -> j < c -> at2 d (set_col M j g) i j = g i.
Proof.
  intros [Hr Hc] Hi Hj. unfold at2, set_col.
  rewrite nth_mapi with (d := []) by lia.
  apply nth_upd_eq. rewrite Hc; lia.
Qed.

Lemma at2_set_col_neq (r c : nat) (M : matrix T) (j i j' : nat) (g : nat -> T) (d : T) :
  has_shape r c M -> i < r -> j <> j' ->
  at2 d (set_col M j g) i j' = at2 d M i j'.
Proof.
  intros [Hr Hc] Hi Hj. unfold at2, set_col.
  rewrite nth_mapi with (d := []) by lia.
  apply nth_upd_neq. exact Hj.
Qed.

End Matrices.

(** Invariants of the counted loops. *)
Lemma for_loop_invariant {St} (P : nat -> St -> Prop) (lo n : nat)
  (body : nat -> St -> St) (st : St) :
  P lo st ->
  (forall i st, lo <= i < lo + n -> P i st -> P (S i) (body i st)) ->
  P (lo + n) (for_loop lo n body st).
Proof.
  revert lo st; induction n as [|n IH]; intros lo st H0 Hstep; simpl.
  - rewrite Nat.add_0_r; exact H0.
  - replace (lo + S n) with (S lo + n) by lia.
    apply IH.
    + apply Hstep; [lia | exact H0].
    + intros i st' Hi. apply Hstep; lia.
Qed.

Lemma for_loop_exn_invariant {St} (P : nat -> St -> Prop) (lo n : nat)
  (body : nat -> St -> outcome St) (st st' : St) :
  P lo st ->
  (forall i st st', lo <= i < lo + n -> P i st -> body i st = Return st' ->
                    P (S i) st') ->
  for_loop_exn lo n body st = Return st' ->
  P (lo + n) st'.
Proof.
  revert lo st; induction n as [|n IH]; intros lo st H0 Hstep; simpl.
  - intros H; injection H as <-. rewrite Nat.add_0_r; exact H0.
  - intros H. apply bind_Return_inv in H as (st1 & Hb & H).
    replace (lo + S n) with (S lo + n) by lia.
    apply (IH (S lo) st1).
    + apply (Hstep lo st st1); [lia | exact H0 | exact Hb].
    + intros i s1 s2 Hi. apply Hstep; lia.
    + exact H.
Qed.

(** A loop whose body returns at every step returns. *)
Lemma for_loop_exn_total {St} (P : nat -> St -> Prop) (lo n : nat)
  (body : nat -> St -> outcome St) (st : St) :
  P lo st ->
  (forall i st, lo <= i < lo + n -> P i st ->
                exists st', body i st = Return st' /\ P (S i) st') ->
  exists st', for_loop_exn lo n body st = Return st' /\ P (lo + n) st'.
Proof.
  revert lo st; induction n as [|n IH]; intros lo st H0 Hstep; simpl.
  - exists st. rewrite Nat.add_0_r; auto.
  - destruct (Hstep lo st) as (st1 & Hb & H1); [lia | exact H0 |].
    rewrite Hb; simpl.
    replace (lo + S n) with (S lo + n) by lia.
    apply IH; [exact H1|]. intros i s1 Hi. apply Hstep; lia.
Qed.

(** ** Classification of the poles *)

Lemma pairedb_paired (ps : list complex) : pairedb ps = true <-> paired ps.
Proof.
  split.
  - remember (length ps) as n eqn:Hn.
    assert (Hle : length ps <= n) by lia. clear Hn.
    revert ps Hle; induction n as [|n IH]; intros ps Hle H.
    { destruct ps; [constructor | simpl in Hle; lia]. }
    destruct ps as [|p rest]; [constructor|]. simpl in *.
    destruct (dne (imag p) 0%float) eqn:E.
    + destruct rest as [|q rest']; [discriminate|].
      apply andb_true_iff in H as [Hq H]. apply negb_true_iff in Hq.
      apply paired_conj; trivial.
      destruct n; simpl in *; [lia|]. apply IH; [|exact H].
      destruct rest'; simpl in *; lia.
    + apply paired_real; trivial. apply IH; [lia | exact H].
  - induction 1 as [|p ps E _ IH|p q ps E Hq _ IH]; simpl; trivial.
    + rewrite E; exact IH.
    + rewrite E, Hq, IH; reflexivity.
Qed.

Lemma skipn_cons_nth {T} (l : list T) (m : nat) (d : T) :
  m < length l -> skipn m l = nth m l d :: skipn (m + 1) l.
Proof.
  revert m; induction l as [|a l IH]; intros [|m] H; simpl in *; try lia.
  - reflexivity.
  - apply IH; lia.
Qed.

Lemma scan_inv_end (N : nat) (cindex : list Z) : scan_inv N N cindex -> tagged N cindex.
Proof. intros (Hl & Hok & _); split; assumption. Qed.

Lemma scan_inv_previous (N m : nat) (cindex : list Z) :
  scan_inv N m cindex ->
  (m =? 0) ||
  ((0 <? m) && ((nth (m - 1) cindex 0 =? 0) || (nth (m - 1) cindex 0 =? 2))%Z)
  = true.
Proof.
  intros (Hl & Hok & Hz).
  destruct m as [|m]; [reflexivity|]. simpl.
  replace (m - 0) with m by lia.
  destruct (Hok m) as [H|[(H1 & _ & H2)|(H & _)]]; [lia | | |].
  - rewrite H; reflexivity.
  - replace (m + 1) with (S m) in H2 by lia. rewrite Hz in H2; [discriminate | lia].
  - rewrite H; reflexivity.
Qed.

Lemma scan_inv_real (N m : nat) (cindex : list Z) :
  m < N -> scan_inv N m cindex -> scan_inv N (m + 1) cindex.
Proof.
  intros Hm (Hl & Hok & Hz). repeat split; trivial.
  - intros i Hi. destruct (Nat.eq_dec i m) as [->|Hne].
    + left. apply Hz; lia.
    + apply Hok; lia.
  - intros i Hi. apply Hz; lia.
Qed.

Lemma scan_inv_pair (N m : nat) (cindex : list Z) :
  m + 1 < N -> scan_inv N m cindex ->
  scan_inv N (m + 2) (upd (upd cindex m 1%Z) (m + 1) 2%Z).
Proof.
  intros Hm (Hl & Hok & Hz).
  assert (Hm0 : nth m (upd (upd cindex m 1%Z) (m + 1) 2%Z) 0%Z = 1%Z).
  { rewrite nth_upd_neq by lia. apply nth_upd_eq; lia. }
  assert (Hm1 : nth (m + 1) (upd (upd cindex m 1%Z) (m + 1) 2%Z) 0%Z = 2%Z).
  { apply nth_upd_eq. rewrite length_upd; lia. }
  assert (Hother : forall i, i <> m -> i <> m + 1 ->
            nth i (upd (upd cindex m 1%Z) (m + 1) 2%Z) 0%Z = nth i cindex 0%Z).
  { intros i H1 H2. rewrite !nth_upd_neq by lia. reflexivity. }
  repeat split.
  - rewrite !length_upd; exact Hl.
  - intros i Hi. unfold tag_ok.
    destruct (Nat.eq_dec i m) as [->|Hne1];
      [right; left; repeat split; trivial|].
    destruct (Nat.eq_dec i (m + 1)) as [->|Hne2].
    { right; right. repeat split; trivial; [lia|].
      replace (m + 1 - 1) with m by lia. exact Hm0. }
    rewrite Hother by lia.
    destruct (Hok i) as [H|[(H1 & H2 & H3)|(H1 & H2 & H3)]]; [lia | | |].
    + left; exact H.
    + right; left. repeat split; trivial.
      assert (i + 1 <> m) by (intros E; rewrite E, Hz in H3; [discriminate | lia]).
      rewrite Hother by lia. exact H3.
    + right; right. repeat split; trivial.
      rewrite Hother by lia. exact H3.
  - intros i Hi. rewrite Hother by lia. apply Hz; lia.
Qed.

Lemma scan_inv_start (N : nat) : scan_inv N 0 (repeat 0%Z N).
Proof.
  repeat split.
  - apply repeat_length.
  - intros i Hi; lia.
  - intros i _. destruct (Nat.lt_ge_cases i N).
    + apply nth_repeat_lt; trivial.
    + apply nth_overflow. rewrite repeat_length; lia.
Qed.

Section Classification.

Variable N : nat.
Variable poles : list complex.
Hypothesis poles_length : length poles = N.

Lemma classify_loop_spec (fuel : nat) :
  forall (m : nat) (cindex : list Z),
    N - m <= fuel -> m <= N -> scan_inv N m cindex ->
    (pairedb (skipn m poles) = true ->
     exists c, classify_loop fuel N poles m cindex = Return c /\ tagged N c) /\
    (pairedb (skipn m poles) = false ->
     classify_loop fuel N poles m cindex = Throw (invalid_argument msg_conjugate)).
Proof.
  assert (Hend : forall m cindex, m <= N -> ~ m < N -> scan_inv N m cindex ->
            (pairedb (skipn m poles) = true ->
             exists c, Return cindex = Return c /\ tagged N c) /\
            (pairedb (skipn m poles) = false ->
             @Return (list Z) cindex = Throw (invalid_argument msg_conjugate))).
  { intros m cindex Hle Hnlt Hinv.
    assert (m = N) by lia; subst m.
    rewrite skipn_all2 by lia. simpl. split; [|discriminate].
    intros _. exists cindex. split; [reflexivity | apply scan_inv_end; exact Hinv]. }
  induction fuel as [|fuel IH]; intros m cindex Hfuel Hle Hinv.
  - simpl. apply Hend; trivial. lia.
  - simpl. destruct (m <? N) eqn:Hlt; simpl;
      [apply Nat.ltb_lt in Hlt | apply Nat.ltb_ge in Hlt; apply Hend; trivial; lia].
    rewrite (skipn_cons_nth poles C_ZERO) by lia. simpl.
    destruct (dne (imag (nth m poles C_ZERO)) 0%float) eqn:Ecomplex.
    + rewrite (scan_inv_previous Hinv).
      destruct (N - 1 <=? m) eqn:Elast; simpl.
      * apply Nat.leb_le in Elast.
        rewrite skipn_all2 by lia. split; [discriminate | reflexivity].
      * apply Nat.leb_gt in Elast.
        rewrite (skipn_cons_nth poles C_ZERO) by lia. simpl.
        destruct (cne (conj (nth m poles C_ZERO)) (nth (m + 1) poles C_ZERO))
          eqn:Econj; simpl; [split; [discriminate | reflexivity]|].
        replace (m + 1 + 1) with (m + 2) by lia.
        apply IH; [lia | lia | apply scan_inv_pair; [lia | exact Hinv]].
    + apply IH; [lia | lia | apply scan_inv_real; [lia | exact Hinv]].
Qed.

(** The scan accepts exactly the paired sequences, and its tags are well
    formed. *)
Lemma classify_paired :
  pairedb poles = true ->
  exists cindex, classify N poles = Return cindex /\ tagged N cindex.
Proof.
  intros H. unfold classify.
  destruct (@classify_loop_spec N 0 (repeat 0%Z N)) as [H1 _];
    [lia | lia | apply scan_inv_start |].
  apply H1. exact H.
Qed.

Lemma classify_unpaired :
  pairedb poles = false ->
  classify N poles = Throw (invalid_argument msg_conjugate).
Proof.
  intros H. unfold classify.
  destruct (@classify_loop_spec N 0 (repeat 0%Z N)) as [_ H2];
    [lia | lia | apply scan_inv_start |].
  apply H2. exact H.
Qed.

Lemma classify_tagged (cindex : list Z) :
  classify N poles = Return cindex -> tagged N cindex.
Proof.
  intros H. destruct (pairedb poles) eqn:E.
  - destruct (classify_paired E) as (c & Hc & Ht). congruence.
  - rewrite (classify_unpaired E) in H. discriminate.
Qed.

End Classification.

(** A sequence is refused by the pairing exactly when it has a broken
    pair. *)
Lemma broken_pair_unpaired (poles : list complex) :
  broken_pair poles -> ~ paired poles.
Proof.
  intros (ps & p & rest & -> & Hps & E & Hrest).
  induction Hps as [|p0 ps E0 _ IH|p0 q ps E0 Hq _ IH]; intros H; simpl in H.
  - inversion H; subst; [congruence|].
    match goal with Hc : cne (conj p) _ = false |- _ => rewrite Hc in Hrest end.
    discriminate.
  - inversion H; subst; [apply IH; assumption | congruence].
  - inversion H; subst; [congruence | apply IH; assumption].
Qed.

Lemma unpaired_broken_pair (poles : list complex) :
  pairedb poles = false -> broken_pair poles.
Proof.
  remember (length poles) as n eqn:Hn.
  assert (Hle : length poles <= n) by lia. clear Hn.
  revert poles Hle; induction n as [|n IH]; intros poles Hle H.
  { destruct poles; [discriminate | simpl in Hle; lia]. }
  destruct poles as [|p rest]; [discriminate|]. simpl in H, Hle.
  destruct (dne (imag p) 0%float) eqn:E.
  - destruct rest as [|q rest'].
    { exists [], p, []. repeat split; trivial. constructor. }
    destruct (cne (conj p) q) eqn:Eq.
    { exists [], p, (q :: rest'). repeat split; trivial. constructor. }
    simpl in H, Hle.
    destruct (IH rest') as (ps & p' & r' & -> & Hps & E' & Hr'); [lia | exact H |].
    exists (p :: q :: ps), p', r'. repeat split; trivial.
    apply paired_conj; trivial.
  - destruct (IH rest) as (ps & p' & r' & -> & Hps & E' & Hr'); [lia | exact H |].
    exists (p :: ps), p', r'. repeat split; trivial.
    apply paired_real; trivial.
Qed.

Lemma broken_pair_iff (poles : list complex) :
  broken_pair poles <-> ~ paired poles.
Proof.
  split; [apply broken_pair_unpaired|].
  intros H. apply unpaired_broken_pair.
  destruct (pairedb poles) eqn:E; trivial.
  exfalso; apply H, pairedb_paired, E.
Qed.

(** What the caller sees is the outcome of the call together with the
    state of its pole array. *)
Lemma vectfit_by_reference_outcome L f s poles weight n_polys skip_pole skip_res :
  fst (vectfit_by_reference L f s poles weight n_polys skip_pole skip_res) =
  vectfit L f s poles weight n_polys skip_pole skip_res.
Proof.
  unfold vectfit_by_reference, vectfit.
  destruct (check_arguments f s weight n_polys) as [[[Nv Ns] Nc]|e]; [|reflexivity].
  simpl. destruct ((length poles =? 0) && (Nc =? 0)); [reflexivity|].
  destruct (negb skip_pole && (0 <? length poles)); [|reflexivity].
  destruct (pole_identification L f s weight Nv Ns (length poles) Nc poles);
    reflexivity.
Qed.

Lemma vectfit_by_reference_stages L f s poles weight n_polys skip_pole skip_res :
  valid_arguments f s weight n_polys ->
  ~ (poles = [] /\ n_polys = 0%Z) ->
  let Nv := nth 0 (shape f) 0 in
  let Ns := nth 1 (shape f) 0 in
  let N := length poles in
  let Nc := Z.to_nat n_polys in
  vectfit_by_reference L f s poles weight n_polys skip_pole skip_res =
  match (if negb skip_pole && (0 <? N)
         then pole_identification L f s weight Nv Ns N Nc poles
         else Return poles) with
  | Throw e => (Throw e, poles)
  | Return poles' =>
    (if negb skip_res
     then residue_identification L f s weight Nv Ns N Nc poles'
            (full Nv N C_ZERO) (full Nv Nc 0%float) (full Nv Ns 0%float)
     else Return (initial_result Nv Ns N Nc poles'),
     poles')
  end.
Proof.
  intros Hv Hnz. unfold vectfit_by_reference.
  rewrite (check_arguments_valid Hv); simpl.
  destruct ((length poles =? 0) && (Z.to_nat n_polys =? 0)) eqn:E; [|reflexivity].
  exfalso; apply Hnz. apply andb_true_iff in E as [E1 E2].
  apply Nat.eqb_eq in E1, E2. destruct Hv as (_ & _ & _ & _ & Hn).
  split; [destruct poles; [reflexivity | discriminate] | lia].
Qed.



Lemma broken_unpaired_poles : broken_pair unpaired_poles.
Proof. apply unpaired_broken_pair. reflexivity. Qed.

Lemma broken_single_pole : broken_pair [Cplx 1%float 2%float].
Proof. apply unpaired_broken_pair. reflexivity. Qed.


(** ** The basis matrices *)

Section Basis.

Variable L : Library.
Variable s : pyarray.
Variables Ns N Nc : nat.
Variable poles : list complex.
Variable cindex : list Z.

(** The pole columns: shapes are kept, column [m < N] holds the basis
    entries of pole [m], the columns from [N] on are left alone. *)
Lemma pole_columns_spec (c : nat) (Dk0 Dk : matrix complex) :
  has_shape Ns c Dk0 -> N <= c ->
  pole_columns L s N poles cindex Dk0 = Return Dk ->
  has_shape Ns c Dk /\
  (forall m k, m < N -> k < Ns ->
               at2 C_ZERO Dk k m = basis_entry L s poles cindex m k) /\
  (forall j k, N <= j -> k < Ns -> at2 C_ZERO Dk k j = at2 C_ZERO Dk0 k j).
Proof.
  intros Hs0 Hc Hrun. unfold pole_columns in Hrun.
  pose (P := fun (i : nat) (D : matrix complex) =>
               has_shape Ns c D /\
               (forall m k, m < i -> k < Ns ->
                            at2 C_ZERO D k m = basis_entry L s poles cindex m k) /\
               (forall j k, i <= j -> k < Ns ->
                            at2 C_ZERO D k j = at2 C_ZERO Dk0 k j)).
  assert (HP : P (0 + N) Dk).
  { apply (for_loop_exn_invariant P) with (3 := Hrun).
    - split; [exact Hs0 | split; [intros; lia | auto]].
    - intros i D D' Hi (Hsh & Hlow & Hhigh) Hbody.
      assert (Hstep : D' = set_col D i (basis_entry L s poles cindex i)).
      { unfold basis_entry.
        destruct (nth i cindex 0 =? 0)%Z; [injection Hbody as <-; reflexivity|].
        destruct (nth i cindex 0 =? 1)%Z; [injection Hbody as <-; reflexivity|].
        destruct (nth i cindex 0 =? 2)%Z;
          [injection Hbody as <-; reflexivity | discriminate]. }
      subst D'. split; [apply has_shape_set_col, Hsh | split].
      + intros m k Hm Hk. destruct (Nat.eq_dec m i) as [->|Hne].
        * apply at2_set_col_eq with (r := Ns) (c := c); [exact Hsh | lia | lia].
        * rewrite at2_set_col_neq with (r := Ns) (c := c); [|exact Hsh|lia|lia].
          apply Hlow; lia.
      + intros j k Hj Hk.
        rewrite at2_set_col_neq with (r := Ns) (c := c); [|exact Hsh|lia|lia].
        apply Hhigh; lia. }
  exact HP.
Qed.

(** With well-formed tags the loop never meets an unknown tag. *)
Lemma pole_columns_total (Dk0 : matrix complex) :
  tagged N cindex ->
  exists Dk, pole_columns L s N poles cindex Dk0 = Return Dk.
Proof.
  intros [_ Htag]. unfold pole_columns.
  match goal with
  | |- exists Dk, for_loop_exn 0 N ?body Dk0 = Return Dk =>
    destruct (@for_loop_exn_total _ (fun _ _ => True) 0 N body Dk0 I)
      as (Dk & HDk & _)
  end.
  - intros i D Hi _. cbv zeta.
    destruct (Htag i) as [H|[(H & _)|(H & _)]]; [lia | | |];
      rewrite H; simpl; eauto.
  - exists Dk; exact HDk.
Qed.

Lemma has_shape_filter_inf (r c : nat) (Dk : matrix complex) :
  has_shape r c Dk -> has_shape r c (filter_inf Dk).
Proof.
  intros [Hr Hc]. unfold filter_inf. split; [rewrite length_map; exact Hr|].
  intros i Hi. rewrite nth_map_lt with (d := []) by lia.
  rewrite length_map. auto.
Qed.

Lemma at2_filter_inf (r c : nat) (Dk : matrix complex) (k m : nat) :
  has_shape r c Dk -> k < r -> m < c ->
  at2 C_ZERO (filter_inf Dk) k m =
  if cisinf (at2 C_ZERO Dk k m) then sentinel else at2 C_ZERO Dk k m.
Proof.
  intros [Hr Hc] Hk Hm. unfold at2, filter_inf.
  rewrite nth_map_lt with (d := []) by lia.
  rewrite nth_map_lt with (d := C_ZERO) by (rewrite Hc; lia).
  reflexivity.
Qed.

(** The polynomial columns [N + lo .. N + lo + n - 1] leave the other
    columns alone. *)
Lemma poly_columns_spec (c lo n : nat) (Dk : matrix complex) :
  has_shape Ns c Dk ->
  let Dk' := for_loop lo n (fun m D => set_col D (N + m) (s_pow L s m)) Dk in
  has_shape Ns c Dk' /\
  (forall j k, j < N + lo -> k < Ns -> at2 C_ZERO Dk' k j = at2 C_ZERO Dk k j).
Proof.
  intros Hsh Dk'. subst Dk'.
  pose (P := fun (i : nat) (D : matrix complex) =>
               has_shape Ns c D /\
               (forall j k, j < N + lo -> k < Ns ->
                            at2 C_ZERO D k j = at2 C_ZERO Dk k j)).
  apply (for_loop_invariant P).
  - split; auto.
  - intros i D Hi [HD Hcols]. split; [apply has_shape_set_col, HD|].
    intros j k Hj Hk.
    rewrite at2_set_col_neq with (r := Ns) (c := c); [|exact HD|lia|lia]. auto.
Qed.

End Basis.

(** The tags of a classification that returns are well formed, whatever
    the length of the pole sequence. *)
Lemma classify_loop_tagged (N : nat) (poles : list complex) (fuel : nat) :
  forall (m : nat) (cindex c : list Z),
    N - m <= fuel -> m <= N -> scan_inv N m cindex ->
    classify_loop fuel N poles m cindex = Return c -> tagged N c.
Proof.
  assert (Hend : forall m cindex c, m <= N -> ~ m < N -> scan_inv N m cindex ->
                                    Return cindex = Return c -> tagged N c).
  { intros m cindex c Hle Hn Hinv H. injection H as <-.
    assert (m = N) by lia; subst m. apply scan_inv_end; exact Hinv. }
  induction fuel as [|fuel IH]; intros m cindex c Hfuel Hle Hinv; simpl.
  - apply Hend with (m := m); trivial; lia.
  - destruct (m <? N) eqn:Hlt; simpl;
      [apply Nat.ltb_lt in Hlt
      | apply Nat.ltb_ge in Hlt; apply Hend with (m := m); trivial; lia].
    destruct (dne (imag (nth m poles C_ZERO)) 0%float).
    + rewrite (scan_inv_previous Hinv).
      destruct (N - 1 <=? m) eqn:Elast; simpl; [discriminate|].
      apply Nat.leb_gt in Elast.
      destruct (cne (conj (nth m poles C_ZERO)) (nth (m + 1) poles C_ZERO));
        [discriminate|].
      apply IH; [lia | lia | apply scan_inv_pair; [lia | exact Hinv]].
    + apply IH; [lia | lia | apply scan_inv_real; [lia | exact Hinv]].
Qed.

Lemma classify_returns_tagged (N : nat) (poles : list complex) (cindex : list Z) :
  classify N poles = Return cindex -> tagged N cindex.
Proof.
  unfold classify. apply classify_loop_tagged; try lia. apply scan_inv_start.
Qed.

Lemma tagged_first (N : nat) (cindex : list Z) (m : nat) :
  tagged N cindex -> nth m cindex 0%Z = 1%Z ->
  m + 1 < N /\ nth (m + 1) cindex 0%Z = 2%Z.
Proof.
  intros [Hl Hok] H.
  assert (Hm : m < N).
  { destruct (Nat.lt_ge_cases m N); trivial.
    rewrite nth_overflow in H by lia. discriminate. }
  destruct (Hok m Hm) as [H0|[(_ & H1 & H2)|(H2 & _)]]; [congruence | auto | congruence].
Qed.

(** For classified poles the two bases are built without error. *)
Lemma bases_return (L : Library) (s : pyarray) (Ns N Nc : nat)
  (poles : list complex) (cindex : list Z) :
  classify N poles = Return cindex ->
  (exists Dk, Dk_pole L s Ns N Nc poles cindex = Return Dk) /\
  (exists Dk, Dk_res L s Ns N Nc poles cindex = Return Dk).
Proof.
  intros Hc. pose proof (classify_returns_tagged _ _ Hc) as Htag. split.
  - destruct (pole_columns_total L s poles (full Ns (N + Nat.max Nc 1) C_ZERO) Htag)
      as (Dk1 & H1).
    unfold Dk_pole. rewrite H1. simpl. eauto.
  - destruct (pole_columns_total L s poles (full Ns (N + Nc) C_ZERO) Htag)
      as (Dk1 & H1).
    unfold Dk_res. rewrite H1. simpl. eauto.
Qed.

(** C7: for classified poles, the basis of pole identification is built
    without error, has Ns rows of [N + max(Nc, 1)] columns, and its column
    [N] is identically 1, also when [Nc = 0]; the basis of residue
    identification is built without error and has Ns rows of exactly
    [N + Nc] columns, so that with [Nc = 0] it holds the pole columns
    only. *)
Theorem basis_constant_column (L : Library) (s : pyarray) (Ns N Nc : nat)
  (poles : list complex) (cindex : list Z) :
  classify N poles = Return cindex ->
  (exists Dk,
      Dk_pole L s Ns N Nc poles cindex = Return Dk /\
      has_shape Ns (N + Nat.max Nc 1) Dk /\
      forall k, k < Ns -> at2 C_ZERO Dk k N = Cplx 1%float 0%float) /\
  (exists Dk,
      Dk_res L s Ns N Nc poles cindex = Return Dk /\
      has_shape Ns (N + Nc) Dk).
Proof.
  intros Hc. pose proof (classify_returns_tagged _ _ Hc) as Htag. split.
  - destruct (pole_columns_total L s poles (full Ns (N + Nat.max Nc 1) C_ZERO) Htag)
      as (Dk1 & H1).
    destruct (@pole_columns_spec L s Ns N poles cindex (N + Nat.max Nc 1) _ Dk1
                (has_shape_full Ns _ C_ZERO)) as (Hsh & _ & _); [lia | exact H1 |].
    unfold Dk_pole. rewrite H1. simpl.
    eexists; split; [reflexivity|].
    pose proof (has_shape_set_col N (fun _ => Cplx 1%float 0%float)
                  (has_shape_filter_inf Hsh)) as Hsh2.
    destruct (poly_columns_spec L s N 1 (Nc - 1) Hsh2) as [Hsh3 Hcols].
    split; [exact Hsh3|].
    intros k Hk. rewrite Hcols by lia.
    apply (@at2_set_col_eq _ Ns (N + Nat.max Nc 1) (filter_inf Dk1) N k
             (fun _ => Cplx 1%float 0%float) C_ZERO);
      [apply has_shape_filter_inf, Hsh | lia | lia].
  - destruct (pole_columns_total L s poles (full Ns (N + Nc) C_ZERO) Htag)
      as (Dk1 & H1).
    destruct (@pole_columns_spec L s Ns N poles cindex (N + Nc) _ Dk1
                (has_shape_full Ns _ C_ZERO)) as (Hsh & _ & _); [lia | exact H1 |].
    unfold Dk_res. rewrite H1. simpl.
    eexists; split; [reflexivity|].
    apply (poly_columns_spec L s N 0 Nc Hsh).
Qed.

Lemma basis_constant_column_witness :
  (exists Dk,
      Dk_pole Textbook.library s4 4 2 0 pair_poles [1; 2]%Z = Return Dk /\
      has_shape 4 3 Dk /\
      forall k, k < 4 -> at2 C_ZERO Dk k 2 = Cplx 1%float 0%float) /\
  (exists Dk,
      Dk_res Textbook.library s4 4 2 0 pair_poles [1; 2]%Z = Return Dk /\
      has_shape 4 2 Dk).
Proof.
  apply (@basis_constant_column Textbook.library s4 4 2 0 pair_poles [1; 2]%Z).
  reflexivity.
Defined.

(** C3 (what the code does): for classified poles, the basis built during
    pole identification holds, in the column of every pole, the basis entry
    with an infinite entry replaced by the sentinel 1e18 + 0i (an entry that
    is NaN without an infinite part stays); the basis rebuilt during
    residue identification holds the basis entries as they are, with no
    replacement at all. *)
Theorem sentinel_only_in_pole_identification (L : Library) (s : pyarray)
  (Ns N Nc : nat) (poles : list complex) (cindex : list Z) :
  classify N poles = Return cindex ->
  (exists Dk,
      Dk_pole L s Ns N Nc poles cindex = Return Dk /\
      forall m k, m < N -> k < Ns ->
        at2 C_ZERO Dk k m =
        (if cisinf (basis_entry L s poles cindex m k) then sentinel
         else basis_entry L s poles cindex m k) /\
        cisinf (at2 C_ZERO Dk k m) = false) /\
  (exists Dk,
      Dk_res L s Ns N Nc poles cindex = Return Dk /\
      forall m k, m < N -> k < Ns ->
        at2 C_ZERO Dk k m = basis_entry L s poles cindex m k).
Proof.
  intros Hc. pose proof (classify_returns_tagged _ _ Hc) as Htag. split.
  - destruct (pole_columns_total L s poles (full Ns (N + Nat.max Nc 1) C_ZERO) Htag)
      as (Dk1 & H1).
    destruct (@pole_columns_spec L s Ns N poles cindex (N + Nat.max Nc 1) _ Dk1
                (has_shape_full Ns _ C_ZERO)) as (Hsh & Hent & _);
      [lia | exact H1 |].
    unfold Dk_pole. rewrite H1. simpl.
    eexists; split; [reflexivity|].
    pose proof (has_shape_set_col N (fun _ => Cplx 1%float 0%float)
                  (has_shape_filter_inf Hsh)) as Hsh2.
    destruct (poly_columns_spec L s N 1 (Nc - 1) Hsh2) as [_ Hcols].
    intros m k Hm Hk. rewrite Hcols by lia.
    rewrite at2_set_col_neq with (r := Ns) (c := N + Nat.max Nc 1);
      [|apply has_shape_filter_inf, Hsh | lia | lia].
    rewrite (at2_filter_inf Hsh) by lia. rewrite Hent by lia.
    destruct (cisinf (basis_entry L s poles cindex m k)) eqn:E;
      split; trivial.
  - destruct (pole_columns_total L s poles (full Ns (N + Nc) C_ZERO) Htag)
      as (Dk1 & H1).
    destruct (@pole_columns_spec L s Ns N poles cindex (N + Nc) _ Dk1
                (has_shape_full Ns _ C_ZERO)) as (Hsh & Hent & _);
      [lia | exact H1 |].
    unfold Dk_res. rewrite H1. simpl.
    eexists; split; [reflexivity|].
    destruct (poly_columns_spec L s N 0 Nc Hsh) as [_ Hcols].
    intros m k Hm Hk. rewrite Hcols by lia. apply Hent; trivial.
Qed.

Lemma sentinel_only_in_pole_identification_witness :
  (exists Dk,
      Dk_pole Textbook.library s12 2 1 0 pole_on_sample [0%Z] = Return Dk /\
      at2 C_ZERO Dk 0 0 = Cplx 1e18%float 0%float) /\
  (exists Dk,
      Dk_res Textbook.library s12 2 1 0 pole_on_sample [0%Z] = Return Dk /\
      at2 C_ZERO Dk 0 0 = Cplx infinity nan /\
      cfinite (at2 C_ZERO Dk 0 0) = false).
Proof.
  destruct (@sentinel_only_in_pole_identification Textbook.library s12 2 1 0
              pole_on_sample [0%Z] eq_refl)
    as [(Dkp & Hp & Hpe) (Dkr & Hr & Hre)].
  split.
  - exists Dkp. split; [exact Hp|].
    rewrite (proj1 (Hpe 0 0 ltac:(lia) ltac:(lia))). reflexivity.
  - exists Dkr. split; [exact Hr|].
    rewrite (Hre 0 0 ltac:(lia) ltac:(lia)). split; reflexivity.
Defined.

(** With the pole on the first sample the unreplaced entry reaches the solve: the
    system handed to the least-squares routine is made of NaN, and so is
    the result of the call. *)
Example pole_on_sample_reaches_solve :
  (Dk <- Dk_res Textbook.library s12 2 1 0 pole_on_sample [0%Z] ;;
   Return (snd (column_scaling Textbook.library 1 (residue_A w12 2 1 0 Dk 0))))
  = Return [[nan]; [nan]; [nan]; [nan]] /\
  exists r,
    vectfit Textbook.library f12 s12 pole_on_sample w12 0 true false = Return r /\
    is_nan (rmserr r) = true.
Proof.
  split; [vm_compute; reflexivity|].
  eexists; split; [vm_compute; reflexivity | reflexivity].
Qed.

(** ** Doubles *)

Lemma cond_Zopp_negb (s : bool) (z : Z) :
  SpecFloat.cond_Zopp (negb s) z = (- SpecFloat.cond_Zopp s z)%Z.
Proof. destruct s; simpl; lia. Qed.

Lemma SFsub_as_add (prec emax : Z) (x y : spec_float) :
  SFsub prec emax x y = SFadd prec emax (SFopp y) x.
Proof.
  destruct x as [sx|sx| |sx mx ex], y as [sy|sy| |sy my ey]; simpl;
    try reflexivity;
    try (destruct sx, sy; reflexivity).
  rewrite Z.min_comm. f_equal.
  rewrite cond_Zopp_negb. lia.
Qed.

(** [x - a] and [- a + x] are the same double. *)
Lemma sub_as_add (x a : double) : (x - a = - a + x)%float.
Proof.
  apply Prim2SF_inj.
  rewrite sub_spec, add_spec, opp_spec. apply SFsub_as_add.
Qed.

(** ** Residues of a conjugate pair *)

Lemma SFeqb_finite_refl (s : bool) (m : positive) (e : Z) :
  SFeqb (S754_finite s m e) (S754_finite s m e) = true.
Proof.
  unfold SFeqb, SFcompare.
  rewrite Z.compare_refl, Pos.compare_cont_refl. destruct s; reflexivity.
Qed.

Lemma dsame_refl (a : double) : dsame a a = true.
Proof. unfold dsame, is_nan. destruct (a =? a)%float; reflexivity. Qed.

(** [r1 - 0 * r2] and [0 * r2 + r1] hold the same value for all doubles:
    the product is a zero, or NaN when [r2] is infinite or NaN. *)
Lemma recombined_real_parts (r1 r2 : double) :
  dsame (r1 - 0 * r2)%float (0 * r2 + r1)%float = true.
Proof.
  unfold dsame, is_nan.
  rewrite !FloatAxioms.eqb_spec, !sub_spec, !add_spec, !mul_spec.
  change (Prim2SF 0) with (S754_zero false).
  destruct (Prim2SF r2) as [s2|s2| |s2 m2 e2],
           (Prim2SF r1) as [s1|s1| |s1 m1 e1];
    simpl; try reflexivity;
    try (destruct s1, s2; reflexivity);
    try (destruct s1; reflexivity);
    try (destruct s2; reflexivity);
    try (rewrite !SFeqb_finite_refl; reflexivity).
Qed.

(** [r1 - 1i * r2] is the conjugate of [r1 + 1i * r2]. *)
Lemma recombined_conjugate (r1 r2 : double) :
  csame (dsub r1 (cmuld I1 r2)) (conj (dadd r1 (cmuld I1 r2))) = true.
Proof.
  unfold csame, dsub, dadd, cmuld, conj, I1; simpl.
  rewrite recombined_real_parts, dsame_refl. reflexivity.
Qed.

Section Recombination.

Variables Nv N : nat.
Variable cindex : list Z.
Variable Cr : matrix double.
Hypothesis tags : tagged N cindex.

(** The loop over the responses for a real pole writes column [m] only. *)
Lemma real_column_spec (m : nat) (R : matrix complex) :
  has_shape Nv N R ->
  let R' := for_loop 0 Nv
              (fun n R => set2 R n m (cplx_of (at2 0%float Cr n m))) R in
  has_shape Nv N R' /\
  (forall n j, j <> m -> at2 C_ZERO R' n j = at2 C_ZERO R n j).
Proof.
  intros Hsh R'. subst R'.
  apply (for_loop_invariant
           (fun (_ : nat) (X : matrix complex) =>
              has_shape Nv N X /\
              forall n j, j <> m -> at2 C_ZERO X n j = at2 C_ZERO R n j)).
  - split; auto.
  - intros i X _ [HX Hcols]. split; [apply has_shape_set2, HX|].
    intros n j Hj. rewrite at2_set2_neq by (right; lia). auto.
Qed.

(** The loop over the responses for the first pole of a pair writes the
    columns [m] and [m + 1]. *)
Lemma pair_columns_spec (m : nat) (R : matrix complex) :
  has_shape Nv N R -> m + 1 < N ->
  let R' := for_loop 0 Nv
              (fun n R =>
                 let r1 := at2 0%float Cr n m in
                 let r2 := at2 0%float Cr n (m + 1) in
                 let R := set2 R n m (dadd r1 (cmuld I1 r2)) in
                 set2 R n (m + 1) (dsub r1 (cmuld I1 r2))) R in
  has_shape Nv N R' /\
  (forall n, n < Nv ->
     at2 C_ZERO R' n m =
     dadd (at2 0%float Cr n m) (cmuld I1 (at2 0%float Cr n (m + 1))) /\
     at2 C_ZERO R' n (m + 1) =
     dsub (at2 0%float Cr n m) (cmuld I1 (at2 0%float Cr n (m + 1)))) /\
  (forall n j, j <> m -> j <> m + 1 -> at2 C_ZERO R' n j = at2 C_ZERO R n j).
Proof.
  intros Hsh Hm R'. subst R'.
  pose (P := fun (i : nat) (X : matrix complex) =>
               has_shape Nv N X /\
               (forall n, n < i ->
                  at2 C_ZERO X n m =
                  dadd (at2 0%float Cr n m) (cmuld I1 (at2 0%float Cr n (m + 1))) /\
                  at2 C_ZERO X n (m + 1) =
                  dsub (at2 0%float Cr n m) (cmuld I1 (at2 0%float Cr n (m + 1)))) /\
               (forall n j, j <> m -> j <> m + 1 ->
                            at2 C_ZERO X n j = at2 C_ZERO R n j)).
  apply (for_loop_invariant P).
  - split; [exact Hsh | split; [intros; lia | auto]].
  - intros i X Hi (HX & Hdone & Hcols). cbv zeta.
    pose proof (has_shape_set2 i m
                  (dadd (at2 0%float Cr i m) (cmuld I1 (at2 0%float Cr i (m + 1))))
                  HX) as HX1.
    split; [apply has_shape_set2, HX1 | split].
    + intros n Hn. destruct (Nat.eq_dec n i) as [->|Hne].
      * split.
        -- rewrite at2_set2_neq by (right; lia).
           apply at2_set2_eq with (r := Nv) (c := N); [exact HX | lia | lia].
        -- apply at2_set2_eq with (r := Nv) (c := N); [exact HX1 | lia | lia].
      * rewrite !at2_set2_neq by (left; lia). apply Hdone; lia.
    + intros n j Hj1 Hj2. rewrite !at2_set2_neq by (right; lia). auto.
Qed.

(** Get complex residues: at the first pole of every pair the two
    coefficients are combined into a conjugate pair. *)
Lemma complex_residues_pair (n m : nat) :
  n < Nv -> nth m cindex 0%Z = 1%Z ->
  let R := complex_residues Nv N cindex Cr (full Nv N C_ZERO) in
  at2 C_ZERO R n m =
  dadd (at2 0%float Cr n m) (cmuld I1 (at2 0%float Cr n (m + 1))) /\
  at2 C_ZERO R n (m + 1) =
  dsub (at2 0%float Cr n m) (cmuld I1 (at2 0%float Cr n (m + 1))).
Proof.
  intros Hn Htag R. subst R. unfold complex_residues.
  pose (P := fun (i : nat) (X : matrix complex) =>
               has_shape Nv N X /\
               forall m', m' < i -> nth m' cindex 0%Z = 1%Z ->
                 at2 C_ZERO X n m' =
                 dadd (at2 0%float Cr n m') (cmuld I1 (at2 0%float Cr n (m' + 1))) /\
                 at2 C_ZERO X n (m' + 1) =
                 dsub (at2 0%float Cr n m') (cmuld I1 (at2 0%float Cr n (m' + 1)))).
  destruct (tagged_first m tags Htag) as [Hm _].
  match goal with
  | |- context [for_loop 0 N ?body ?init] =>
    assert (HP : P (0 + N) (for_loop 0 N body init))
  end.
  { apply (for_loop_invariant P).
    - split; [apply has_shape_full | intros; lia].
    - intros i X Hi [HX Hdone].
      destruct (nth i cindex 0 =? 0)%Z eqn:E0; [apply Z.eqb_eq in E0|].
      { destruct (real_column_spec i HX) as [HX' Hcols]. split; [exact HX'|].
        intros m' Hm' Htag'. destruct (tagged_first m' tags Htag') as [_ H2].
        assert (m' <> i) by congruence.
        assert (m' + 1 <> i) by congruence.
        rewrite !Hcols by lia. apply Hdone; [lia | exact Htag']. }
      destruct (nth i cindex 0 =? 1)%Z eqn:E1; [apply Z.eqb_eq in E1|].
      { destruct (tagged_first i tags E1) as [Hi1 Hi2].
        destruct (pair_columns_spec i HX Hi1) as (HX' & Hnew & Hcols).
        split; [exact HX'|].
        intros m' Hm' Htag'. destruct (tagged_first m' tags Htag') as [_ H2].
        destruct (Nat.eq_dec m' i) as [->|Hne]; [apply Hnew; exact Hn|].
        assert (m' + 1 <> i) by congruence.
        rewrite !Hcols by lia. apply Hdone; [lia | exact Htag']. }
      split; [exact HX|].
      intros m' Hm' Htag'.
      assert (m' <> i) by (intros ->; apply Z.eqb_neq in E1; congruence).
      apply Hdone; [lia | exact Htag']. }
  destruct HP as [_ HP]. apply HP; [lia | exact Htag].
Qed.

End Recombination.

(** A double compares equal to itself unless it is NaN, nothing compares
    equal to a NaN, and a double and its opposite are NaN together. *)
Lemma eqb_self (x : double) : (x =? x)%float = negb (is_nan x).
Proof. unfold is_nan. rewrite negb_involutive. reflexivity. Qed.

Lemma eqb_nan_r (a b : double) : is_nan b = true -> (a =? b)%float = false.
Proof.
  unfold is_nan. rewrite !FloatAxioms.eqb_spec.
  destruct (Prim2SF b) as [sb|sb| |sb mb eb]; simpl.
  - discriminate.
  - destruct sb; discriminate.
  - intros _. destruct (Prim2SF a) as [sa|sa| |sa ma ea]; reflexivity.
  - rewrite SFeqb_finite_refl. discriminate.
Qed.

Lemma is_nan_opp (x : double) : is_nan (- x)%float = is_nan x.
Proof.
  unfold is_nan. rewrite !FloatAxioms.eqb_spec, opp_spec.
  destruct (Prim2SF x) as [s|s| |s m e]; simpl; try reflexivity;
    try (destruct s; reflexivity).
  rewrite !SFeqb_finite_refl. reflexivity.
Qed.

(** [r1 - 1i * r2] compares equal to the conjugate of [r1 + 1i * r2]
    exactly when the latter has no NaN part. *)
Lemma recombined_exact (r1 r2 : double) :
  ceq (dsub r1 (cmuld I1 r2)) (conj (dadd r1 (cmuld I1 r2))) =
  negb (is_nan (real (dadd r1 (cmuld I1 r2))) ||
        is_nan (imag (dadd r1 (cmuld I1 r2)))).
Proof.
  pose proof (recombined_real_parts r1 r2) as Hre.
  unfold ceq, dsub, dadd, cmuld, conj, I1; simpl.
  rewrite eqb_self, is_nan_opp, negb_orb. f_equal.
  unfold dsame in Hre.
  destruct (is_nan (0 * r2 + r1)%float) eqn:En.
  - apply eqb_nan_r. exact En.
  - rewrite andb_false_r, orb_false_r in Hre. exact Hre.
Qed.

(** The claim C6 as stated fails when the solve returns coefficients that
    are not finite: with weights that are all zero the two residues of the
    pair are made of NaN, and the second does not compare equal to the
    conjugate of the first. *)
Lemma residues_of_a_pair_not_equal_on_nan :
  exists r,
    vectfit Textbook.library f4 s4 pair_poles w0 0 true false = Return r /\
    ceq (at2 C_ZERO (residues r) 0 1) (conj (at2 C_ZERO (residues r) 0 0)) = false.
Proof. eexists; split; [vm_compute; reflexivity | reflexivity]. Qed.

(** C6, amended: in the tuple returned by a call that identifies residues,
    let [Cr] be the coefficients that the loop of lines 367-399 has solved
    on the basis of the returned poles.  For every response [n] and every
    pole index [m] that the classification of the returned poles tags as
    the first of a pair, the residue at [m] is [r1 + 1i * r2] and the
    residue at [m + 1] is [r1 - 1i * r2] with [r1 = Cr(n, m)] and
    [r2 = Cr(n, m + 1)].  The second holds the value of the conjugate of the
    first (the parts compare equal, or are both NaN), and it compares equal
    to that conjugate ([operator==]) exactly when the first has no NaN
    part. *)
Theorem residues_conjugate_symmetry (L : Library) (f s : pyarray)
  (poles : list complex) (weight : pyarray) (n_polys : Z) (skip_pole : bool)
  (r : fit_result) (cindex : list Z) (n m : nat) :
  valid_arguments f s weight n_polys ->
  vectfit L f s poles weight n_polys skip_pole false = Return r ->
  classify (length poles) (poles_out r) = Return cindex ->
  nth m cindex 0%Z = 1%Z ->
  n < nth 0 (shape f) 0 ->
  let Nv := nth 0 (shape f) 0 in
  let Ns := nth 1 (shape f) 0 in
  let N := length poles in
  let Nc := Z.to_nat n_polys in
  exists (Dk : matrix complex) (Cr : matrix double),
    Dk_res L s Ns N Nc (poles_out r) cindex = Return Dk /\
    residue_solve L f weight Nv Ns N Nc Dk (full Nv Nc 0%float)
    = Return (Cr, polys r) /\
    let r1 := at2 0%float Cr n m in
    let r2 := at2 0%float Cr n (m + 1) in
    let primary := at2 C_ZERO (residues r) n m in
    let conjugate := at2 C_ZERO (residues r) n (m + 1) in
    primary = dadd r1 (cmuld I1 r2) /\
    conjugate = dsub r1 (cmuld I1 r2) /\
    csame conjugate (conj primary) = true /\
    ceq conjugate (conj primary) =
    negb (is_nan (real primary) || is_nan (imag primary)).
Proof.
  intros Hv Hrun Hc Htag Hn Nv Ns N Nc.
  destruct poles as [|p ps].
  { simpl in Hc. injection Hc as <-. destruct m; discriminate. }
  rewrite (vectfit_stages L skip_pole false Hv) in Hrun
    by (intros [H _]; discriminate H).
  cbv zeta in Hrun. apply bind_Return_inv in Hrun as (poles' & _ & Hrun).
  simpl negb in Hrun. cbv iota in Hrun. unfold residue_identification in Hrun.
  apply bind_Return_inv in Hrun as (c0 & Hc0 & Hrun).
  apply bind_Return_inv in Hrun as (Dk & HDk & Hrun).
  apply bind_Return_inv in Hrun as ([Cr P] & Hsolve & Hrun).
  injection Hrun as <-. cbn [poles_out residues polys] in Hc |- *.
  assert (c0 = cindex) by congruence; subst c0.
  pose proof (classify_returns_tagged _ _ Hc) as Htags.
  destruct (complex_residues_pair Cr Htags m Hn Htag) as [H1 H2].
  exists Dk, Cr. split; [exact HDk | split; [exact Hsolve|]].
  cbv zeta. split; [exact H1 | split; [exact H2|]].
  pose proof (recombined_conjugate (at2 0%float Cr n m) (at2 0%float Cr n (m + 1)))
    as H3.
  pose proof (recombined_exact (at2 0%float Cr n m) (at2 0%float Cr n (m + 1)))
    as H4.
  rewrite <- H1, <- H2 in H3, H4. split; [exact H3 | exact H4].
Qed.

Lemma residues_conjugate_symmetry_witness :
  exists Cr : matrix double,
    vectfit Textbook.library f4 s4 pair_poles w4 0 true false
    = Return pair_fit /\
    at2 C_ZERO (residues pair_fit) 0 0 =
    dadd (at2 0%float Cr 0 0) (cmuld I1 (at2 0%float Cr 0 1)) /\
    at2 C_ZERO (residues pair_fit) 0 1 =
    dsub (at2 0%float Cr 0 0) (cmuld I1 (at2 0%float Cr 0 1)) /\
    ceq (at2 C_ZERO (residues pair_fit) 0 1)
        (conj (at2 C_ZERO (residues pair_fit) 0 0)) = true.
Proof.
  assert (Hrun : vectfit Textbook.library f4 s4 pair_poles w4 0 true false
                 = Return pair_fit) by (vm_compute; reflexivity).
  destruct (@residues_conjugate_symmetry Textbook.library f4 s4 pair_poles w4 0
              true pair_fit [1; 2]%Z 0 0 valid_f4 Hrun)
    as (Dk & Cr & _ & _ & H1 & H2 & _ & H4);
    [reflexivity | reflexivity | simpl; lia |].
  exists Cr. split; [exact Hrun|]. split; [exact H1|]. split; [exact H2|].
  exact (eq_trans H4 eq_refl).
Defined.

(** ** The selector column of the pole update *)

(** The element write [SERB(i, 1) = v] on the N x 1 selector: the column
    index 1 is not below the extent 1, so the store is the unchecked one. *)
Lemma selector_store_unchecked (L : Library) (N : nat) (SERB : matrix double)
  (i : nat) (v : double) :
  xt_store L N 1 SERB i 1 v = unchecked_store L SERB i 1 v.
Proof. unfold xt_store. rewrite andb_false_r. reflexivity. Qed.

Lemma SERB_loop (L : Library) (N : nat) (poles : list complex) (cindex : list Z)
  (n : nat) :
  forall (lo : nat) (LAMBD SERB : matrix double),
    snd (for_loop lo n (LAMBD_SERB_body L N poles cindex) (LAMBD, SERB)) =
    fold_left
      (fun S w => unchecked_store L S (fst (fst w)) (snd (fst w)) (snd w))
      (flat_map
         (fun m => if (nth m cindex 0 =? 1)%Z
                   then [(m, 1, 2%float); (m + 1, 1, 0%float)]
                   else [])
         (seq lo n))
      SERB.
Proof.
  induction n as [|n IH]; intros lo LAMBD SERB; [reflexivity|].
  cbn [for_loop seq flat_map]. rewrite fold_left_app.
  destruct (LAMBD_SERB_body L N poles cindex lo (LAMBD, SERB)) as [LA' SE'] eqn:Hb.
  rewrite IH. f_equal.
  unfold LAMBD_SERB_body in Hb.
  destruct (nth lo cindex 0 =? 0)%Z eqn:E0.
  - apply Z.eqb_eq in E0. rewrite E0. injection Hb as _ <-. reflexivity.
  - destruct (nth lo cindex 0 =? 1)%Z; injection Hb as _ <-;
      cbn [fold_left fst snd]; rewrite ?selector_store_unchecked; reflexivity.
Qed.

(** C2 (what the code does): the selector is the initial column of ones on
    which the writes [SERB(m, 1) = 2.0] and [SERB(m + 1, 1) = 0.0] of every
    first pole [m] of a pair have gone through the unchecked store; each of
    these writes has the column index 1, which is not below the single
    column that [SERB] is declared with, and every pair contributes its two
    writes. *)
Theorem selector_written_outside_extents (L : Library) (N : nat)
  (poles : list complex) (cindex : list Z) :
  snd (LAMBD_SERB L N poles cindex) =
  fold_left
    (fun S w => unchecked_store L S (fst (fst w)) (snd (fst w)) (snd w))
    (SERB_writes N cindex) (full N 1 1%float) /\
  Forall (fun w => ~ snd (fst w) < 1) (SERB_writes N cindex) /\
  forall m, m < N -> nth m cindex 0%Z = 1%Z ->
            In (m, 1, 2%float) (SERB_writes N cindex) /\
            In (m + 1, 1, 0%float) (SERB_writes N cindex).
Proof.
  split; [apply SERB_loop | split].
  - apply Forall_forall. intros w Hw. unfold SERB_writes in Hw.
    apply in_flat_map in Hw as (m & _ & Hw).
    destruct (nth m cindex 0 =? 1)%Z; [|destruct Hw].
    destruct Hw as [<-|[<-|[]]]; simpl; lia.
  - intros m Hm Htag. unfold SERB_writes.
    split; apply in_flat_map; exists m;
      (split; [apply in_seq; lia | rewrite Htag; simpl; auto]).
Qed.

(** At a conjugate pair both writes are outside the extents, whatever the
    library; with the stride rule of xtensor (stride 0 on the extent of
    one) they land in column 0 and give the selector (2, 0). *)
Example selector_of_a_pair :
  SERB_writes 2 [1; 2]%Z = [(0, 1, 2%float); (1, 1, 0%float)] /\
  (forall L : Library,
      snd (LAMBD_SERB L 2 pair_poles [1; 2]%Z) =
      unchecked_store L (unchecked_store L [[1]; [1]]%float 0 1 2%float)
                      1 1 0%float) /\
  snd (LAMBD_SERB Textbook.library 2 pair_poles [1; 2]%Z) = [[2]; [0]]%float.
Proof. repeat split. Qed.

(** ** The fallback without relaxation *)

(** The value that the fallback gives to [D]: 1 for a zero, otherwise a
    tolerance bound with the sign of [D]. *)
Lemma clamp_D_values (D : double) :
  degenerate D = true ->
  ((D =? 0)%float = true /\ clamp_D D D = 1%float) \/
  ((D =? 0)%float = false /\ (abs D <? TOLlow)%float = true /\
   clamp_D D D = (if (0 <? D)%float then TOLlow else - TOLlow)%float) \/
  ((D =? 0)%float = false /\ (abs D <? TOLlow)%float = false /\
   (TOLhigh <? abs D)%float = true /\
   clamp_D D D = (if (0 <? D)%float then TOLhigh else - TOLhigh)%float).
Proof.
  unfold degenerate, clamp_D. intros H.
  destruct (D =? 0)%float; [left; auto|].
  destruct (abs D <? TOLlow)%float; [right; left; auto|].
  simpl in H. rewrite H. right; right; auto.
Qed.

(** C1 (what the code does): when the relaxed solve gives a scaled solution
    [x] whose last entry [D] is degenerate, the call clamps [D] and solves
    the problem without relaxation, but the coefficients [C'] of that second
    solve are dropped with the block that declares them: the relocated poles
    are the eigenvalues of [LAMBD - SERB * C / clamp(D)] where [C] still
    holds the coefficients of the relaxed solve. *)
Theorem fallback_keeps_relaxed_C (L : Library) (f s weight : pyarray)
  (Nv Ns N Nc : nat) (poles : list complex) (cindex : list Z)
  (Dk : matrix complex) (x C' : list double) :
  classify N poles = Return cindex ->
  Dk_pole L s Ns N Nc poles cindex = Return Dk ->
  relaxed_solve L f weight Nv Ns N Nc Dk (scale_value L f weight Nv Ns)
  = Return x ->
  let C := slice 0%float x 0 (length x - 1) in
  let D := nth (length x - 1) x 0%float in
  degenerate D = true ->
  nonrelaxed_solve L f weight Nv Ns N Nc Dk (clamp_D D D) = Return C' ->
  pole_identification L f s weight Nv Ns N Nc poles =
  eigvals L (ZER L (fst (LAMBD_SERB L N poles cindex))
                 (snd (LAMBD_SERB L N poles cindex)) C (clamp_D D D)).
Proof.
  intros Hc HDk Hx C D Hdeg HC'. unfold pole_identification.
  rewrite Hc; simpl. rewrite HDk; simpl. rewrite Hx; simpl.
  fold D. rewrite Hdeg. fold C. rewrite HC'; simpl.
  destruct (LAMBD_SERB L N poles cindex); reflexivity.
Qed.

Lemma fallback_keeps_relaxed_C_witness :
  Dk_pole Textbook.library s4 4 1 0 start_pole [0%Z] = Return constant_Dk /\
  relaxed_solve Textbook.library f1111 w4 1 4 1 0 constant_Dk
    (scale_value Textbook.library f1111 w4 1 4) = Return constant_x /\
  length constant_x = 2 /\
  nth 1 constant_x 0%float = 0%float /\
  nonrelaxed_solve Textbook.library f1111 w4 1 4 1 0 constant_Dk 1%float
  = Return constant_C' /\
  (nth 0 constant_C' 0 =? nth 0 constant_x 0)%float = false /\
  pole_identification Textbook.library f1111 s4 w4 1 4 1 0 start_pole =
  Return [Cplx (-2 - nth 0 constant_x 0 / 1)%float 0%float].
Proof.
  assert (H1 : Dk_pole Textbook.library s4 4 1 0 start_pole [0%Z]
               = Return constant_Dk) by (vm_compute; reflexivity).
  assert (H2 : relaxed_solve Textbook.library f1111 w4 1 4 1 0 constant_Dk
                 (scale_value Textbook.library f1111 w4 1 4) = Return constant_x)
    by (vm_compute; reflexivity).
  assert (H3 : nonrelaxed_solve Textbook.library f1111 w4 1 4 1 0 constant_Dk
                 (clamp_D (nth (length constant_x - 1) constant_x 0%float)
                          (nth (length constant_x - 1) constant_x 0%float))
               = Return constant_C') by (vm_compute; reflexivity).
  split; [exact H1|]. split; [exact H2|]. split; [reflexivity|].
  split; [reflexivity|]. split; [exact H3|]. split; [reflexivity|].
  rewrite (@fallback_keeps_relaxed_C Textbook.library f1111 s4 w4 1 4 1 0
             start_pole [0%Z] constant_Dk constant_x constant_C'
             eq_refl H1 H2 eq_refl H3).
  vm_compute. reflexivity.
Defined.

(** ** The selector under the stride rule of xtensor *)

Lemma concat_column (l : list double) : concat (column l) = l.
Proof. induction l as [|a l IH]; simpl; [reflexivity | rewrite IH; reflexivity]. Qed.

Lemma length_column (l : list double) : length (column l) = length l.
Proof. apply length_map. Qed.

Lemma column_ext (l l' : list double) :
  length l = length l' ->
  (forall j, j < length l -> nth j l 0%float = nth j l' 0%float) ->
  l = l'.
Proof.
  intros Hl H. apply nth_ext with (d := 0%float) (d' := 0%float); assumption.
Qed.

Lemma tabulate_column (flat : list double) :
  tabulate (length flat)
           (fun i => tabulate 1 (fun j => nth (i * 1 + j) flat 0%float))
  = column flat.
Proof.
  apply nth_ext with (d := []) (d' := []).
  - rewrite length_tabulate, length_column. reflexivity.
  - intros n Hn. rewrite length_tabulate in Hn.
    rewrite nth_tabulate by exact Hn. unfold column.
    rewrite nth_map_lt with (d := 0%float) by exact Hn.
    unfold tabulate. cbn [seq map]. rewrite Nat.mul_1_r, Nat.add_0_r.
    reflexivity.
Qed.

(** With stride 0 on the extent of one, a write at column 1 of an N x 1
    container of two rows or more lands in column 0 of the same row. *)
Lemma stride_rule_store (l : list double) (i : nat) (v : double) :
  2 <= length l -> i < length l ->
  Textbook.unchecked_store (column l) i 1 v = column (upd l i v).
Proof.
  intros Hl Hi. unfold Textbook.unchecked_store.
  rewrite length_column, concat_column.
  assert (Hc : length (hd [] (column l)) = 1)
    by (destruct l; [simpl in Hl; lia | reflexivity]).
  rewrite Hc. unfold Textbook.offset.
  replace (length l =? 1) with false by (symmetry; apply Nat.eqb_neq; lia).
  simpl (1 =? 1). cbv iota.
  replace (i * 1 + 1 * 0) with i by lia.
  rewrite <- (length_upd l i v). apply tabulate_column.
Qed.

Lemma selector_progress_start (cindex : list Z) (j : nat) :
  selector_progress cindex 0 j = 1%float.
Proof.
  unfold selector_progress. rewrite andb_false_r.
  replace (j - 1 <? 0) with false by (symmetry; apply Nat.ltb_ge; lia).
  rewrite andb_false_r. reflexivity.
Qed.

Lemma selector_progress_end (N : nat) (cindex : list Z) (j : nat) :
  tagged N cindex -> j < N ->
  selector_progress cindex N j = selector_value cindex j.
Proof.
  intros [Hl Hok] Hj. unfold selector_progress, selector_value.
  replace (j <? N) with true by (symmetry; apply Nat.ltb_lt; lia).
  rewrite andb_true_r.
  destruct (nth j cindex 0 =? 1)%Z; [reflexivity|].
  destruct (nth j cindex 0 =? 2)%Z eqn:E2; [|reflexivity].
  apply Z.eqb_eq in E2.
  destruct (Hok j Hj) as [H|[(H & _)|(_ & H1 & _)]]; try congruence.
  replace (1 <=? j) with true by (symmetry; apply Nat.leb_le; lia).
  replace (j - 1 <? N) with true by (symmetry; apply Nat.ltb_lt; lia).
  reflexivity.
Qed.

Lemma ltb_succ_neq (j i : nat) : j <> i -> (j <? i + 1) = (j <? i).
Proof.
  intros H. destruct (j <? i) eqn:E.
  - apply Nat.ltb_lt in E. apply Nat.ltb_lt. lia.
  - apply Nat.ltb_ge in E. apply Nat.ltb_ge. lia.
Qed.

(** A step of the loop at a pole that is not the first of a pair changes
    nothing; at the first of a pair it changes the rows [i] and [i + 1]. *)
Lemma selector_progress_skip (N : nat) (cindex : list Z) (i j : nat) :
  tagged N cindex -> i < N -> j < N -> nth i cindex 0%Z <> 1%Z ->
  selector_progress cindex (i + 1) j = selector_progress cindex i j.
Proof.
  intros [Hl Hok] Hi Hj Hne. unfold selector_progress.
  assert (H1 : (nth j cindex 0 =? 1)%Z && (j <? i + 1) =
               (nth j cindex 0 =? 1)%Z && (j <? i)).
  { destruct (nth j cindex 0 =? 1)%Z eqn:E; [|reflexivity]. simpl.
    apply ltb_succ_neq. apply Z.eqb_eq in E. congruence. }
  assert (H2 : (nth j cindex 0 =? 2)%Z && (1 <=? j) && (j - 1 <? i + 1) =
               (nth j cindex 0 =? 2)%Z && (1 <=? j) && (j - 1 <? i)).
  { destruct (nth j cindex 0 =? 2)%Z eqn:E; [|reflexivity].
    destruct (1 <=? j); [|reflexivity]. simpl.
    apply ltb_succ_neq. apply Z.eqb_eq in E.
    destruct (Hok j Hj) as [H|[(H & _)|(_ & _ & H)]]; congruence. }
  rewrite H1, H2. reflexivity.
Qed.

Lemma selector_progress_pair (N : nat) (cindex : list Z) (i j : nat) :
  tagged N cindex -> nth i cindex 0%Z = 1%Z -> j < N ->
  selector_progress cindex (i + 1) j =
  if j =? i then 2%float
  else if j =? i + 1 then 0%float
  else selector_progress cindex i j.
Proof.
  intros Htags Hi Hj. destruct (tagged_first i Htags Hi) as [Hi1 Hi2].
  unfold selector_progress.
  destruct (j =? i) eqn:Eji;
    [apply Nat.eqb_eq in Eji; subst j | apply Nat.eqb_neq in Eji].
  { rewrite Hi. replace (i <? i + 1) with true by (symmetry; apply Nat.ltb_lt; lia).
    reflexivity. }
  destruct (j =? i + 1) eqn:Eji1;
    [apply Nat.eqb_eq in Eji1; subst j | apply Nat.eqb_neq in Eji1].
  { replace (1 <=? i + 1) with true by (symmetry; apply Nat.leb_le; lia).
    replace (i + 1 - 1 <? i + 1) with true by (symmetry; apply Nat.ltb_lt; lia).
    rewrite Hi2. reflexivity. }
  rewrite (ltb_succ_neq Eji).
  assert (H2 : (nth j cindex 0 =? 2)%Z && (1 <=? j) && (j - 1 <? i + 1) =
               (nth j cindex 0 =? 2)%Z && (1 <=? j) && (j - 1 <? i)).
  { destruct (nth j cindex 0 =? 2)%Z; [|reflexivity].
    destruct (1 <=? j) eqn:E; [|reflexivity]. simpl.
    apply Nat.leb_le in E. apply ltb_succ_neq. lia. }
  rewrite H2. reflexivity.
Qed.

(** X2: under the stride rule the loop builds the selector of the
    convention: 2 on the first row of every pair, 0 on the second, 1 on the
    rows of the real poles. *)
Lemma selector_under_stride_rule (N : nat) (poles : list complex)
  (cindex : list Z) :
  tagged N cindex ->
  snd (LAMBD_SERB Textbook.library N poles cindex) =
  column (tabulate N (selector_value cindex)).
Proof.
  intros Htags. unfold LAMBD_SERB.
  pose (P := fun (i : nat) (st : matrix double * matrix double) =>
               exists l, snd st = column l /\ length l = N /\
                         forall j, j < N ->
                                   nth j l 0%float = selector_progress cindex i j).
  assert (HP : P (0 + N)
                 (for_loop 0 N (LAMBD_SERB_body Textbook.library N poles cindex)
                           (full N N 0%float, full N 1 1%float))).
  { apply (for_loop_invariant P).
    - exists (repeat 1%float N). split; [|split].
      + unfold full, column. simpl. rewrite map_repeat. reflexivity.
      + apply repeat_length.
      + intros j Hj. rewrite selector_progress_start. apply nth_repeat_lt. exact Hj.
    - intros i [LA SE] Hi (l & HSE & Hl & Hval). simpl in HSE. subst SE.
      replace (S i) with (i + 1) by lia.
      unfold LAMBD_SERB_body.
      destruct (nth i cindex 0 =? 0)%Z eqn:E0.
      { exists l. split; [reflexivity | split; [exact Hl|]].
        intros j Hj. rewrite (@selector_progress_skip N cindex i j Htags) by
            (try lia; apply Z.eqb_eq in E0; congruence).
        apply Hval, Hj. }
      destruct (nth i cindex 0 =? 1)%Z eqn:E1.
      { apply Z.eqb_eq in E1. destruct (tagged_first i Htags E1) as [Hi1 _].
        exists (upd (upd l i 2%float) (i + 1) 0%float).
        split; [|split].
        - cbn [snd]. rewrite !selector_store_unchecked.
          change (unchecked_store Textbook.library) with Textbook.unchecked_store.
          rewrite stride_rule_store by lia.
          rewrite stride_rule_store by (rewrite length_upd; lia).
          reflexivity.
        - rewrite !length_upd. exact Hl.
        - intros j Hj. rewrite (@selector_progress_pair N cindex i j Htags E1 Hj).
          destruct (j =? i) eqn:Eji.
          + apply Nat.eqb_eq in Eji; subst j.
            rewrite nth_upd_neq by lia. apply nth_upd_eq. lia.
          + apply Nat.eqb_neq in Eji.
            destruct (j =? i + 1) eqn:Eji1.
            * apply Nat.eqb_eq in Eji1; subst j.
              apply nth_upd_eq. rewrite length_upd. lia.
            * apply Nat.eqb_neq in Eji1.
              rewrite !nth_upd_neq by lia. apply Hval, Hj. }
      exists l. split; [reflexivity | split; [exact Hl|]].
      intros j Hj. rewrite (@selector_progress_skip N cindex i j Htags) by
          (try lia; apply Z.eqb_neq in E1; exact E1).
      apply Hval, Hj. }
  destruct HP as (l & HSE & Hl & Hval). rewrite HSE. f_equal.
  apply column_ext.
  - rewrite length_tabulate. exact Hl.
  - intros j Hj. rewrite Hl in Hj. rewrite Hval by exact Hj.
    rewrite nth_tabulate by exact Hj.
    apply (@selector_progress_end N cindex j Htags Hj).
Qed.

(** ** The joint systems of pole identification *)

Lemma has_shape_submatrix {T} (d : T) (M : matrix T) (r0 r1 c0 c1 : nat) :
  has_shape (r1 - r0) (c1 - c0) (submatrix d M r0 r1 c0 c1).
Proof.
  unfold submatrix. split; [rewrite length_map, length_seq; reflexivity|].
  intros i Hi. rewrite nth_map_seq by exact Hi. apply length_slice.
Qed.

Lemma has_shape_set_rows {T} (r c rb : nat) (M B : matrix T) (r0 : nat) :
  has_shape r c M -> has_shape rb c B ->
  has_shape r c (set_rows M r0 B).
Proof.
  intros [Hr Hc] [HBl HB]. unfold set_rows.
  split; [rewrite length_mapi; exact Hr|].
  intros i Hi. rewrite nth_mapi with (d := []) by lia.
  destruct ((r0 <=? i) && (i <? r0 + length B)) eqn:E; [|auto].
  apply andb_true_iff in E as [E1 E2].
  apply Nat.leb_le in E1. apply Nat.ltb_lt in E2.
  rewrite (nth_indep B _ []) by lia. apply HB. lia.
Qed.

Lemma length_set_range {T} (v b : list T) (r0 : nat) :
  length (set_range v r0 b) = length v.
Proof. apply length_mapi. Qed.

Lemma has_shape_scale_col (r c : nat) (M : matrix double) (j : nat) (e : double) :
  has_shape r c M -> has_shape r c (scale_col M j e).
Proof.
  intros [Hr Hc]. unfold scale_col. split; [rewrite length_map; exact Hr|].
  intros i Hi.
  rewrite nth_map_lt with (d := []) by exact (eq_ind_r (fun n => i < n) Hi Hr).
  rewrite length_upd. auto.
Qed.

Lemma column_scaling_shape (L : Library) (cnt r c : nat) (AA : matrix double) :
  has_shape r c AA ->
  length (fst (column_scaling L cnt AA)) = cnt /\
  has_shape r c (snd (column_scaling L cnt AA)).
Proof.
  intros Hsh. unfold column_scaling.
  apply (for_loop_invariant
           (fun (_ : nat) (st : list double * matrix double) =>
              length (fst st) = cnt /\ has_shape r c (snd st))).
  - split; [apply repeat_length | exact Hsh].
  - intros i [E A] _ [HE HA]. simpl in *. split.
    + rewrite length_upd. exact HE.
    + apply has_shape_scale_col, HA.
Qed.

(** The joint system of the relaxed solve has Nv (N + 1) rows and N + 1
    columns; the one of the solve without relaxation has Nv N rows and N
    columns.  Both keep their shape under the column scaling. *)
Lemma relaxed_system_shape (L : Library) (f weight : pyarray)
  (Nv Ns N Nc : nat) (Dk : matrix complex) (scale : double)
  (AA : matrix double) (bb : list double) :
  relaxed_AA_bb L f weight Nv Ns N Nc Dk scale = Return (AA, bb) ->
  has_shape (Nv * (N + 1)) (N + 1) AA /\ length bb = Nv * (N + 1) /\
  has_shape (Nv * (N + 1)) (N + 1) (snd (column_scaling L (N + 1) AA)).
Proof.
  intros H. unfold relaxed_AA_bb in H.
  assert (HP : has_shape (Nv * (N + 1)) (N + 1) (fst (AA, bb)) /\
               length (snd (AA, bb)) = Nv * (N + 1)).
  { apply (for_loop_exn_invariant
             (fun (_ : nat) (st : matrix double * list double) =>
                has_shape (Nv * (N + 1)) (N + 1) (fst st) /\
                length (snd st) = Nv * (N + 1))) with (3 := H).
    - split; [apply has_shape_full | apply repeat_length].
    - intros i [A b] [A' b'] _ [HA Hb] Hbody. simpl in HA, Hb.
      apply bind_Return_inv in Hbody as ([Q R] & _ & Hbody).
      assert (HA' : has_shape (Nv * (N + 1)) (N + 1)
                      (set_rows A (i * (N + 1))
                         (submatrix 0%float R (N + Nc) (N + Nc + N + 1)
                                    (N + Nc) (N + Nc + N + 1)))).
      { apply has_shape_set_rows with (rb := N + 1); [exact HA|].
        pose proof (has_shape_submatrix 0%float R (N + Nc) (N + Nc + N + 1)
                      (N + Nc) (N + Nc + N + 1)) as Hs.
        replace (N + Nc + N + 1 - (N + Nc)) with (N + 1) in Hs by lia.
        exact Hs. }
      destruct (i =? Nv - 1); injection Hbody as <- <-; simpl;
        (split; [exact HA' | rewrite ?length_set_range; exact Hb]). }
  destruct HP as [HA Hb]. simpl in HA, Hb.
  repeat split; try apply HA; trivial; apply (column_scaling_shape L (N + 1) HA).
Qed.

Lemma nonrelaxed_system_shape (L : Library) (f weight : pyarray)
  (Nv Ns N Nc : nat) (Dk : matrix complex) (D : double)
  (AA : matrix double) (bb : list double) :
  nonrelaxed_AA_bb L f weight Nv Ns N Nc Dk D = Return (AA, bb) ->
  has_shape (Nv * N) N AA /\ length bb = Nv * N /\
  has_shape (Nv * N) N (snd (column_scaling L N AA)).
Proof.
  intros H. unfold nonrelaxed_AA_bb in H.
  assert (HP : has_shape (Nv * N) N (fst (AA, bb)) /\
               length (snd (AA, bb)) = Nv * N).
  { apply (for_loop_exn_invariant
             (fun (_ : nat) (st : matrix double * list double) =>
                has_shape (Nv * N) N (fst st) /\ length (snd st) = Nv * N))
      with (3 := H).
    - split; [apply has_shape_full | apply repeat_length].
    - intros i [A b] [A' b'] _ [HA Hb] Hbody. simpl in HA, Hb.
      apply bind_Return_inv in Hbody as ([Q R] & _ & Hbody).
      injection Hbody as <- <-. simpl. split.
      + apply has_shape_set_rows with (rb := N); [exact HA|].
        pose proof (has_shape_submatrix 0%float R (N + Nc) (N + Nc + N)
                      (N + Nc) (N + Nc + N)) as Hs.
        replace (N + Nc + N - (N + Nc)) with N in Hs by lia.
        exact Hs.
      + rewrite length_set_range. exact Hb. }
  destruct HP as [HA Hb]. simpl in HA, Hb.
  repeat split; try apply HA; trivial; apply (column_scaling_shape L N HA).
Qed.

(** The empty model returns on accepted arguments. *)
Lemma zero_model_returns (L : Library) (f s weight : pyarray)
  (skip_pole skip_res : bool) :
  valid_arguments f s weight 0 ->
  exists r, vectfit L f s [] weight 0 skip_pole skip_res = Return r.
Proof.
  intros Hv. unfold vectfit. rewrite (check_arguments_valid Hv). simpl. eauto.
Qed.

(** ** The errors of a call *)

Lemma only_invalid_Return {A} (a : A) : only_invalid_argument (Return a).
Proof. intros e H; discriminate H. Qed.

Lemma only_invalid_bind {A B} (c : outcome A) (k : A -> outcome B) :
  only_invalid_argument c ->
  (forall a, c = Return a -> only_invalid_argument (k a)) ->
  only_invalid_argument (bind c k).
Proof.
  intros Hc Hk e. destruct c as [a|e']; simpl.
  - apply Hk. reflexivity.
  - intros H; injection H as <-. apply Hc. reflexivity.
Qed.

Lemma check_arguments_errors (f s weight : pyarray) (n_polys : Z) :
  only_invalid_argument (check_arguments f s weight n_polys).
Proof.
  intros e. unfold check_arguments.
  repeat match goal with
         | |- context [if ?b then _ else _] => destruct b
         end;
    intros H; try discriminate H; injection H as <-;
    eexists; (split; [reflexivity | simpl; auto 10]).
Qed.

Lemma classify_errors (N : nat) (poles : list complex) :
  only_invalid_argument (classify N poles).
Proof.
  unfold classify. generalize (repeat 0%Z N) as cindex, 0 as m.
  generalize N at 1 as fuel.
  induction fuel as [|fuel IH]; intros cindex m e; simpl.
  - discriminate.
  - repeat match goal with
           | |- context [if ?b then _ else _] => destruct b
           end;
      try discriminate; try apply IH.
    intros H; injection H as <-.
    eexists; (split; [reflexivity | simpl; auto 10]).
Qed.

Section Totality.

Variable L : Library.
Hypothesis solvers : solvers_return L.
Variables (f s weight : pyarray).
Variables (Nv Ns N Nc : nat).

Lemma relaxed_solve_returns (Dk : matrix complex) (scale : double) :
  exists x, relaxed_solve L f weight Nv Ns N Nc Dk scale = Return x.
Proof.
  destruct solvers as (Hqr & Hls & _). unfold relaxed_solve, relaxed_AA_bb.
  match goal with
  | |- context [for_loop_exn 0 Nv ?body ?init] =>
    destruct (@for_loop_exn_total _ (fun _ _ => True) 0 Nv body init I)
      as ([AA bb] & HAA & _)
  end.
  - intros i [AA bb] _ _.
    match goal with
    | |- context [qr L ?A] => destruct (Hqr A) as ([Q R] & HQR); rewrite HQR
    end.
    simpl. destruct (i =? Nv - 1); eauto.
  - rewrite HAA; simpl.
    destruct (column_scaling L (N + 1) AA) as [Escale AA'].
    destruct (Hls AA' bb) as (X & HX). rewrite HX; simpl. eauto.
Qed.

Lemma nonrelaxed_solve_returns (Dk : matrix complex) (D : double) :
  exists C, nonrelaxed_solve L f weight Nv Ns N Nc Dk D = Return C.
Proof.
  destruct solvers as (Hqr & Hls & _). unfold nonrelaxed_solve, nonrelaxed_AA_bb.
  match goal with
  | |- context [for_loop_exn 0 Nv ?body ?init] =>
    destruct (@for_loop_exn_total _ (fun _ _ => True) 0 Nv body init I)
      as ([AA bb] & HAA & _)
  end.
  - intros i [AA bb] _ _.
    match goal with
    | |- context [qr L ?A] => destruct (Hqr A) as ([Q R] & HQR); rewrite HQR
    end.
    simpl. eauto.
  - rewrite HAA; simpl.
    destruct (column_scaling L N AA) as [Escale AA'].
    destruct (Hls AA' bb) as (X & HX). rewrite HX; simpl. eauto.
Qed.

Lemma residue_solve_returns (Dk : matrix complex) (polys : matrix double) :
  exists CP, residue_solve L f weight Nv Ns N Nc Dk polys = Return CP.
Proof.
  destruct solvers as (_ & Hls & _). unfold residue_solve.
  match goal with
  | |- context [for_loop_exn 0 Nv ?body ?init] =>
    destruct (@for_loop_exn_total _ (fun _ _ => True) 0 Nv body init I)
      as (CP & HCP & _)
  end.
  - intros i [Cr P] _ _.
    match goal with
    | |- context [column_scaling L ?c ?M] =>
      destruct (column_scaling L c M) as [Escale A]
    end.
    match goal with
    | |- context [lstsq L ?M ?b] => destruct (Hls M b) as (X & HX); rewrite HX
    end.
    simpl. destruct (0 <? Nc); eauto.
  - eauto.
Qed.

(** With solvers that return, pole identification throws nothing but the
    error of the classification. *)
Lemma pole_identification_errors (poles : list complex) :
  only_invalid_argument (pole_identification L f s weight Nv Ns N Nc poles).
Proof.
  unfold pole_identification.
  apply only_invalid_bind; [apply classify_errors|].
  intros cindex Hc.
  destruct (bases_return L s Ns N Nc poles Hc) as [(Dk & HDk) _].
  rewrite HDk; simpl.
  destruct (relaxed_solve_returns Dk (scale_value L f weight Nv Ns)) as (x & Hx).
  rewrite Hx; simpl.
  destruct solvers as (_ & _ & Heig).
  destruct (degenerate (nth (length x - 1) x 0%float)).
  - destruct (nonrelaxed_solve_returns Dk
                (clamp_D (nth (length x - 1) x 0%float)
                         (nth (length x - 1) x 0%float))) as (C' & HC').
    rewrite HC'; simpl.
    destruct (LAMBD_SERB L N poles cindex) as [LAMBD SERB].
    match goal with
    | |- only_invalid_argument (eigvals L ?M) =>
      destruct (Heig M) as (v & Hv); rewrite Hv
    end.
    apply only_invalid_Return.
  - simpl. destruct (LAMBD_SERB L N poles cindex) as [LAMBD SERB].
    match goal with
    | |- only_invalid_argument (eigvals L ?M) =>
      destruct (Heig M) as (v & Hv); rewrite Hv
    end.
    apply only_invalid_Return.
Qed.

Lemma residue_identification_errors (poles : list complex)
  (R : matrix complex) (P F : matrix double) :
  only_invalid_argument
    (residue_identification L f s weight Nv Ns N Nc poles R P F).
Proof.
  unfold residue_identification.
  apply only_invalid_bind; [apply classify_errors|].
  intros cindex Hc.
  destruct (bases_return L s Ns N Nc poles Hc) as [_ (Dk & HDk)].
  rewrite HDk; simpl.
  destruct (residue_solve_returns Dk P) as ([Cr P'] & HCP).
  rewrite HCP; simpl. apply only_invalid_Return.
Qed.

End Totality.


(** With solvers that return, the two stages return on paired poles. *)
Lemma pole_identification_returns (L : Library) (f s weight : pyarray)
  (Nv Ns Nc : nat) (poles : list complex) :
  solvers_return L -> paired poles ->
  exists poles',
    pole_identification L f s weight Nv Ns (length poles) Nc poles = Return poles'.
Proof.
  intros HL Hp.
  destruct (pole_identification L f s weight Nv Ns (length poles) Nc poles)
    as [poles'|e] eqn:E; [eauto|]. exfalso.
  destruct (@classify_paired (length poles) poles eq_refl
              (proj2 (pairedb_paired poles) Hp)) as (cindex & Hc & _).
  unfold pole_identification in E. rewrite Hc in E. simpl in E.
  destruct (bases_return L s Ns (length poles) Nc poles Hc)
    as [(Dk & HDk) _].
  rewrite HDk in E. simpl in E.
  destruct (relaxed_solve_returns HL f weight Nv Ns (length poles) Nc Dk
              (scale_value L f weight Nv Ns)) as (x & Hx).
  rewrite Hx in E. simpl in E.
  pose proof HL as (Hqr & Hls & Heig).
  destruct (degenerate (nth (length x - 1) x 0%float)).
  - destruct (nonrelaxed_solve_returns HL f weight Nv Ns
                (length poles) Nc Dk
                (clamp_D (nth (length x - 1) x 0%float)
                         (nth (length x - 1) x 0%float))) as (C' & HC').
    rewrite HC' in E. simpl in E.
    destruct (LAMBD_SERB L (length poles) poles cindex) as [LAMBD SERB].
    match type of E with
    | eigvals L ?M = _ => destruct (Heig M) as (v & Hv); rewrite Hv in E
    end.
    discriminate E.
  - simpl in E.
    destruct (LAMBD_SERB L (length poles) poles cindex) as [LAMBD SERB].
    match type of E with
    | eigvals L ?M = _ => destruct (Heig M) as (v & Hv); rewrite Hv in E
    end.
    discriminate E.
Qed.

Lemma residue_identification_returns (L : Library) (f s weight : pyarray)
  (Nv Ns N Nc : nat) (poles : list complex)
  (R : matrix complex) (P F : matrix double) :
  solvers_return L -> length poles = N -> paired poles ->
  exists r, residue_identification L f s weight Nv Ns N Nc poles R P F = Return r.
Proof.
  intros HL Hlen Hp.
  destruct (@classify_paired N poles Hlen (proj2 (pairedb_paired poles) Hp))
    as (cindex & Hc & _).
  unfold residue_identification. rewrite Hc. simpl.
  destruct (bases_return L s Ns N Nc poles Hc) as [_ (Dk & HDk)].
  rewrite HDk. simpl.
  destruct (residue_solve_returns HL f weight Nv Ns N Nc Dk P) as ([Cr P'] & HCP).
  rewrite HCP. simpl. eauto.
Qed.

(** A call on accepted arguments and paired poles returns, provided the
    solvers return and the relocated poles pair. *)
Lemma vectfit_returns (L : Library) (f s : pyarray) (poles : list complex)
  (weight : pyarray) (n_polys : Z) (skip_pole skip_res : bool) :
  solvers_return L ->
  valid_arguments f s weight n_polys ->
  paired poles ->
  (forall poles',
      pole_identification L f s weight (nth 0 (shape f) 0) (nth 1 (shape f) 0)
        (length poles) (Z.to_nat n_polys) poles = Return poles' ->
      length poles' = length poles /\ paired poles') ->
  exists r, vectfit L f s poles weight n_polys skip_pole skip_res = Return r.
Proof.
  intros HL Hv Hp Hreloc.
  assert (Hzero : (poles = [] /\ n_polys = 0%Z) \/ ~ (poles = [] /\ n_polys = 0%Z)).
  { destruct poles; [|right; intros [H _]; discriminate H].
    destruct (Z.eq_dec n_polys 0); [left; auto | right; intros [_ H]; auto]. }
  destruct Hzero as [[-> ->]|Hnz].
  { destruct (zero_model_returns L skip_pole skip_res Hv) as (r & Hr). eauto. }
  rewrite (vectfit_stages L skip_pole skip_res Hv Hnz). cbv zeta.
  destruct (negb skip_pole && (0 <? length poles)).
  - destruct (pole_identification_returns f s weight (nth 0 (shape f) 0)
                (nth 1 (shape f) 0) (Z.to_nat n_polys) HL Hp) as (poles' & Hs).
    rewrite Hs. simpl. destruct (Hreloc poles' Hs) as [Hlen Hp'].
    destruct (negb skip_res); [|eauto].
    apply residue_identification_returns; assumption.
  - simpl. destruct (negb skip_res); [|eauto].
    apply residue_identification_returns; trivial.
Qed.

(** X3: the classification returns exactly on the sequences made of real
    poles and adjacent exact conjugate pairs, and throws the pairing error
    on the others. *)
Theorem classify_accepts_paired (N : nat) (poles : list complex) :
  length poles = N ->
  (paired poles -> exists cindex, classify N poles = Return cindex /\ tagged N cindex) /\
  (~ paired poles -> classify N poles = Throw (invalid_argument msg_conjugate)).
Proof.
  intros Hlen. split.
  - intros Hp. apply (@classify_paired N poles Hlen), pairedb_paired, Hp.
  - intros Hn. apply (@classify_unpaired N poles Hlen).
    destruct (pairedb poles) eqn:E; trivial.
    exfalso; apply Hn, pairedb_paired, E.
Qed.

Lemma classify_accepts_paired_witness :
  classify 2 pair_poles = Return [1; 2]%Z /\
  classify 2 unpaired_poles = Throw (invalid_argument msg_conjugate).
Proof.
  split.
  - destruct (proj1 (@classify_accepts_paired 2 pair_poles eq_refl))
      as (cindex & Hc & _).
    + apply pairedb_paired. reflexivity.
    + rewrite Hc. f_equal. vm_compute in Hc. injection Hc as <-. reflexivity.
  - apply (proj2 (@classify_accepts_paired 2 unpaired_poles eq_refl)).
    intros H. apply pairedb_paired in H. discriminate H.
Defined.

Lemma solvers_return_with_eigvals (vals : list complex) :
  solvers_return (with_eigvals Textbook.library vals).
Proof.
  split; [|split].
  - intros A. exists (Textbook.qr_factors A). reflexivity.
  - intros A b. cbn. unfold Textbook.lstsq.
    destruct (Textbook.qr_factors A). eexists; reflexivity.
  - intros M. exists vals. reflexivity.
Qed.

(** The factors of the textbook QR have the reduced shapes. *)
Lemma mgs_lengths (K : nat) (cols : list (list double)) :
  forall (qs Q Rc : list (list double)),
    Textbook.mgs K cols qs = (Q, Rc) -> length qs <= K ->
    length Q = Nat.min K (length qs + length cols) /\ length Rc = length cols.
Proof.
  induction cols as [|a cols IH]; intros qs Q Rc H Hle; simpl in H.
  - injection H as <- <-. simpl. split; [lia | reflexivity].
  - destruct (Textbook.project qs a) as [rs v].
    destruct (length qs <? K) eqn:E.
    + apply Nat.ltb_lt in E.
      destruct (Textbook.mgs K cols
                  (qs ++ [map (fun x => (x / Textbook.norm v)%float) v]))
        as [Q' Rc'] eqn:Hrec.
      injection H as <- <-.
      destruct (@IH _ _ _ Hrec) as [H1 H2];
        [rewrite length_app; simpl; lia|].
      rewrite length_app in H1. simpl in H1 |- *. split; [lia | lia].
    + apply Nat.ltb_ge in E.
      destruct (Textbook.mgs K cols qs) as [Q' Rc'] eqn:Hrec.
      injection H as <- <-.
      destruct (@IH _ _ _ Hrec Hle) as [H1 H2]. simpl. split; lia.
Qed.

Lemma qr_factors_shapes (r c : nat) (A : matrix double) :
  has_shape r c A ->
  has_shape r (Nat.min r c) (fst (Textbook.qr_factors A)) /\
  has_shape (Nat.min r c) c (snd (Textbook.qr_factors A)).
Proof.
  intros [Hr Hc]. unfold Textbook.qr_factors.
  destruct (Textbook.mgs (Nat.min (length A) (length (hd [] A)))
              (Textbook.columns A) []) as [Qc Rc] eqn:Hm.
  destruct (@mgs_lengths _ _ _ _ _ Hm) as [HQ HR]; [simpl; lia|].
  unfold Textbook.columns in HQ, HR. rewrite length_tabulate in HQ, HR.
  simpl in HQ. cbn [fst snd].
  destruct A as [|row A'].
  - simpl in *. subst r. simpl. split; split; simpl; trivial; intros; lia.
  - assert (Hrow : length row = c) by (apply (Hc 0); simpl in Hr; lia).
    cbn [hd] in HQ, HR |- *. rewrite Hrow in HQ, HR |- *. rewrite Hr in HQ |- *.
    split; split.
    + apply length_tabulate.
    + intros i Hi. rewrite nth_tabulate by exact Hi. rewrite length_map.
      etransitivity; [exact HQ | lia].
    + apply length_tabulate.
    + intros i Hi. rewrite nth_tabulate by exact Hi. rewrite length_map. exact HR.
Qed.

Lemma textbook_qr_reduced : qr_reduced Textbook.library.
Proof.
  intros r c A Q R HA H. cbn in H. unfold Textbook.qr in H.
  destruct (qr_factors_shapes HA) as [HQ HR].
  destruct (Textbook.qr_factors A) as [Q' R']. injection H as <- <-.
  split; [exact HQ | exact HR].
Qed.

Lemma qr_reduced_with_eigvals (vals : list complex) :
  qr_reduced (with_eigvals Textbook.library vals).
Proof. exact textbook_qr_reduced. Qed.


Lemma selector_under_stride_rule_witness :
  snd (LAMBD_SERB Textbook.library 3
         (pair_poles ++ [Cplx (-3)%float 0%float]) [1; 2; 0]%Z)
  = [[2]; [0]; [1]]%float.
Proof.
  rewrite selector_under_stride_rule.
  - reflexivity.
  - apply (@classify_returns_tagged 3 (pair_poles ++ [Cplx (-3)%float 0%float])).
    reflexivity.
Defined.

(** ** Shapes of the returned arrays *)

Lemma has_shape_row_lt {T} (r c : nat) (M : matrix T) (i : nat) :
  has_shape r c M -> i < r -> i < length M.
Proof. intros [Hr _] Hi. rewrite Hr. exact Hi. Qed.

Lemma has_shape_upd_row {T} (r c : nat) (M : matrix T) (n : nat) (row : list T) :
  has_shape r c M -> length row = c -> has_shape r c (upd M n row).
Proof.
  intros [Hr Hc] Hrow. split; [rewrite length_upd; exact Hr|].
  intros i Hi. destruct (Nat.eq_dec n i) as [<-|Hne].
  - rewrite nth_upd_eq by lia. exact Hrow.
  - rewrite nth_upd_neq by exact Hne. auto.
Qed.

Lemma at2_upd_row {T} (d : T) (M : matrix T) (n : nat) (row : list T) (i j : nat) :
  n < length M ->
  at2 d (upd M n row) i j = if i =? n then nth j row d else at2 d M i j.
Proof.
  intros Hn. unfold at2.
  destruct (i =? n) eqn:E; [apply Nat.eqb_eq in E; subst i | apply Nat.eqb_neq in E].
  - rewrite nth_upd_eq by exact Hn. reflexivity.
  - rewrite nth_upd_neq by lia. reflexivity.
Qed.

Lemma at2_set2 {T} (r c : nat) (M : matrix T) (i j i' j' : nat) (v d : T) :
  has_shape r c M -> i < r -> j < c ->
  at2 d (set2 M i j v) i' j' =
  if (i' =? i) && (j' =? j) then v else at2 d M i' j'.
Proof.
  intros HM Hi Hj.
  destruct (i' =? i) eqn:Ei; [apply Nat.eqb_eq in Ei; subst i'|].
  - destruct (j' =? j) eqn:Ej; [apply Nat.eqb_eq in Ej; subst j'|]; simpl.
    + apply at2_set2_eq with (r := r) (c := c); assumption.
    + apply Nat.eqb_neq in Ej. apply at2_set2_neq. right; lia.
  - simpl. apply Nat.eqb_neq in Ei. apply at2_set2_neq. left; lia.
Qed.

Lemma matrix_ext {T} (d : T) (r c : nat) (A B : matrix T) :
  has_shape r c A -> has_shape r c B ->
  (forall i j, i < r -> j < c -> at2 d A i j = at2 d B i j) -> A = B.
Proof.
  intros [HAr HAc] [HBr HBc] H.
  apply nth_ext with (d := []) (d' := []); [congruence|].
  intros i Hi. rewrite HAr in Hi.
  apply nth_ext with (d := d) (d' := d); [rewrite HAc, HBc; trivial|].
  intros j Hj. rewrite HAc in Hj by exact Hi. apply H; assumption.
Qed.

Lemma has_shape_tabulate {T} (r c : nat) (g : nat -> nat -> T) :
  has_shape r c (tabulate r (fun i => tabulate c (g i))).
Proof.
  split; [apply length_tabulate|].
  intros i Hi. rewrite nth_tabulate by exact Hi. apply length_tabulate.
Qed.

Lemma at2_tabulate {T} (d : T) (r c i j : nat) (g : nat -> nat -> T) :
  i < r -> j < c -> at2 d (tabulate r (fun i => tabulate c (g i))) i j = g i j.
Proof.
  intros Hi Hj. unfold at2. rewrite nth_tabulate by exact Hi.
  apply nth_tabulate. exact Hj.
Qed.

Lemma complex_residues_shape (Nv N : nat) (cindex : list Z) (Cr : matrix double)
  (R : matrix complex) :
  has_shape Nv N R -> has_shape Nv N (complex_residues Nv N cindex Cr R).
Proof.
  intros HR. unfold complex_residues.
  apply (for_loop_invariant (fun (_ : nat) (X : matrix complex) => has_shape Nv N X));
    [exact HR|].
  intros m X _ HX.
  destruct (nth m cindex 0 =? 0)%Z.
  - apply (for_loop_invariant (fun (_ : nat) (Y : matrix complex) => has_shape Nv N Y));
      [exact HX|].
    intros n Y _ HY. apply has_shape_set2, HY.
  - destruct (nth m cindex 0 =? 1)%Z; [|exact HX].
    apply (for_loop_invariant (fun (_ : nat) (Y : matrix complex) => has_shape Nv N Y));
      [exact HX|].
    intros n Y _ HY. cbv zeta. apply has_shape_set2, has_shape_set2, HY.
Qed.

Lemma residue_solve_shape (L : Library) (f weight : pyarray) (Nv Ns N Nc : nat)
  (Dk : matrix complex) (P Cr P' : matrix double) :
  has_shape Nv Nc P ->
  residue_solve L f weight Nv Ns N Nc Dk P = Return (Cr, P') ->
  has_shape Nv N Cr /\ has_shape Nv Nc P'.
Proof.
  intros HP H. unfold residue_solve in H.
  apply (for_loop_exn_invariant
           (fun (_ : nat) (st : matrix double * matrix double) =>
              has_shape Nv N (fst st) /\ has_shape Nv Nc (snd st)))
    with (3 := H).
  - split; [apply has_shape_full | exact HP].
  - intros n [C Q] [C' Q'] _ [HC HQ] Hbody. simpl in HC, HQ.
    match type of Hbody with
    | context [column_scaling L ?c ?M] =>
      destruct (column_scaling L c M) as [Escale A]
    end.
    apply bind_Return_inv in Hbody as (X & _ & Hbody).
    assert (HC' : forall x : list double,
               has_shape Nv N (upd C n (slice 0%float x 0 N))).
    { intros x. apply has_shape_upd_row; [exact HC|].
      rewrite length_slice. lia. }
    destruct (0 <? Nc); injection Hbody as <- <-; simpl; split; auto.
    apply has_shape_upd_row; [exact HQ|]. rewrite length_slice. lia.
Qed.

Lemma fit_on_s_shape (L : Library) (s : pyarray) (Nv Ns N Nc : nat)
  (poles : list complex) (R : matrix complex) (P F : matrix double) :
  has_shape Nv Ns F -> has_shape Nv Ns (fit_on_s L s Nv Ns N Nc poles R P F).
Proof.
  intros HF. unfold fit_on_s. cbv zeta.
  apply (for_loop_invariant (fun (_ : nat) (X : matrix double) => has_shape Nv Ns X));
    [exact HF|].
  intros n X Hn HX.
  apply (for_loop_invariant (fun (_ : nat) (Y : matrix double) => has_shape Nv Ns Y)).
  - apply has_shape_upd_row; [exact HX | apply length_tabulate].
  - intros m Y _ HY. apply has_shape_upd_row; [exact HY|].
    rewrite length_mapi. apply HY. lia.
Qed.

(** X4: whenever a call on accepted arguments returns, whatever the skip
    flags and whatever the library returned, the residues have Nv rows of
    N entries, the polynomial coefficients Nv rows of Nc entries and the
    fitted curve Nv rows of Ns entries, where N counts the input poles; with
    [skip_pole = true] the returned poles are the input poles. *)
Theorem result_shapes (L : Library) (f s : pyarray) (poles : list complex)
  (weight : pyarray) (n_polys : Z) (skip_pole skip_res : bool) (r : fit_result) :
  valid_arguments f s weight n_polys ->
  vectfit L f s poles weight n_polys skip_pole skip_res = Return r ->
  has_shape (nth 0 (shape f) 0) (length poles) (residues r) /\
  has_shape (nth 0 (shape f) 0) (Z.to_nat n_polys) (polys r) /\
  has_shape (nth 0 (shape f) 0) (nth 1 (shape f) 0) (fit r) /\
  (skip_pole = true -> poles_out r = poles).
Proof.
  intros Hv Hrun. unfold vectfit in Hrun.
  rewrite (check_arguments_valid Hv) in Hrun. simpl in Hrun.
  set (Nv := nth 0 (shape f) 0) in *. set (Ns := nth 1 (shape f) 0) in *.
  set (Nc := Z.to_nat n_polys) in *. set (N := length poles) in *.
  destruct ((N =? 0) && (Nc =? 0)).
  { injection Hrun as <-. simpl. repeat split; try apply has_shape_full; auto;
      apply (has_shape_full Nv _ _). }
  apply bind_Return_inv in Hrun as (poles' & Hp & Hrun).
  assert (Hsk : skip_pole = true -> poles' = poles).
  { intros ->. simpl in Hp. congruence. }
  destruct (negb skip_res).
  - unfold residue_identification in Hrun.
    apply bind_Return_inv in Hrun as (cindex & _ & Hrun).
    apply bind_Return_inv in Hrun as (Dk & _ & Hrun).
    apply bind_Return_inv in Hrun as ([Cr P] & Hsolve & Hrun).
    injection Hrun as <-. simpl.
    destruct (@residue_solve_shape L f weight Nv Ns N Nc Dk _ Cr P
                (has_shape_full Nv Nc 0%float) Hsolve) as [_ HP].
    split; [apply complex_residues_shape, has_shape_full|].
    split; [exact HP|].
    split; [apply fit_on_s_shape, has_shape_full | exact Hsk].
  - injection Hrun as <-. simpl.
    repeat split; try apply has_shape_full; auto; apply (has_shape_full Nv _ _).
Qed.

Lemma result_shapes_witness :
  vectfit Textbook.library f4 s4 start_pole w4 0 false false = Return real_fit /\
  has_shape 1 1 (residues real_fit) /\ has_shape 1 0 (polys real_fit) /\
  has_shape 1 4 (fit real_fit).
Proof.
  assert (Hrun : vectfit Textbook.library f4 s4 start_pole w4 0 false false
                 = Return real_fit) by (vm_compute; reflexivity).
  split; [exact Hrun|].
  destruct (@result_shapes Textbook.library f4 s4 start_pole w4 0 false false
              real_fit valid_f4 Hrun) as (H1 & H2 & H3 & _).
  split; [exact H1 | split; [exact H2 | exact H3]].
Defined.

(** ** What the tags say about the poles *)

Lemma opposite_nonzero (a b : double) :
  (a =? 0)%float = false -> (- a =? b)%float = true -> (b =? 0)%float = false.
Proof.
  rewrite !FloatAxioms.eqb_spec, opp_spec.
  change (Prim2SF 0) with (S754_zero false).
  destruct (Prim2SF a) as [sa|sa| |sa ma ea], (Prim2SF b) as [sb|sb| |sb mb eb];
    simpl; try discriminate; try reflexivity;
    try (destruct sa; discriminate); try (destruct sb; reflexivity);
    try (destruct sa, sb; discriminate).
Qed.

(** The exact conjugate of a pole with nonzero imaginary part has a nonzero
    imaginary part. *)
Lemma conjugate_is_complex (p q : complex) :
  dne (imag p) 0%float = true -> cne (conj p) q = false ->
  dne (imag q) 0%float = true.
Proof.
  unfold dne, cne, ceq, conj; simpl. intros Hp Hq.
  apply negb_true_iff in Hp. apply negb_false_iff in Hq.
  apply andb_true_iff in Hq as [_ Hq].
  apply negb_true_iff. exact (opposite_nonzero Hp Hq).
Qed.

Lemma classify_loop_matches (N : nat) (poles : list complex) (fuel : nat) :
  forall (m : nat) (cindex c : list Z),
    N - m <= fuel -> m <= N -> scan_inv N m cindex ->
    (forall i, i < m -> tag_matches poles cindex i) ->
    classify_loop fuel N poles m cindex = Return c ->
    forall i, i < N -> tag_matches poles c i.
Proof.
  induction fuel as [|fuel IH]; intros m cindex c Hfuel Hle Hinv Hm; simpl.
  - intros H; injection H as <-. intros i Hi. apply Hm. lia.
  - destruct (m <? N) eqn:Hlt; simpl;
      [apply Nat.ltb_lt in Hlt
      | apply Nat.ltb_ge in Hlt; intros H; injection H as <-;
        intros i Hi; apply Hm; lia].
    pose proof Hinv as (Hl & Hok & Hz).
    destruct (dne (imag (nth m poles C_ZERO)) 0%float) eqn:Ecomplex.
    + rewrite (scan_inv_previous Hinv).
      destruct (N - 1 <=? m) eqn:Elast; simpl; [discriminate|].
      apply Nat.leb_gt in Elast.
      destruct (cne (conj (nth m poles C_ZERO)) (nth (m + 1) poles C_ZERO))
        eqn:Econj; [discriminate|].
      apply IH; [lia | lia | apply scan_inv_pair; [lia | exact Hinv] |].
      intros i Hi. unfold tag_matches.
      destruct (Nat.eq_dec i m) as [->|Hne1].
      { right; left. rewrite nth_upd_neq by lia.
        rewrite nth_upd_eq by lia. auto. }
      destruct (Nat.eq_dec i (m + 1)) as [->|Hne2].
      { right; right. rewrite nth_upd_eq by (rewrite length_upd; lia).
        replace (m + 1 - 1) with m by lia.
        split; [reflexivity | split; [|exact Econj]].
        apply (@conjugate_is_complex _ _ Ecomplex Econj). }
      rewrite !nth_upd_neq by lia. apply Hm. lia.
    + apply IH; [lia | lia | apply scan_inv_real; [lia | exact Hinv] |].
      intros i Hi. destruct (Nat.eq_dec i m) as [->|Hne].
      * left. split; [apply Hz; lia | exact Ecomplex].
      * apply Hm. lia.
Qed.

Lemma classify_matches (N : nat) (poles : list complex) (cindex : list Z) :
  classify N poles = Return cindex ->
  forall i, i < N -> tag_matches poles cindex i.
Proof.
  unfold classify.
  apply classify_loop_matches; try lia. apply scan_inv_start.
Qed.

(** A pole with zero imaginary part has the tag 0. *)
Lemma real_pole_tag (N : nat) (poles : list complex) (cindex : list Z) (m : nat) :
  classify N poles = Return cindex -> m < N ->
  dne (imag (nth m poles C_ZERO)) 0%float = false ->
  nth m cindex 0%Z = 0%Z.
Proof.
  intros Hc Hm Hreal.
  destruct (@classify_matches N poles cindex Hc m Hm)
    as [[H _]|[(_ & H & _)|(_ & H & _)]];
    [exact H | congruence | congruence].
Qed.

(** X5: the tags that an accepted classification returns describe the
    poles: the tag is 0 exactly on the poles with zero imaginary part, a tag
    1 stands on a pole with nonzero imaginary part whose successor is its
    exact conjugate, and a tag 2 on a pole with nonzero imaginary part that
    is the exact conjugate of its predecessor. *)
Theorem tags_describe_poles (N : nat) (poles : list complex) (cindex : list Z)
  (m : nat) :
  classify N poles = Return cindex -> m < N ->
  let p := nth m poles C_ZERO in
  (nth m cindex 0%Z = 0%Z <-> dne (imag p) 0%float = false) /\
  (nth m cindex 0%Z = 1%Z ->
   cne (conj p) (nth (m + 1) poles C_ZERO) = false /\
   nth (m + 1) cindex 0%Z = 2%Z) /\
  (nth m cindex 0%Z = 2%Z ->
   cne (conj (nth (m - 1) poles C_ZERO)) p = false /\
   nth (m - 1) cindex 0%Z = 1%Z) /\
  (nth m cindex 0%Z = 0%Z \/ nth m cindex 0%Z = 1%Z \/ nth m cindex 0%Z = 2%Z).
Proof.
  intros Hc Hm p. subst p.
  pose proof (classify_returns_tagged _ _ Hc) as Htags.
  pose proof (@classify_matches N poles cindex Hc m Hm) as Hmatch.
  split; [|split; [|split]].
  - split; [|apply (real_pole_tag _ Hc Hm)].
    intros H0. destruct Hmatch as [[_ H]|[(H & _)|(H & _)]]; congruence.
  - intros H1. destruct Hmatch as [[H _]|[(_ & _ & H)|(H & _)]]; try congruence.
    split; [exact H | apply (tagged_first m Htags H1)].
  - intros H2. destruct Hmatch as [[H _]|[(H & _)|(_ & _ & H)]]; try congruence.
    split; [exact H|]. destruct Htags as [_ Hok].
    destruct (Hok m Hm) as [H0|[(H1 & _)|(_ & _ & H1)]]; congruence.
  - destruct Hmatch as [[H _]|[(H & _)|(H & _)]]; auto.
Qed.

Lemma tags_describe_poles_witness :
  classify 3 pair_and_real = Return [1; 2; 0]%Z /\
  cne (conj (nth 0 pair_and_real C_ZERO)) (nth 1 pair_and_real C_ZERO) = false /\
  dne (imag (nth 2 pair_and_real C_ZERO)) 0%float = false.
Proof.
  assert (Hc : classify 3 pair_and_real = Return [1; 2; 0]%Z) by reflexivity.
  split; [exact Hc|]. split.
  - apply (proj1 (proj2 (@tags_describe_poles 3 pair_and_real [1; 2; 0]%Z 0 Hc
                           ltac:(lia)))).
    reflexivity.
  - apply (proj1 (@tags_describe_poles 3 pair_and_real [1; 2; 0]%Z 2 Hc
                    ltac:(lia))).
    reflexivity.
Defined.

(** ** Residues of the real poles *)

(** The loop over the responses for a real pole writes the promoted
    coefficients in column [m]. *)
Lemma real_column_values (Nv N : nat) (Cr : matrix double) (m : nat)
  (R : matrix complex) :
  has_shape Nv N R -> m < N ->
  let R' := for_loop 0 Nv
              (fun n R => set2 R n m (cplx_of (at2 0%float Cr n m))) R in
  forall n, n < Nv -> at2 C_ZERO R' n m = cplx_of (at2 0%float Cr n m).
Proof.
  intros Hsh Hm R'. subst R'.
  pose (P := fun (i : nat) (X : matrix complex) =>
               has_shape Nv N X /\
               forall n, n < i -> at2 C_ZERO X n m = cplx_of (at2 0%float Cr n m)).
  assert (HP : P (0 + Nv)
                 (for_loop 0 Nv
                    (fun n R => set2 R n m (cplx_of (at2 0%float Cr n m))) R)).
  { apply (for_loop_invariant P).
    - split; [exact Hsh | intros; lia].
    - intros i X Hi [HX Hdone]. split; [apply has_shape_set2, HX|].
      intros n Hn. destruct (Nat.eq_dec n i) as [->|Hne].
      + apply at2_set2_eq with (r := Nv) (c := N); [exact HX | lia | exact Hm].
      + rewrite at2_set2_neq by (left; lia). apply Hdone. lia. }
  intros n Hn. apply HP. lia.
Qed.

(** Get complex residues: the residue of a real pole is its solved
    coefficient, promoted to a complex number. *)
Lemma complex_residues_real (Nv N : nat) (cindex : list Z) (Cr : matrix double)
  (n m : nat) :
  tagged N cindex -> n < Nv -> m < N -> nth m cindex 0%Z = 0%Z ->
  at2 C_ZERO (complex_residues Nv N cindex Cr (full Nv N C_ZERO)) n m =
  cplx_of (at2 0%float Cr n m).
Proof.
  intros Htags Hn Hm Htag. unfold complex_residues.
  pose (P := fun (i : nat) (X : matrix complex) =>
               has_shape Nv N X /\
               forall m', m' < i -> nth m' cindex 0%Z = 0%Z ->
                 at2 C_ZERO X n m' = cplx_of (at2 0%float Cr n m')).
  match goal with
  | |- context [for_loop 0 N ?body ?init] =>
    assert (HP : P (0 + N) (for_loop 0 N body init))
  end.
  { apply (for_loop_invariant P).
    - split; [apply has_shape_full | intros; lia].
    - intros i X Hi [HX Hdone].
      destruct (nth i cindex 0 =? 0)%Z eqn:E0; [apply Z.eqb_eq in E0|].
      { destruct (@real_column_spec Nv N Cr i X HX) as [HX' Hcols].
        split; [exact HX'|].
        intros m' Hm' Htag'. destruct (Nat.eq_dec m' i) as [->|Hne].
        - apply real_column_values with (N := N); [exact HX | lia | exact Hn].
        - rewrite Hcols by lia. apply Hdone; [lia | exact Htag']. }
      destruct (nth i cindex 0 =? 1)%Z eqn:E1; [apply Z.eqb_eq in E1|].
      { destruct (tagged_first i Htags E1) as [Hi1 Hi2].
        destruct (@pair_columns_spec Nv N Cr i X HX Hi1) as (HX' & _ & Hcols).
        split; [exact HX'|].
        intros m' Hm' Htag'.
        assert (m' <> i) by congruence.
        assert (m' <> i + 1) by congruence.
        rewrite Hcols by lia. apply Hdone; [lia | exact Htag']. }
      split; [exact HX|].
      intros m' Hm' Htag'.
      assert (m' <> i) by (intros ->; apply Z.eqb_neq in E0; congruence).
      apply Hdone; [lia | exact Htag']. }
  destruct HP as [_ HP]. apply HP; [lia | exact Htag].
Qed.

(** X6: in the tuple returned by a call that identifies residues, let [Cr]
    be the coefficients that the loop of lines 367-399 has solved on the
    basis of the returned poles.  The residue of every returned pole with
    zero imaginary part is real, for every response [n]: its real part is
    the solved coefficient [Cr(n, m)] and its imaginary part is the
    double +0. *)
Theorem real_pole_real_residue (L : Library) (f s : pyarray)
  (poles : list complex) (weight : pyarray) (n_polys : Z) (skip_pole : bool)
  (r : fit_result) (n m : nat) :
  valid_arguments f s weight n_polys ->
  vectfit L f s poles weight n_polys skip_pole false = Return r ->
  n < nth 0 (shape f) 0 -> m < length poles ->
  dne (imag (nth m (poles_out r) C_ZERO)) 0%float = false ->
  let Nv := nth 0 (shape f) 0 in
  let Ns := nth 1 (shape f) 0 in
  let N := length poles in
  let Nc := Z.to_nat n_polys in
  exists (cindex : list Z) (Dk : matrix complex) (Cr : matrix double),
    classify N (poles_out r) = Return cindex /\
    Dk_res L s Ns N Nc (poles_out r) cindex = Return Dk /\
    residue_solve L f weight Nv Ns N Nc Dk (full Nv Nc 0%float)
    = Return (Cr, polys r) /\
    at2 C_ZERO (residues r) n m = Cplx (at2 0%float Cr n m) 0%float.
Proof.
  intros Hv Hrun Hn Hm Hreal Nv Ns N Nc.
  rewrite (vectfit_stages L skip_pole false Hv) in Hrun
    by (intros [H _]; subst poles; simpl in Hm; lia).
  cbv zeta in Hrun. apply bind_Return_inv in Hrun as (poles' & _ & Hrun).
  simpl negb in Hrun. cbv iota in Hrun. unfold residue_identification in Hrun.
  apply bind_Return_inv in Hrun as (cindex & Hc & Hrun).
  apply bind_Return_inv in Hrun as (Dk & HDk & Hrun).
  apply bind_Return_inv in Hrun as ([Cr P] & Hsolve & Hrun).
  injection Hrun as <-. cbn [poles_out residues polys] in Hreal |- *.
  exists cindex, Dk, Cr.
  split; [exact Hc | split; [exact HDk | split; [exact Hsolve|]]].
  apply complex_residues_real; trivial.
  - apply (classify_returns_tagged _ _ Hc).
  - apply (@real_pole_tag (length poles) poles' cindex m Hc Hm Hreal).
Qed.

Lemma real_pole_real_residue_witness :
  vectfit Textbook.library f4 s4 start_pole w4 0 false false = Return real_fit /\
  imag (nth 0 (poles_out real_fit) C_ZERO) = 0%float /\
  exists Cr : matrix double,
    at2 C_ZERO (residues real_fit) 0 0 = Cplx (at2 0%float Cr 0 0) 0%float.
Proof.
  assert (Hrun : vectfit Textbook.library f4 s4 start_pole w4 0 false false
                 = Return real_fit) by (vm_compute; reflexivity).
  split; [exact Hrun|]. split; [reflexivity|].
  destruct (@real_pole_real_residue Textbook.library f4 s4 start_pole w4 0 false
              real_fit 0 0 valid_f4 Hrun) as (cindex & Dk & Cr & _ & _ & _ & H);
    [simpl; lia | simpl; lia | reflexivity |].
  exists Cr. exact H.
Defined.

(** ** The divisor of the pole update *)

Lemma double_of_zero (d : double) (s : bool) :
  Prim2SF d = S754_zero s -> d = 0%float \/ d = (-0)%float.
Proof.
  intros E. rewrite <- (SF2Prim_Prim2SF d), E.
  destruct s; [right | left]; reflexivity.
Qed.

Lemma double_of_infinity (d : double) (s : bool) :
  Prim2SF d = S754_infinity s -> d = infinity \/ d = neg_infinity.
Proof.
  intros E. rewrite <- (SF2Prim_Prim2SF d), E.
  destruct s; [right | left]; reflexivity.
Qed.

(** A double inside the tolerances is neither a zero nor an infinity, and a
    NaN counts as inside: every comparison with it is false. *)
Lemma nondegenerate_nonzero (d : double) :
  degenerate d = false -> (d =? 0)%float = false.
Proof.
  intros H. destruct (Prim2SF d) as [s|s| |s m e] eqn:E.
  - destruct (double_of_zero d E) as [-> | ->]; discriminate H.
  - rewrite FloatAxioms.eqb_spec, E. destruct s; reflexivity.
  - rewrite FloatAxioms.eqb_spec, E. reflexivity.
  - rewrite FloatAxioms.eqb_spec, E. destruct s; reflexivity.
Qed.

Lemma nondegenerate_not_infinite (d : double) :
  degenerate d = false -> is_infinity d = false.
Proof.
  intros H. unfold is_infinity.
  destruct (Prim2SF d) as [s|s| |s m e] eqn:E.
  - rewrite FloatAxioms.eqb_spec, abs_spec, E. reflexivity.
  - destruct (double_of_infinity d E) as [-> | ->]; discriminate H.
  - rewrite FloatAxioms.eqb_spec, abs_spec, E. reflexivity.
  - rewrite FloatAxioms.eqb_spec, abs_spec, E. reflexivity.
Qed.

Lemma degenerate_not_nan (d : double) :
  degenerate d = true -> is_nan d = false.
Proof.
  unfold degenerate, is_nan. intros H.
  destruct (Prim2SF d) as [s|s| |s m e] eqn:E.
  - rewrite FloatAxioms.eqb_spec, E. reflexivity.
  - rewrite FloatAxioms.eqb_spec, E. destruct s; reflexivity.
  - exfalso. rewrite !ltb_spec, abs_spec, E in H. discriminate H.
  - rewrite FloatAxioms.eqb_spec, E, SFeqb_finite_refl. reflexivity.
Qed.

Lemma clamp_D_inside (D : double) :
  degenerate D = true ->
  degenerate (clamp_D D D) = false /\ is_nan (clamp_D D D) = false.
Proof.
  intros H.
  destruct (clamp_D_values D H) as [(_ & ->)|[(_ & _ & ->)|(_ & _ & _ & ->)]];
    try (split; reflexivity);
    destruct (0 <? D)%float; split; reflexivity.
Qed.

(** X7: whatever the relaxed solve returned, the value [D'] that the pole
    update divides by (the last entry [D] of the solution, clamped by the
    fallback when it is degenerate) lies inside the tolerances or is NaN:
    it is never a zero and never an infinity, and it is NaN exactly when
    [D] is, a NaN not being caught by the test of the fallback.  The
    relocated poles are the eigenvalues of [LAMBD - SERB * C / D']. *)
Theorem pole_update_divisor (L : Library) (f s weight : pyarray)
  (Nv Ns N Nc : nat) (poles : list complex) (cindex : list Z)
  (Dk : matrix complex) (x : list double) :
  classify N poles = Return cindex ->
  Dk_pole L s Ns N Nc poles cindex = Return Dk ->
  relaxed_solve L f weight Nv Ns N Nc Dk (scale_value L f weight Nv Ns)
  = Return x ->
  let C := slice 0%float x 0 (length x - 1) in
  let D := nth (length x - 1) x 0%float in
  let D' := update_divisor D in
  (forall poles',
      pole_identification L f s weight Nv Ns N Nc poles = Return poles' ->
      eigvals L (ZER L (fst (LAMBD_SERB L N poles cindex))
                     (snd (LAMBD_SERB L N poles cindex)) C D') = Return poles') /\
  degenerate D' = false /\
  (D' =? 0)%float = false /\ is_infinity D' = false /\ is_nan D' = is_nan D.
Proof.
  intros Hc HDk Hx C D D'.
  assert (Hin : degenerate D' = false /\ is_nan D' = is_nan D).
  { subst D'. unfold update_divisor. destruct (degenerate D) eqn:Hdeg; [|auto].
    destruct (clamp_D_inside D Hdeg) as [H1 H2].
    rewrite H2, (degenerate_not_nan D Hdeg). auto. }
  destruct Hin as [Hin Hnan].
  split; [|split; [exact Hin | split; [apply nondegenerate_nonzero, Hin
                                      | split; [apply nondegenerate_not_infinite, Hin
                                               | exact Hnan]]]].
  intros poles'. unfold pole_identification.
  rewrite Hc; simpl. rewrite HDk; simpl. rewrite Hx; simpl.
  fold D. fold C. subst D'. unfold update_divisor. destruct (degenerate D).
  - intros H. apply bind_Return_inv in H as (D1 & H1 & H).
    apply bind_Return_inv in H1 as (C' & _ & H1). injection H1 as <-.
    destruct (LAMBD_SERB L N poles cindex); exact H.
  - simpl. destruct (LAMBD_SERB L N poles cindex); trivial.
Qed.

Lemma pole_update_divisor_witness :
  nth 1 constant_x 0%float = 0%float /\
  update_divisor (nth 1 constant_x 0%float) = 1%float /\
  degenerate (update_divisor (nth (length constant_x - 1) constant_x 0%float))
  = false.
Proof.
  assert (H1 : Dk_pole Textbook.library s4 4 1 0 start_pole [0%Z]
               = Return constant_Dk) by (vm_compute; reflexivity).
  assert (H2 : relaxed_solve Textbook.library f1111 w4 1 4 1 0 constant_Dk
                 (scale_value Textbook.library f1111 w4 1 4) = Return constant_x)
    by (vm_compute; reflexivity).
  split; [reflexivity|]. split; [reflexivity|].
  exact (proj1 (proj2 (@pole_update_divisor Textbook.library f1111 s4 w4 1 4 1 0
                         start_pole [0%Z] constant_Dk constant_x eq_refl H1 H2))).
Defined.

(** ** The matrix LAMBD of the pole update *)

(** An element write inside the declared extents is the checked one. *)
Lemma xt_store_inside (L : Library) (r c : nat) (M : matrix double)
  (i j : nat) (v : double) :
  i < r -> j < c -> xt_store L r c M i j v = set2 M i j v.
Proof.
  intros Hi Hj. unfold xt_store.
  apply Nat.ltb_lt in Hi, Hj. rewrite Hi, Hj. reflexivity.
Qed.

Lemma LAMBD_loop (L : Library) (N : nat) (poles : list complex) (cindex : list Z) :
  tagged N cindex ->
  let LAMBD := fst (LAMBD_SERB L N poles cindex) in
  has_shape N N LAMBD /\
  forall i j, i < N -> j < N ->
    at2 0%float LAMBD i j = LAMBD_entry poles cindex i j.
Proof.
  intros Htags LAMBD. subst LAMBD. unfold LAMBD_SERB.
  pose (P := fun (k : nat) (st : matrix double * matrix double) =>
               has_shape N N (fst st) /\
               forall i j, i < N -> j < N ->
                 at2 0%float (fst st) i j =
                 if LAMBD_row_done cindex k i then LAMBD_entry poles cindex i j
                 else 0%float).
  assert (HP : P (0 + N)
                 (for_loop 0 N (LAMBD_SERB_body L N poles cindex)
                           (full N N 0%float, full N 1 1%float))).
  { apply (for_loop_invariant P).
    - split; [apply has_shape_full|].
      intros i j Hi Hj. cbn [fst]. rewrite at2_full by assumption.
      unfold LAMBD_row_done.
      destruct (nth i cindex 0 =? 2)%Z eqn:E2.
      + apply Z.eqb_eq in E2. destruct Htags as [_ Hok].
        destruct (Hok i Hi) as [H|[(H & _)|(_ & H1 & _)]]; try congruence.
        replace (i - 1 <? 0) with false by (symmetry; apply Nat.ltb_ge; lia).
        reflexivity.
      + reflexivity.
    - intros k [LA SE] Hk [HLA Hval]. cbn [fst] in HLA, Hval.
      assert (Hkind : forall i, i < N ->
                 nth i cindex 0%Z = 2%Z -> 1 <= i /\ nth (i - 1) cindex 0%Z = 1%Z).
      { intros i Hi H2. destruct Htags as [_ Hok].
        destruct (Hok i Hi) as [H|[(H & _)|(_ & H1 & H3)]]; try congruence. auto. }
      unfold LAMBD_SERB_body.
      destruct (nth k cindex 0 =? 0)%Z eqn:E0.
      { apply Z.eqb_eq in E0. unfold P. cbn [fst].
        rewrite xt_store_inside by lia.
        split; [apply has_shape_set2, HLA|].
        intros i j Hi Hj.
        rewrite at2_set2 with (r := N) (c := N) by (trivial; lia).
        rewrite Hval by assumption.
        unfold LAMBD_row_done, LAMBD_entry.
        destruct (nth i cindex 0 =? 2)%Z eqn:E2.
        - apply Z.eqb_eq in E2. destruct (Hkind i Hi E2) as [Hi1 Hprev].
          assert (i <> k) by congruence.
          assert (i - 1 <> k) by congruence.
          eqb_cases; simpl; try lia; reflexivity.
        - destruct (Nat.eq_dec i k) as [->|Hne].
          + rewrite E0, Nat.eqb_refl. simpl.
            eqb_cases; simpl; try lia; reflexivity.
          + eqb_cases; simpl; try lia; reflexivity. }
      destruct (nth k cindex 0 =? 1)%Z eqn:E1.
      { apply Z.eqb_eq in E1. destruct (tagged_first k Htags E1) as [Hk1 Hk2].
        unfold P. cbn [fst]. rewrite !xt_store_inside by lia.
        set (x := real (nth k poles C_ZERO)).
        set (y := imag (nth k poles C_ZERO)).
        assert (H1 : has_shape N N (set2 LA k k x)) by apply has_shape_set2, HLA.
        assert (H2 : has_shape N N (set2 (set2 LA k k x) (k + 1) (k + 1) x))
          by apply has_shape_set2, H1.
        assert (H3 : has_shape N N
                       (set2 (set2 (set2 LA k k x) (k + 1) (k + 1) x) (k + 1) k
                             (- y)%float))
          by apply has_shape_set2, H2.
        split; [apply has_shape_set2, H3|].
        intros i j Hi Hj.
        rewrite at2_set2 with (r := N) (c := N) by (trivial; lia).
        rewrite at2_set2 with (r := N) (c := N) by (trivial; lia).
        rewrite at2_set2 with (r := N) (c := N) by (trivial; lia).
        rewrite at2_set2 with (r := N) (c := N) by (trivial; lia).
        rewrite Hval by assumption.
        unfold LAMBD_row_done, LAMBD_entry.
        destruct (Nat.eq_dec i k) as [->|Hnk].
        - rewrite E1. cbn [Z.eqb Pos.eqb andb]. fold x y.
          eqb_cases; simpl; try lia; reflexivity.
        - destruct (Nat.eq_dec i (k + 1)) as [->|Hnk1].
          + rewrite Hk2. cbn [Z.eqb Pos.eqb].
            replace (k + 1 - 1) with k by lia. fold x y.
            eqb_cases; simpl; try lia; reflexivity.
          + destruct (nth i cindex 0 =? 2)%Z eqn:E2.
            * apply Z.eqb_eq in E2. destruct (Hkind i Hi E2) as [Hi1 Hprev].
              eqb_cases; simpl; try lia; reflexivity.
            * eqb_cases; simpl; try lia; reflexivity. }
      unfold P. cbn [fst]. split; [exact HLA|].
      intros i j Hi Hj. rewrite Hval by assumption.
      replace (LAMBD_row_done cindex (S k) i) with (LAMBD_row_done cindex k i);
        [reflexivity|].
      unfold LAMBD_row_done.
      destruct (nth i cindex 0 =? 2)%Z eqn:E2.
      + apply Z.eqb_eq in E2. destruct (Hkind i Hi E2) as [Hi1 Hprev].
        assert (i - 1 <> k) by (intros <-; apply Z.eqb_neq in E1; congruence).
        eqb_cases; try lia; reflexivity.
      + assert (i <> k).
        { intros ->. destruct Htags as [_ Hok].
          apply Z.eqb_neq in E0, E1, E2.
          destruct (Hok k Hi) as [H|[(H & _)|(H & _)]]; congruence. }
        eqb_cases; try lia; reflexivity. }
  destruct HP as [Hsh Hval]. split; [exact Hsh|].
  intros i j Hi Hj. rewrite Hval by assumption.
  replace (LAMBD_row_done cindex (0 + N) i) with true; [reflexivity|].
  unfold LAMBD_row_done. destruct (nth i cindex 0 =? 2)%Z; symmetry;
    apply Nat.ltb_lt; lia.
Qed.

(** X8: for classified poles and every library, the matrix [LAMBD] of the
    pole update is N x N and is the real block-diagonal form of the poles:
    [p] on the diagonal for a real pole [p], the block [[x, y], [-y, x]] for
    a pair opened by [x + iy], zero elsewhere.  All its element writes are
    inside the declared extents, so the library has no say in it, and its
    diagonal holds the real parts of the poles. *)
Theorem LAMBD_block_diagonal (L : Library) (N : nat) (poles : list complex)
  (cindex : list Z) :
  classify N poles = Return cindex ->
  let LAMBD := fst (LAMBD_SERB L N poles cindex) in
  has_shape N N LAMBD /\
  (forall i j, i < N -> j < N ->
     at2 0%float LAMBD i j = LAMBD_entry poles cindex i j) /\
  (forall i, i < N ->
     dsame (at2 0%float LAMBD i i) (real (nth i poles C_ZERO)) = true).
Proof.
  intros Hc LAMBD. subst LAMBD.
  pose proof (classify_returns_tagged _ _ Hc) as Htags.
  destruct (LAMBD_loop L poles Htags) as [Hsh Hval].
  split; [exact Hsh | split; [exact Hval|]].
  intros i Hi. rewrite Hval by assumption. unfold LAMBD_entry.
  rewrite Nat.eqb_refl.
  destruct (nth i cindex 0 =? 2)%Z eqn:E2; [|apply dsame_refl].
  apply Z.eqb_eq in E2.
  destruct (@classify_matches N poles cindex Hc i Hi)
    as [[H _]|[(H & _)|(_ & _ & H)]]; try congruence.
  unfold cne, ceq in H. apply negb_false_iff in H.
  apply andb_true_iff in H as [H _]. simpl in H.
  unfold dsame. rewrite H. reflexivity.
Qed.

Lemma LAMBD_block_diagonal_witness :
  fst (LAMBD_SERB (without_solvers Textbook.library) 3 pair_and_real [1; 2; 0]%Z) =
  [[-1; 2; 0]; [-2; -1; 0]; [0; 0; -3]]%float.
Proof.
  destruct (@LAMBD_block_diagonal (without_solvers Textbook.library) 3
              pair_and_real [1; 2; 0]%Z eq_refl)
    as (Hsh & Hval & _).
  apply matrix_ext with (d := 0%float) (r := 3) (c := 3).
  - exact Hsh.
  - split; [reflexivity|]. intros [|[|[|i]]] Hi; try reflexivity; lia.
  - intros i j Hi Hj. rewrite Hval by assumption.
    destruct i as [|[|[|i]]]; try lia;
      destruct j as [|[|[|j]]]; try lia; reflexivity.
Defined.

(** ** Real poles only *)

Lemma classify_loop_real (N : nat) (poles : list complex) (cindex : list Z)
  (fuel : nat) :
  all_real N poles ->
  forall m, classify_loop fuel N poles m cindex = Return cindex.
Proof.
  intros Hreal. induction fuel as [|fuel IH]; intros m; simpl; [reflexivity|].
  destruct (m <? N) eqn:Hlt; simpl; [apply Nat.ltb_lt in Hlt | reflexivity].
  rewrite (Hreal m Hlt). apply IH.
Qed.

Lemma nth_zeros (N m : nat) : nth m (repeat 0%Z N) 0%Z = 0%Z.
Proof.
  destruct (Nat.lt_ge_cases m N).
  - apply nth_repeat_lt; assumption.
  - apply nth_overflow. rewrite repeat_length; lia.
Qed.

Lemma SERB_writes_real (N : nat) : SERB_writes N (repeat 0%Z N) = [].
Proof.
  unfold SERB_writes. induction (seq 0 N) as [|m l IH]; [reflexivity|].
  simpl. rewrite nth_zeros. exact IH.
Qed.

Lemma tagged_zeros (N : nat) : tagged N (repeat 0%Z N).
Proof.
  split; [apply repeat_length|]. intros m _. left. apply nth_zeros.
Qed.

(** X9: when no pole has a nonzero imaginary part the classification
    returns the tag 0 everywhere, the pole update performs no write on the
    selector [SERB], which stays the N x 1 column of ones for every
    library (no access outside the extents happens), and [LAMBD] is the
    diagonal matrix of the real parts of the poles. *)
Theorem real_poles_stay_in_bounds (L : Library) (N : nat) (poles : list complex) :
  all_real N poles ->
  classify N poles = Return (repeat 0%Z N) /\
  SERB_writes N (repeat 0%Z N) = [] /\
  snd (LAMBD_SERB L N poles (repeat 0%Z N)) = full N 1 1%float /\
  (forall i j, i < N -> j < N ->
     at2 0%float (fst (LAMBD_SERB L N poles (repeat 0%Z N))) i j =
     if j =? i then real (nth i poles C_ZERO) else 0%float).
Proof.
  intros Hreal.
  split; [apply classify_loop_real, Hreal|].
  split; [apply SERB_writes_real|]. split.
  - unfold LAMBD_SERB. rewrite SERB_loop.
    fold (SERB_writes N (repeat 0%Z N)). rewrite SERB_writes_real. reflexivity.
  - intros i j Hi Hj.
    destruct (LAMBD_loop L poles (tagged_zeros N)) as [_ Hval].
    rewrite Hval by assumption. unfold LAMBD_entry.
    rewrite nth_zeros. reflexivity.
Qed.

Lemma real_poles_stay_in_bounds_witness :
  classify 2 two_real = Return [0; 0]%Z /\
  snd (LAMBD_SERB (without_solvers Textbook.library) 2 two_real [0; 0]%Z)
  = [[1]; [1]]%float.
Proof.
  assert (Hreal : all_real 2 two_real).
  { intros [|[|m]] Hm; try reflexivity; lia. }
  destruct (@real_poles_stay_in_bounds (without_solvers Textbook.library) 2
              two_real Hreal) as (H1 & _ & H2 & _).
  split; [exact H1 | exact H2].
Defined.

(** ** Which routines a stage calls, and how the stages compose *)

(** X10: a call that does not run pole identification ([skip_pole = true],
    or no pole at all, line 116) performs no QR factorisation, no
    eigenvalue computation, no real matrix product and no element store
    outside the extents: it behaves the same when these routines are
    replaced by those of any other library. *)
Theorem residue_stage_routines (L L' : Library) (f s : pyarray)
  (poles : list complex) (weight : pyarray) (n_polys : Z)
  (skip_pole skip_res : bool) :
  skip_pole = true \/ poles = [] ->
  vectfit (with_pole_routines L L') f s poles weight n_polys skip_pole skip_res =
  vectfit L f s poles weight n_polys skip_pole skip_res.
Proof.
  intros Hskip.
  assert (E : negb skip_pole && (0 <? length poles) = false).
  { destruct Hskip as [-> | ->]; [reflexivity | apply andb_false_r]. }
  unfold vectfit.
  destruct (check_arguments f s weight n_polys) as [[[Nv Ns] Nc]|e]; [|reflexivity].
  simpl. rewrite E.
  destruct ((length poles =? 0) && (Nc =? 0)); [reflexivity|].
  destruct skip_res; reflexivity.
Qed.

Lemma residue_stage_routines_witness :
  vectfit (with_pole_routines Textbook.library (without_solvers Textbook.library))
          f4 s4 pair_poles w4 0 true false = Return pair_fit.
Proof.
  rewrite (@residue_stage_routines Textbook.library
             (without_solvers Textbook.library) f4 s4 pair_poles w4 0 true false
             (or_introl eq_refl)).
  vm_compute. reflexivity.
Defined.

(** X11: the two stages compose: when the call that relocates the poles
    only ([skip_res = true]) returns as many poles as it was given, the full
    call is the same as residue identification alone ([skip_pole = true])
    on the relocated poles, be it a tuple or an error. *)
Theorem relocate_then_identify (L : Library) (f s : pyarray)
  (poles : list complex) (weight : pyarray) (n_polys : Z) (skip_pole : bool)
  (r1 : fit_result) :
  vectfit L f s poles weight n_polys skip_pole true = Return r1 ->
  length (poles_out r1) = length poles ->
  vectfit L f s poles weight n_polys skip_pole false =
  vectfit L f s (poles_out r1) weight n_polys true false.
Proof.
  unfold vectfit. intros H Hlen.
  destruct (check_arguments f s weight n_polys) as [[[Nv Ns] Nc]|e];
    [|discriminate H].
  simpl in H |- *. rewrite Hlen.
  destruct ((length poles =? 0) && (Nc =? 0)).
  - injection H as <-. reflexivity.
  - apply bind_Return_inv in H as (poles' & Hp & H). injection H as <-.
    rewrite Hp. reflexivity.
Qed.

Lemma relocate_then_identify_witness :
  vectfit Textbook.library f4 s4 start_pole w4 0 false true
  = Return (initial_result 1 4 1 0 (poles_out real_fit)) /\
  vectfit Textbook.library f4 s4 (poles_out real_fit) w4 0 true false
  = Return real_fit.
Proof.
  assert (H1 : vectfit Textbook.library f4 s4 start_pole w4 0 false true
               = Return (initial_result 1 4 1 0 (poles_out real_fit)))
    by (vm_compute; reflexivity).
  split; [exact H1|].
  change (poles_out real_fit)
    with (poles_out (initial_result 1 4 1 0 (poles_out real_fit))) at 1.
  rewrite <- (@relocate_then_identify Textbook.library f4 s4 start_pole w4 0
                false _ H1 eq_refl).
  vm_compute. reflexivity.
Defined.

(** ** The fitted curve *)

(** The basis of the fit (lines 424-428) holds the partial fractions. *)
Lemma Dk2_partial_fractions (L : Library) (s : pyarray) (Ns N : nat)
  (poles : list complex) :
  for_loop 0 N
    (fun m Dk2 =>
       set_col Dk2 m (fun k => one_over L (dsub (py1 s k) (nth m poles C_ZERO))))
    (full Ns N C_ZERO)
  = partial_fractions L s Ns N poles.
Proof.
  pose (g := fun k m => one_over L (dsub (py1 s k) (nth m poles C_ZERO))).
  pose (P := fun (i : nat) (D : matrix complex) =>
               has_shape Ns N D /\
               forall k m, k < Ns -> m < i -> at2 C_ZERO D k m = g k m).
  match goal with
  | |- for_loop 0 N ?body ?init = _ =>
    assert (HP : P (0 + N) (for_loop 0 N body init))
  end.
  { apply (for_loop_invariant P).
    - split; [apply has_shape_full | intros; lia].
    - intros i D Hi [HD Hdone]. split; [apply has_shape_set_col, HD|].
      intros k m Hk Hm. destruct (Nat.eq_dec m i) as [->|Hne].
      + rewrite at2_set_col_eq with (r := Ns) (c := N);
          [reflexivity | exact HD | lia | lia].
      + rewrite at2_set_col_neq with (r := Ns) (c := N); [|exact HD|lia|lia].
        apply Hdone; lia. }
  destruct HP as [Hsh Hval].
  apply matrix_ext with (d := C_ZERO) (r := Ns) (c := N);
    [exact Hsh | apply has_shape_tabulate|].
  intros k m Hk Hm. unfold partial_fractions.
  rewrite at2_tabulate by assumption. apply Hval; lia.
Qed.

Lemma seq_S_end (n : nat) : seq 0 (S n) = seq 0 n ++ [n].
Proof. rewrite seq_S. reflexivity. Qed.

(** Calculate fit on s: the loops of lines 429-437 evaluate the model. *)
Lemma fit_on_s_model (L : Library) (s : pyarray) (Nv Ns N Nc : nat)
  (poles : list complex) (residues : matrix complex) (polys : matrix double)
  (n k : nat) :
  n < Nv -> k < Ns ->
  at2 0%float (fit_on_s L s Nv Ns N Nc poles residues polys (full Nv Ns 0%float)) n k
  = model_on_s L s Ns N Nc poles residues polys n k.
Proof.
  intros Hn Hk. unfold fit_on_s. cbv zeta. rewrite Dk2_partial_fractions.
  set (Dk2 := partial_fractions L s Ns N poles).
  pose (P := fun (i : nat) (F : matrix double) =>
               has_shape Nv Ns F /\
               forall n' k', n' < i -> k' < Ns ->
                 at2 0%float F n' k' =
                 model_on_s L s Ns N Nc poles residues polys n' k').
  match goal with
  | |- at2 _ (for_loop 0 Nv ?body ?init) _ _ = _ =>
    assert (HP : P (0 + Nv) (for_loop 0 Nv body init))
  end.
  { apply (for_loop_invariant P).
    - split; [apply has_shape_full | intros; lia].
    - intros i F Hi [HF Hdone].
      set (v := dot_cmv L Dk2 (nth i residues [])).
      set (F1 := upd F i (tabulate Ns (fun k => real (nth k v C_ZERO)))).
      assert (HF1 : has_shape Nv Ns F1)
        by (apply has_shape_upd_row; [exact HF | apply length_tabulate]).
      pose (Q := fun (j : nat) (G : matrix double) =>
                   has_shape Nv Ns G /\
                   (forall n' k', n' <> i -> at2 0%float G n' k' = at2 0%float F1 n' k') /\
                   forall k', k' < Ns ->
                     at2 0%float G i k' =
                     fold_left
                       (fun acc m => (acc + pow L (py1 s k') m * at2 0 polys i m)%float)
                       (seq 0 j) (real (nth k' v C_ZERO))).
      match goal with
      | |- P (S i) (for_loop 0 Nc ?body ?init) =>
        assert (HQ : Q (0 + Nc) (for_loop 0 Nc body init))
      end.
      { apply (for_loop_invariant Q).
        - split; [exact HF1 | split; [reflexivity|]].
          intros k' Hk'. simpl. unfold F1.
          rewrite at2_upd_row by (apply (has_shape_row_lt HF); lia).
          rewrite Nat.eqb_refl. rewrite nth_tabulate by exact Hk'. reflexivity.
        - intros j G Hj (HG & Hrows & Hrow).
          assert (Hlen : length (nth i G []) = Ns) by (apply HG; lia).
          split; [|split].
          + apply has_shape_upd_row; [exact HG|]. rewrite length_mapi. exact Hlen.
          + intros n' k' Hn'.
            rewrite at2_upd_row by (apply (has_shape_row_lt HG); lia).
            replace (n' =? i) with false by (symmetry; apply Nat.eqb_neq; exact Hn').
            apply Hrows. exact Hn'.
          + intros k' Hk'.
            rewrite at2_upd_row by (apply (has_shape_row_lt HG); lia).
            rewrite Nat.eqb_refl.
            rewrite nth_mapi with (d := 0%float)
              by exact (eq_ind_r (fun a => k' < a) Hk' Hlen).
            rewrite seq_S_end, fold_left_app. simpl.
            rewrite <- Hrow by exact Hk'. reflexivity. }
      destruct HQ as (HG & Hrows & Hrow). split; [exact HG|].
      intros n' k' Hn' Hk'. destruct (Nat.eq_dec n' i) as [->|Hne].
      + rewrite Hrow by exact Hk'. reflexivity.
      + rewrite Hrows by exact Hne. unfold F1.
        rewrite at2_upd_row by (apply (has_shape_row_lt HF); lia).
        replace (n' =? i) with false by (symmetry; apply Nat.eqb_neq; exact Hne).
        apply Hdone; lia. }
  apply HP; lia.
Qed.

(** X12: in the tuple returned by a call that identifies residues (the
    empty model apart), the fitted curve is the model evaluated with the
    returned residues, polynomial coefficients and poles: at response [n]
    and sample [k] the real part of [sum_m R(n, m) / (s_k - p_m)], computed
    by one complex matrix-vector product over all the poles, plus the terms
    [s_k^m * P(n, m)] added by increasing [m]; and the returned RMS error is
    the norm of [fit - f] divided by sqrt(Nv * Ns) for that very curve. *)
Theorem fit_is_the_model (L : Library) (f s : pyarray) (poles : list complex)
  (weight : pyarray) (n_polys : Z) (skip_pole : bool) (r : fit_result) :
  valid_arguments f s weight n_polys ->
  ~ (poles = [] /\ n_polys = 0%Z) ->
  vectfit L f s poles weight n_polys skip_pole false = Return r ->
  let Nv := nth 0 (shape f) 0 in
  let Ns := nth 1 (shape f) 0 in
  (forall n k, n < Nv -> k < Ns ->
     at2 0%float (fit r) n k =
     model_on_s L s Ns (length poles) (Z.to_nat n_polys)
                (poles_out r) (residues r) (polys r) n k) /\
  rmserr r = rms_error L f Nv Ns (fit r).
Proof.
  intros Hv Hnz Hrun Nv Ns.
  rewrite (vectfit_stages L skip_pole false Hv Hnz) in Hrun.
  cbv zeta in Hrun. apply bind_Return_inv in Hrun as (poles' & _ & Hrun).
  simpl negb in Hrun. cbv iota in Hrun. unfold residue_identification in Hrun.
  apply bind_Return_inv in Hrun as (cindex & _ & Hrun).
  apply bind_Return_inv in Hrun as (Dk & _ & Hrun).
  apply bind_Return_inv in Hrun as ([Cr P] & _ & Hrun).
  injection Hrun as <-. cbn [poles_out residues polys fit rmserr].
  split; [|reflexivity].
  intros n k Hn Hk. apply fit_on_s_model; assumption.
Qed.

Lemma fit_is_the_model_witness :
  vectfit Textbook.library f4 s4 pair_poles w4 0 true false = Return pair_fit /\
  at2 0%float (fit pair_fit) 0 3 =
  real (nth 3 (Textbook.dot_cmv (partial_fractions Textbook.library s4 4 2 pair_poles)
                                (nth 0 (residues pair_fit) [])) C_ZERO) /\
  rmserr pair_fit = rms_error Textbook.library f4 1 4 (fit pair_fit).
Proof.
  assert (Hrun : vectfit Textbook.library f4 s4 pair_poles w4 0 true false
                 = Return pair_fit) by (vm_compute; reflexivity).
  split; [exact Hrun|].
  destruct (@fit_is_the_model Textbook.library f4 s4 pair_poles w4 0 true
              pair_fit valid_f4 ltac:(intros [H _]; discriminate H) Hrun)
    as [Hfit Hrms].
  split; [|exact Hrms].
  rewrite (Hfit 0 3) by (simpl; lia). reflexivity.
Defined.

(** ** The order of the argument checks *)

Lemma shape_eqb_neq (a b : list nat) : a <> b -> shape_eqb a b = false.
Proof.
  intros H. destruct (shape_eqb a b) eqn:E; [|reflexivity].
  exfalso. apply H, shape_eqb_eq, E.
Qed.

(** X13: the argument checks are made in a fixed order and the first one
    that fails decides the message, whatever the later arguments, the poles
    and the skip flags are: the rank of [f], then the rank of [s], then the
    length of [s], then the shape of [weight], then [n_polys].  The test
    [Nc < 0] of line 92 is made on an unsigned value and never holds: a
    negative [n_polys] is refused by [Nc > 11]. *)
Theorem argument_checks_in_order (L : Library) (f s : pyarray)
  (poles : list complex) (weight : pyarray) (n_polys : Z)
  (skip_pole skip_res : bool) :
  (INT_MIN <= n_polys <= INT_MAX)%Z ->
  let call := vectfit L f s poles weight n_polys skip_pole skip_res in
  (dimension f <> 2 -> call = Throw (invalid_argument msg_f_rank)) /\
  (dimension f = 2 -> dimension s <> 1 ->
   call = Throw (invalid_argument msg_s_rank)) /\
  (dimension f = 2 -> dimension s = 1 -> size s <> nth 1 (shape f) 0 ->
   call = Throw (invalid_argument msg_s_length)) /\
  (dimension f = 2 -> dimension s = 1 -> size s = nth 1 (shape f) 0 ->
   shape weight <> shape f ->
   call = Throw (invalid_argument msg_weight)) /\
  (dimension f = 2 -> dimension s = 1 -> size s = nth 1 (shape f) 0 ->
   shape weight = shape f -> (n_polys < 0 \/ 11 < n_polys)%Z ->
   call = Throw (invalid_argument msg_n_polys)) /\
  (size_t_of_int n_polys <? 0)%Z = false.
Proof.
  intros Hint call. subst call. unfold vectfit, check_arguments.
  split; [|split; [|split; [|split; [|split]]]].
  - intros Hf. apply Nat.eqb_neq in Hf. rewrite Hf. reflexivity.
  - intros Hf Hs. apply Nat.eqb_neq in Hs. rewrite Hf, Hs. reflexivity.
  - intros Hf Hs Hl. rewrite Hf, Hs. simpl.
    replace (nth 1 (shape f) 0 =? size s) with false
      by (symmetry; apply Nat.eqb_neq; congruence).
    reflexivity.
  - intros Hf Hs Hl Hw. rewrite Hf, Hs, Hl, !Nat.eqb_refl. simpl.
    rewrite shape_eqb_neq by congruence. reflexivity.
  - intros Hf Hs Hl Hw Hn. rewrite Hf, Hs, Hl, !Nat.eqb_refl, Hw. simpl.
    replace (shape_eqb (shape f) (shape f)) with true
      by (symmetry; apply shape_eqb_eq; reflexivity).
    simpl.
    replace (size_t_of_int n_polys >? 11)%Z with true;
      [rewrite orb_true_r; reflexivity|].
    symmetry. apply Z.gtb_lt. destruct Hn as [Hn|Hn].
    + apply size_t_of_int_negative. lia.
    + rewrite size_t_of_int_small by lia. exact Hn.
  - apply Z.ltb_ge. unfold size_t_of_int. apply Z.mod_pos_bound. lia.
Qed.

Lemma argument_checks_in_order_witness :
  vectfit Textbook.library f_rank1 s123 unpaired_poles w111 (-1) false false
  = Throw (invalid_argument msg_f_rank) /\
  vectfit Textbook.library f123 s123 unpaired_poles w111 (-1) false false
  = Throw (invalid_argument msg_n_polys).
Proof.
  split.
  - apply (proj1 (@argument_checks_in_order Textbook.library f_rank1 s123
                    unpaired_poles w111 (-1) false false
                    ltac:(unfold INT_MIN, INT_MAX; lia))).
    discriminate.
  - apply (proj1 (proj2 (proj2 (proj2 (proj2
             (@argument_checks_in_order Textbook.library f123 s123
                unpaired_poles w111 (-1) false false
                ltac:(unfold INT_MIN, INT_MAX; lia)))))));
      try reflexivity.
    left; lia.
Defined.

(** ** The empty pole set *)

(** The loop of residue identification throws only when the least-squares
    routine does. *)
Lemma residue_solve_needs_lstsq (L : Library) (f weight : pyarray)
  (Nv Ns N Nc : nat) (Dk : matrix complex) (polys : matrix double) :
  (forall A b, exists X, lstsq L A b = Return X) ->
  exists CP, residue_solve L f weight Nv Ns N Nc Dk polys = Return CP.
Proof.
  intros Hls. unfold residue_solve.
  match goal with
  | |- context [for_loop_exn 0 Nv ?body ?init] =>
    destruct (@for_loop_exn_total _ (fun _ _ => True) 0 Nv body init I)
      as (CP & HCP & _)
  end.
  - intros i [Cr P] _ _.
    match goal with
    | |- context [column_scaling L ?c ?M] =>
      destruct (column_scaling L c M) as [Escale A]
    end.
    match goal with
    | |- context [lstsq L ?M ?b] => destruct (Hls M b) as (X & HX); rewrite HX
    end.
    simpl. destruct (0 <? Nc); eauto.
  - eauto.
Qed.

(** X14: with an empty pole set and accepted arguments, pole
    identification is not run even when [skip_pole = false] (line 116), so
    the flag has no effect; whatever is returned has no pole and Nv empty
    rows of residues; no pairing error can occur, and the call returns as
    soon as the least-squares routine does: the polynomial part alone is
    fitted. *)
Theorem no_poles (L : Library) (f s weight : pyarray) (n_polys : Z)
  (skip_pole skip_res : bool) :
  valid_arguments f s weight n_polys ->
  vectfit L f s [] weight n_polys skip_pole skip_res =
  vectfit L f s [] weight n_polys true skip_res /\
  (forall r,
      vectfit L f s [] weight n_polys skip_pole skip_res = Return r ->
      poles_out r = [] /\ residues r = repeat [] (nth 0 (shape f) 0)) /\
  ((forall A b, exists X, lstsq L A b = Return X) ->
   exists r, vectfit L f s [] weight n_polys skip_pole skip_res = Return r).
Proof.
  intros Hv.
  assert (E : vectfit L f s [] weight n_polys skip_pole skip_res =
              vectfit L f s [] weight n_polys true skip_res).
  { unfold vectfit. rewrite (check_arguments_valid Hv). simpl.
    rewrite andb_false_r. reflexivity. }
  split; [exact E|]. rewrite E. clear E.
  unfold vectfit. rewrite (check_arguments_valid Hv). simpl.
  set (Nv := nth 0 (shape f) 0). set (Ns := nth 1 (shape f) 0).
  set (Nc := Z.to_nat n_polys).
  destruct (Nc =? 0); [split; [intros r H; injection H as <-; auto | eauto]|].
  destruct skip_res; simpl;
    [split; [intros r H; injection H as <-; auto | eauto]|].
  unfold residue_identification. simpl.
  split.
  - intros r H. apply bind_Return_inv in H as ([Cr P] & _ & H).
    injection H as <-. auto.
  - intros Hls.
    match goal with
    | |- context [residue_solve L f weight Nv Ns 0 Nc ?Dk ?P] =>
      destruct (@residue_solve_needs_lstsq L f weight Nv Ns 0 Nc Dk P Hls)
        as ([Cr P'] & HCP)
    end.
    rewrite HCP. simpl. eauto.
Qed.

Lemma no_poles_witness :
  exists r,
    vectfit Textbook.library f123 s123 [] w111 2 false false = Return r /\
    poles_out r = [] /\ residues r = [[]].
Proof.
  destruct (@no_poles Textbook.library f123 s123 w111 2 false false
              (valid_f123 (n_polys := 2) ltac:(lia))) as (_ & Hout & Hret).
  destruct Hret as (r & Hr).
  - intros A b. cbn. unfold Textbook.lstsq.
    destruct (Textbook.qr_factors A). eexists; reflexivity.
  - exists r. split; [exact Hr|]. apply (Hout r Hr).
Defined.

(** ** Views and assignments to views *)

Lemma at2_submatrix {T} (d : T) (M : matrix T) (r0 r1 c0 c1 a b : nat) :
  a < r1 - r0 -> b < c1 - c0 ->
  at2 d (submatrix d M r0 r1 c0 c1) a b = at2 d M (r0 + a) (c0 + b).
Proof.
  intros Ha Hb. unfold at2, submatrix.
  rewrite nth_map_seq by exact Ha. apply nth_slice. exact Hb.
Qed.

Lemma at2_set_rows {T} (d : T) (r c : nat) (M B : matrix T) (r0 i j : nat) :
  has_shape r c M -> i < r ->
  at2 d (set_rows M r0 B) i j =
  if (r0 <=? i) && (i <? r0 + length B) then at2 d B (i - r0) j else at2 d M i j.
Proof.
  intros HM Hi. unfold at2 at 1, set_rows.
  rewrite nth_mapi with (d := []) by (apply (has_shape_row_lt HM); exact Hi).
  destruct ((r0 <=? i) && (i <? r0 + length B)) eqn:E; [|reflexivity].
  unfold at2. f_equal. apply nth_indep.
  apply andb_true_iff in E as [E1 E2].
  apply Nat.leb_le in E1. apply Nat.ltb_lt in E2. lia.
Qed.

Lemma nth_set_range_below {T} (d : T) (v b : list T) (r0 j : nat) :
  j < r0 -> nth j (set_range v r0 b) d = nth j v d.
Proof.
  intros Hj. unfold set_range.
  destruct (Nat.lt_ge_cases j (length v)) as [Hlt|Hge].
  - rewrite nth_mapi with (d := d) by exact Hlt.
    replace (r0 <=? j) with false by (symmetry; apply Nat.leb_gt; exact Hj).
    reflexivity.
  - rewrite !nth_overflow; trivial. rewrite length_mapi. exact Hge.
Qed.

(** ** The system of residue identification *)

(** The weighted basis columns: column [m < N + Nc] of [A1] receives
    [weight(n, k) * Dk(k, m)], the other columns are left alone. *)
Lemma left_block_spec (weight : pyarray) (Ns N Nc c : nat) (Dk : matrix complex)
  (n : nat) (A1 : matrix complex) :
  has_shape Ns c A1 -> N + Nc <= c ->
  let A1' := left_block weight N Nc Dk n A1 in
  has_shape Ns c A1' /\
  (forall k m, k < Ns -> m < N + Nc ->
     at2 C_ZERO A1' k m = dmul (py2 weight n k) (at2 C_ZERO Dk k m)) /\
  (forall k j, k < Ns -> N + Nc <= j -> at2 C_ZERO A1' k j = at2 C_ZERO A1 k j).
Proof.
  intros Hsh Hc A1'. subst A1'. unfold left_block.
  pose (P := fun (i : nat) (X : matrix complex) =>
               has_shape Ns c X /\
               (forall k m, k < Ns -> m < i ->
                  at2 C_ZERO X k m = dmul (py2 weight n k) (at2 C_ZERO Dk k m)) /\
               (forall k j, k < Ns -> i <= j -> at2 C_ZERO X k j = at2 C_ZERO A1 k j)).
  match goal with
  | |- has_shape _ _ (for_loop 0 ?cnt ?body ?init) /\ _ =>
    assert (HP : P (0 + cnt) (for_loop 0 cnt body init))
  end.
  { apply (for_loop_invariant P).
    - split; [exact Hsh | split; [intros; lia | auto]].
    - intros i X Hi (HX & Hlow & Hhigh). split; [apply has_shape_set_col, HX|].
      split.
      + intros k m Hk Hm. destruct (Nat.eq_dec m i) as [->|Hne].
        * rewrite at2_set_col_eq with (r := Ns) (c := c);
            [reflexivity | exact HX | lia | lia].
        * rewrite at2_set_col_neq with (r := Ns) (c := c); [|exact HX|lia|lia].
          apply Hlow; lia.
      + intros k j Hk Hj.
        rewrite at2_set_col_neq with (r := Ns) (c := c); [|exact HX|lia|lia].
        apply Hhigh; lia. }
  exact HP.
Qed.

Lemma at2_map_map {A B} (g : A -> B) (da : A) (db : B) (r c : nat) (M : matrix A)
  (i j : nat) :
  has_shape r c M -> i < r -> j < c ->
  at2 db (map (map g) M) i j = g (at2 da M i j).
Proof.
  intros [Hr Hc] Hi Hj. unfold at2.
  rewrite nth_map_lt with (d := []) by lia.
  apply nth_map_lt. rewrite Hc; lia.
Qed.

Lemma has_shape_map_map {A B} (g : A -> B) (r c : nat) (M : matrix A) :
  has_shape r c M -> has_shape r c (map (map g) M).
Proof.
  intros [Hr Hc]. split; [rewrite length_map; exact Hr|].
  intros i Hi. rewrite nth_map_lt with (d := []) by lia.
  rewrite length_map. auto.
Qed.

Lemma has_shape_app {T} (r1 r2 c : nat) (A B : matrix T) :
  has_shape r1 c A -> has_shape r2 c B -> has_shape (r1 + r2) c (A ++ B).
Proof.
  intros [HAr HAc] [HBr HBc]. split; [rewrite length_app; lia|].
  intros i Hi. destruct (Nat.lt_ge_cases i r1).
  - rewrite app_nth1 by lia. auto.
  - rewrite app_nth2 by lia. apply HBc. lia.
Qed.

Lemma at2_app {T} (d : T) (r : nat) (A B : matrix T) (i j : nat) :
  length A = r ->
  at2 d (A ++ B) i j = if i <? r then at2 d A i j else at2 d B (i - r) j.
Proof.
  intros <-. unfold at2. destruct (i <? length A) eqn:E.
  - apply Nat.ltb_lt in E. rewrite app_nth1 by exact E. reflexivity.
  - apply Nat.ltb_ge in E. rewrite app_nth2 by exact E. reflexivity.
Qed.

(** X16: the real system that residue identification solves for response
    [n], whatever the basis [Dk]: 2 Ns rows of N + Nc entries, the real
    parts of the weighted basis on the rows [0 .. Ns - 1] and its imaginary
    parts on the rows [Ns .. 2 Ns - 1], each entry of row [k] multiplied by
    [weight(n, k)]; the right-hand side holds [weight(n, k) * f(n, k)] on
    its first Ns entries and zeros on the others. *)
Theorem residue_system (f weight : pyarray) (Ns N Nc : nat)
  (Dk : matrix complex) (n k m : nat) :
  k < Ns -> m < N + Nc ->
  let A := residue_A weight Ns N Nc Dk n in
  let b := residue_b f weight Ns n in
  has_shape (2 * Ns) (N + Nc) A /\ length b = 2 * Ns /\
  at2 0%float A k m = (real (at2 C_ZERO Dk k m) * py2 weight n k)%float /\
  at2 0%float A (Ns + k) m = (imag (at2 C_ZERO Dk k m) * py2 weight n k)%float /\
  nth k b 0%float = (py2 weight n k * py2 f n k)%float /\
  nth (Ns + k) b 0%float = 0%float.
Proof.
  intros Hk Hm A b. subst A b. unfold residue_A, residue_b. cbv zeta.
  destruct (@left_block_spec weight Ns N Nc (N + Nc) Dk n (full Ns (N + Nc) C_ZERO)
              (has_shape_full Ns (N + Nc) C_ZERO) (le_n _)) as (Hsh & Hval & _).
  set (A1 := left_block weight N Nc Dk n (full Ns (N + Nc) C_ZERO)) in *.
  assert (Hre : has_shape Ns (N + Nc) (map (map real) A1))
    by apply has_shape_map_map, Hsh.
  assert (Him : has_shape Ns (N + Nc) (map (map imag) A1))
    by apply has_shape_map_map, Hsh.
  split; [|split; [|split; [|split; [|split]]]].
  - replace (2 * Ns) with (Ns + Ns) by lia. apply has_shape_app; assumption.
  - rewrite length_app, length_map, !length_tabulate. lia.
  - rewrite at2_app with (r := Ns) by apply Hre.
    replace (k <? Ns) with true by (symmetry; apply Nat.ltb_lt; exact Hk).
    rewrite at2_map_map with (da := C_ZERO) (r := Ns) (c := N + Nc) by assumption.
    rewrite Hval by assumption. reflexivity.
  - rewrite at2_app with (r := Ns) by apply Hre.
    replace (Ns + k <? Ns) with false by (symmetry; apply Nat.ltb_ge; lia).
    replace (Ns + k - Ns) with k by lia.
    rewrite at2_map_map with (da := C_ZERO) (r := Ns) (c := N + Nc) by assumption.
    rewrite Hval by assumption. reflexivity.
  - rewrite app_nth1 by (rewrite length_tabulate; exact Hk).
    rewrite nth_tabulate by exact Hk. reflexivity.
  - rewrite app_nth2 by (rewrite length_tabulate; lia).
    rewrite length_tabulate. replace (Ns + k - Ns) with k by lia.
    rewrite nth_map_lt with (d := 0%float) by (rewrite length_tabulate; exact Hk).
    reflexivity.
Qed.

Lemma residue_system_witness :
  has_shape 8 2 (residue_A w4 4 1 1 constant_Dk 0) /\
  at2 0%float (residue_A w4 4 1 1 constant_Dk 0) 0 0 = (1 / 3)%float /\
  nth 1 (residue_b f4 w4 4 0) 0%float = (1 / 3)%float /\
  nth 5 (residue_b f4 w4 4 0) 0%float = 0%float.
Proof.
  destruct (@residue_system f4 w4 4 1 1 constant_Dk 0 0 0 ltac:(lia) ltac:(lia))
    as (Hsh & _ & HA & _).
  destruct (@residue_system f4 w4 4 1 1 constant_Dk 0 1 0 ltac:(lia) ltac:(lia))
    as (_ & _ & _ & _ & Hb1 & Hb2).
  split; [exact Hsh|]. split; [rewrite HA; reflexivity|].
  split; [rewrite Hb1; reflexivity | exact Hb2].
Defined.

(** ** Column scaling *)

Lemma at2_scale_col (r c : nat) (M : matrix double) (j : nat) (e : double)
  (i j' : nat) :
  has_shape r c M -> i < r -> j < c ->
  at2 0%float (scale_col M j e) i j' =
  if j' =? j then (at2 0%float M i j * e)%float else at2 0%float M i j'.
Proof.
  intros [Hr Hc] Hi Hj. unfold at2, scale_col.
  rewrite nth_map_lt with (d := []) by exact (eq_ind_r (fun a => i < a) Hi Hr).
  destruct (j' =? j) eqn:E; [apply Nat.eqb_eq in E; subst j' | apply Nat.eqb_neq in E].
  - apply nth_upd_eq. rewrite Hc by exact Hi. exact Hj.
  - apply nth_upd_neq. lia.
Qed.

Lemma col_ext {T} (d : T) (r c : nat) (A B : matrix T) (j : nat) :
  has_shape r c A -> has_shape r c B ->
  (forall i, i < r -> at2 d A i j = at2 d B i j) ->
  col d A j = col d B j.
Proof.
  intros [HAr _] [HBr _] H. unfold col.
  apply nth_ext with (d := d) (d' := d).
  - rewrite !length_map. congruence.
  - intros i Hi. rewrite length_map in Hi.
    assert (Hir : i < r) by (rewrite <- HAr; exact Hi).
    rewrite nth_map_lt with (d := []) by exact Hi.
    rewrite nth_map_lt with (d := []) by (rewrite HBr; exact Hir).
    apply (H i Hir).
Qed.

(** X17: column scaling (lines 220-225, 282-287, 382-387) on a system of
    [r] rows: the factor of column [m] is [1 / norm] of that column of the
    system as it was given (scaling the columns before it does not change
    it), every entry of the column is multiplied by the factor, and
    [x *= Escale] multiplies entry [m] of the solution by the same
    factor. *)
Theorem column_scaling_entries (L : Library) (cnt r c : nat) (AA : matrix double)
  (x : list double) (i m : nat) :
  has_shape r c AA -> cnt <= c -> i < r -> m < cnt -> m < length x ->
  let Escale := fst (column_scaling L cnt AA) in
  let AA' := snd (column_scaling L cnt AA) in
  nth m Escale 0%float = (1 / norm L (col 0%float AA m))%float /\
  at2 0%float AA' i m = (at2 0%float AA i m * nth m Escale 0)%float /\
  nth m (times_Escale x Escale) 0%float = (nth m x 0 * nth m Escale 0)%float.
Proof.
  intros Hsh Hc Hi Hm Hx Escale AA'. subst Escale AA'. unfold column_scaling.
  pose (P := fun (k : nat) (st : list double * matrix double) =>
               length (fst st) = cnt /\ has_shape r c (snd st) /\
               (forall j, j < k ->
                  nth j (fst st) 0%float = (1 / norm L (col 0%float AA j))%float /\
                  forall a, a < r ->
                    at2 0%float (snd st) a j =
                    (at2 0%float AA a j * nth j (fst st) 0)%float) /\
               (forall j a, k <= j -> a < r ->
                  at2 0%float (snd st) a j = at2 0%float AA a j)).
  match goal with
  | |- context [for_loop 0 cnt ?body ?init] =>
    assert (HP : P (0 + cnt) (for_loop 0 cnt body init))
  end.
  { apply (for_loop_invariant P).
    - split; [apply repeat_length | split; [exact Hsh | split; [intros; lia | auto]]].
    - intros k [E A] Hk (HE & HA & Hdone & Hrest). cbn [fst snd] in *.
      assert (Hcol : col 0%float A k = col 0%float AA k).
      { apply col_ext with (r := r) (c := c); trivial.
        intros a Ha. apply Hrest; [lia | exact Ha]. }
      unfold P. cbv zeta. cbn [fst snd]. rewrite Hcol.
      set (e := (1 / norm L (col 0%float AA k))%float).
      split; [rewrite length_upd; exact HE|].
      split; [apply has_shape_scale_col, HA|]. split.
      + intros j Hj. destruct (Nat.eq_dec j k) as [->|Hne].
        * rewrite nth_upd_eq by lia. split; [reflexivity|].
          intros a Ha. rewrite at2_scale_col with (r := r) (c := c) by (trivial; lia).
          rewrite Nat.eqb_refl. rewrite Hrest by (trivial; lia). reflexivity.
        * rewrite nth_upd_neq by lia.
          destruct (Hdone j) as [H1 H2]; [lia|]. split; [exact H1|].
          intros a Ha. rewrite at2_scale_col with (r := r) (c := c) by (trivial; lia).
          replace (j =? k) with false by (symmetry; apply Nat.eqb_neq; exact Hne).
          apply H2. exact Ha.
      + intros j a Hj Ha.
        rewrite at2_scale_col with (r := r) (c := c) by (trivial; lia).
        replace (j =? k) with false by (symmetry; apply Nat.eqb_neq; lia).
        apply Hrest; [lia | exact Ha]. }
  destruct HP as (_ & _ & Hdone & _).
  destruct (Hdone m) as [H1 H2]; [lia|].
  split; [exact H1 | split; [apply H2; exact Hi|]].
  unfold times_Escale. rewrite nth_mapi with (d := 0%float) by exact Hx.
  reflexivity.
Qed.

Lemma column_scaling_entries_witness :
  nth 0 (fst (column_scaling Textbook.library 2 columns_3_4)) 0%float
  = (1 / 5)%float /\
  at2 0%float (snd (column_scaling Textbook.library 2 columns_3_4)) 1 0
  = (4 * (1 / 5))%float.
Proof.
  destruct (@column_scaling_entries Textbook.library 2 2 2 columns_3_4
              [1; 1]%float 1 0)
    as (HE & HA & _);
    [split; [reflexivity | intros [|[|i]] Hi; try reflexivity; lia]
    | lia | lia | lia | simpl; lia |].
  split; [rewrite HE; reflexivity|].
  rewrite HA, HE. reflexivity.
Defined.

(** ** Assignments to a range of a vector *)

Lemma nth_set_range {T} (d : T) (v b : list T) (r0 j : nat) :
  j < length v ->
  nth j (set_range v r0 b) d =
  if (r0 <=? j) && (j <? r0 + length b) then nth (j - r0) b d else nth j v d.
Proof.
  intros Hj. unfold set_range.
  rewrite nth_mapi with (d := d) by exact Hj.
  destruct ((r0 <=? j) && (j <? r0 + length b)) eqn:E; [|reflexivity].
  apply andb_true_iff in E as [E1 E2].
  apply Nat.leb_le in E1. apply Nat.ltb_lt in E2.
  apply nth_indep. lia.
Qed.

Lemma textbook_dot_mv_sized : dot_mv_sized Textbook.library.
Proof. intros M v. apply length_map. Qed.

(** ** The systems of pole identification, response by response *)

(** The columns of the unknowns of sigma: column [N + Nc + m] of [A1]
    receives [- weight(n, k) * Dk(k, m) * f(n, k)]. *)
Lemma right_block_spec (f weight : pyarray) (Ns N Nc cnt c : nat)
  (Dk : matrix complex) (n : nat) (A1 : matrix complex) :
  has_shape Ns c A1 -> N + Nc + cnt <= c ->
  let A1' := right_block f weight N Nc Dk n cnt A1 in
  has_shape Ns c A1' /\
  (forall k m, k < Ns -> m < cnt ->
     at2 C_ZERO A1' k (N + Nc + m) =
     cmuld (dmul (- py2 weight n k)%float (at2 C_ZERO Dk k m)) (py2 f n k)) /\
  (forall k j, k < Ns -> j < N + Nc -> at2 C_ZERO A1' k j = at2 C_ZERO A1 k j).
Proof.
  intros Hsh Hc A1'. subst A1'. unfold right_block.
  pose (P := fun (i : nat) (X : matrix complex) =>
               has_shape Ns c X /\
               (forall k m, k < Ns -> m < i ->
                  at2 C_ZERO X k (N + Nc + m) =
                  cmuld (dmul (- py2 weight n k)%float (at2 C_ZERO Dk k m))
                        (py2 f n k)) /\
               (forall k j, k < Ns -> j < N + Nc ->
                  at2 C_ZERO X k j = at2 C_ZERO A1 k j)).
  match goal with
  | |- has_shape _ _ (for_loop 0 ?cnt ?body ?init) /\ _ =>
    assert (HP : P (0 + cnt) (for_loop 0 cnt body init))
  end.
  { apply (for_loop_invariant P).
    - split; [exact Hsh | split; [intros; lia | auto]].
    - intros i X Hi (HX & Hlow & Hhigh). split; [apply has_shape_set_col, HX|].
      split.
      + intros k m Hk Hm. destruct (Nat.eq_dec m i) as [->|Hne].
        * rewrite at2_set_col_eq with (r := Ns) (c := c);
            [reflexivity | exact HX | lia | lia].
        * rewrite at2_set_col_neq with (r := Ns) (c := c); [|exact HX|lia|lia].
          apply Hlow; lia.
      + intros k j Hk Hj.
        rewrite at2_set_col_neq with (r := Ns) (c := c); [|exact HX|lia|lia].
        apply Hhigh; lia. }
  exact HP.
Qed.

(** The integral criterion for sigma: the loop of lines 199-203 writes the
    last row of the columns of sigma. *)
Lemma criterion_row_spec (r c row lo cnt : nat) (g : nat -> double)
  (A : matrix double) :
  has_shape r c A -> row < r -> lo + cnt <= c ->
  let A' := for_loop 0 cnt (fun m A => set2 A row (lo + m) (g m)) A in
  has_shape r c A' /\
  (forall m, m < cnt -> at2 0%float A' row (lo + m) = g m) /\
  (forall i j, i <> row \/ j < lo -> at2 0%float A' i j = at2 0%float A i j).
Proof.
  intros Hsh Hrow Hc A'. subst A'.
  pose (P := fun (k : nat) (X : matrix double) =>
               has_shape r c X /\
               (forall m, m < k -> at2 0%float X row (lo + m) = g m) /\
               (forall i j, i <> row \/ j < lo -> at2 0%float X i j = at2 0%float A i j)).
  match goal with
  | |- has_shape _ _ (for_loop 0 ?cnt ?body ?init) /\ _ =>
    assert (HP : P (0 + cnt) (for_loop 0 cnt body init))
  end.
  { apply (for_loop_invariant P).
    - split; [exact Hsh | split; [intros; lia | auto]].
    - intros k X Hk (HX & Hdone & Hrest). split; [apply has_shape_set2, HX|].
      split.
      + intros m Hm. destruct (Nat.eq_dec m k) as [->|Hne].
        * apply at2_set2_eq with (r := r) (c := c); [exact HX | lia | lia].
        * rewrite at2_set2_neq by (right; lia). apply Hdone. lia.
      + intros i j Hij. rewrite at2_set2_neq by lia. apply Hrest. exact Hij. }
  exact HP.
Qed.

Lemma at2_set_rows_sized {T} (d : T) (r c rb : nat) (M B : matrix T)
  (r0 i j : nat) :
  has_shape r c M -> length B = rb -> i < r ->
  at2 d (set_rows M r0 B) i j =
  if (r0 <=? i) && (i <? r0 + rb) then at2 d B (i - r0) j else at2 d M i j.
Proof. intros HM <- Hi. apply at2_set_rows with (r := r) (c := c); assumption. Qed.

(** X19: the real system of response [n] in the relaxed problem, whatever
    the basis [Dk]: 2 Ns + 1 rows of 2 N + Nc + 1 entries; on the rows [k]
    and [Ns + k] the real and the imaginary parts of
    [weight(n, k) * Dk(k, m)] in the columns [m < N + Nc] and of
    [- weight(n, k) * Dk(k, m) * f(n, k)] in the columns [N + Nc + m],
    [m <= N]; the last row is zero, except that for the last response it
    holds [real(scale * sum_k Dk(k, m))] in the columns [N + Nc + m] (the
    integral criterion for sigma). *)
Theorem relaxed_rows_of_response (f weight : pyarray) (Nv Ns N Nc : nat)
  (Dk : matrix complex) (scale : double) (n k : nat) :
  k < Ns ->
  let A := relaxed_A f weight Nv Ns N Nc Dk scale n in
  let w := py2 weight n k in
  has_shape (2 * Ns + 1) (N + Nc + N + 1) A /\
  (forall m, m < N + Nc ->
     at2 0%float A k m = (real (at2 C_ZERO Dk k m) * w)%float /\
     at2 0%float A (Ns + k) m = (imag (at2 C_ZERO Dk k m) * w)%float /\
     at2 0%float A (2 * Ns) m = 0%float) /\
  (forall m, m < N + 1 ->
     at2 0%float A k (N + Nc + m) =
     (real (at2 C_ZERO Dk k m) * - w * py2 f n k)%float /\
     at2 0%float A (Ns + k) (N + Nc + m) =
     (imag (at2 C_ZERO Dk k m) * - w * py2 f n k)%float /\
     at2 0%float A (2 * Ns) (N + Nc + m) =
     if n =? Nv - 1
     then (real (csum (col C_ZERO Dk m)) * scale)%float
     else 0%float).
Proof.
  intros Hk A w. subst A w. unfold relaxed_A. cbv zeta.
  set (cols := N + Nc + N + 1).
  destruct (@left_block_spec weight Ns N Nc cols Dk n (full Ns cols C_ZERO)
              (has_shape_full Ns cols C_ZERO) ltac:(unfold cols; lia))
    as (Hsh1 & Hleft & _).
  set (A1 := left_block weight N Nc Dk n (full Ns cols C_ZERO)) in *.
  destruct (@right_block_spec f weight Ns N Nc (N + 1) cols Dk n A1 Hsh1
              ltac:(unfold cols; lia)) as (Hsh2 & Hright & Hkeep).
  set (A2 := right_block f weight N Nc Dk n (N + 1) A1) in *.
  assert (Hre : has_shape Ns cols (map (map real) A2))
    by apply has_shape_map_map, Hsh2.
  assert (Him : has_shape Ns cols (map (map imag) A2))
    by apply has_shape_map_map, Hsh2.
  set (B0 := full (2 * Ns + 1) cols 0%float).
  assert (HB0 : has_shape (2 * Ns + 1) cols B0) by apply has_shape_full.
  assert (HB1 : has_shape (2 * Ns + 1) cols (set_rows B0 0 (map (map real) A2)))
    by (apply has_shape_set_rows with (rb := Ns); assumption).
  set (B1 := set_rows B0 0 (map (map real) A2)) in *.
  assert (HB2 : has_shape (2 * Ns + 1) cols (set_rows B1 Ns (map (map imag) A2)))
    by (apply has_shape_set_rows with (rb := Ns); assumption).
  set (B2 := set_rows B1 Ns (map (map imag) A2)) in *.
  assert (Hlre : length (map (map real) A2) = Ns) by apply Hre.
  assert (Hlim : length (map (map imag) A2) = Ns) by apply Him.
  assert (Htop : forall j, j < cols ->
            at2 0%float B2 k j = real (at2 C_ZERO A2 k j)).
  { intros j Hj. unfold B2.
    rewrite at2_set_rows_sized with (r := 2 * Ns + 1) (c := cols) (rb := Ns)
      by (trivial; lia).
    replace (Ns <=? k) with false by (symmetry; apply Nat.leb_gt; lia).
    simpl. unfold B1.
    rewrite at2_set_rows_sized with (r := 2 * Ns + 1) (c := cols) (rb := Ns)
      by (trivial; lia).
    replace (k <? 0 + Ns) with true by (symmetry; apply Nat.ltb_lt; lia).
    simpl. rewrite Nat.sub_0_r.
    apply at2_map_map with (r := Ns) (c := cols); assumption. }
  assert (Hmid : forall j, j < cols ->
            at2 0%float B2 (Ns + k) j = imag (at2 C_ZERO A2 k j)).
  { intros j Hj. unfold B2.
    rewrite at2_set_rows_sized with (r := 2 * Ns + 1) (c := cols) (rb := Ns)
      by (trivial; lia).
    replace (Ns <=? Ns + k) with true by (symmetry; apply Nat.leb_le; lia).
    replace (Ns + k <? Ns + Ns) with true by (symmetry; apply Nat.ltb_lt; lia).
    simpl. replace (Ns + k - Ns) with k by lia.
    apply at2_map_map with (r := Ns) (c := cols); assumption. }
  assert (Hlast : forall j, j < cols -> at2 0%float B2 (2 * Ns) j = 0%float).
  { intros j Hj. unfold B2.
    rewrite at2_set_rows_sized with (r := 2 * Ns + 1) (c := cols) (rb := Ns)
      by (trivial; lia).
    replace (2 * Ns <? Ns + Ns) with false by (symmetry; apply Nat.ltb_ge; lia).
    rewrite andb_false_r. unfold B1.
    rewrite at2_set_rows_sized with (r := 2 * Ns + 1) (c := cols) (rb := Ns)
      by (trivial; lia).
    replace (2 * Ns <? 0 + Ns) with false by (symmetry; apply Nat.ltb_ge; lia).
    rewrite andb_false_r. unfold B0. apply at2_full; lia. }
  set (g := fun m => real (dmul scale (csum (col C_ZERO Dk m)))).
  destruct (@criterion_row_spec (2 * Ns + 1) cols (2 * Ns) (N + Nc) (N + 1) g B2
              HB2 ltac:(lia) ltac:(unfold cols; lia)) as (HB3 & Hcrit & Hsame).
  assert (Hfinal :
    let A := if n =? Nv - 1
             then for_loop 0 (N + 1)
                    (fun m A => set2 A (2 * Ns) (N + Nc + m) (g m)) B2
             else B2 in
    has_shape (2 * Ns + 1) cols A /\
    (forall i j, i <> 2 * Ns -> at2 0%float A i j = at2 0%float B2 i j) /\
    (forall j, j < N + Nc -> at2 0%float A (2 * Ns) j = at2 0%float B2 (2 * Ns) j) /\
    (forall m, m < N + 1 ->
       at2 0%float A (2 * Ns) (N + Nc + m) =
       if n =? Nv - 1 then g m else 0%float)).
  { cbv zeta. destruct (n =? Nv - 1).
    - split; [exact HB3|]. split; [intros; apply Hsame; left; assumption|].
      split; [intros; apply Hsame; right; assumption | exact Hcrit].
    - split; [exact HB2|]. split; [reflexivity|]. split; [reflexivity|].
      intros m Hm. apply Hlast. unfold cols. lia. }
  cbv zeta in Hfinal. destruct Hfinal as (HshA & Hrows & Hlow & Hhigh).
  split; [exact HshA|]. split.
  - intros m Hm. split; [|split].
    + rewrite Hrows by lia. rewrite Htop by (unfold cols; lia).
      unfold A2. rewrite Hkeep by assumption. unfold A1.
      rewrite Hleft by assumption. reflexivity.
    + rewrite Hrows by lia. rewrite Hmid by (unfold cols; lia).
      unfold A2. rewrite Hkeep by assumption. unfold A1.
      rewrite Hleft by assumption. reflexivity.
    + rewrite Hlow by assumption. apply Hlast. unfold cols. lia.
  - intros m Hm. split; [|split].
    + rewrite Hrows by lia. rewrite Htop by (unfold cols; lia).
      unfold A2. rewrite Hright by assumption. reflexivity.
    + rewrite Hrows by lia. rewrite Hmid by (unfold cols; lia).
      unfold A2. rewrite Hright by assumption. reflexivity.
    + rewrite Hhigh by assumption. reflexivity.
Qed.

Lemma relaxed_rows_of_response_witness :
  has_shape 9 3 (relaxed_A f1111 w4 1 4 1 0 constant_Dk 1%float 0) /\
  at2 0%float (relaxed_A f1111 w4 1 4 1 0 constant_Dk 1%float 0) 0 0 = (1 / 3)%float /\
  at2 0%float (relaxed_A f1111 w4 1 4 1 0 constant_Dk 1%float 0) 0 1
  = (1 / 3 * -1 * 1)%float /\
  at2 0%float (relaxed_A f1111 w4 1 4 1 0 constant_Dk 1%float 0) 8 2 = 4%float.
Proof.
  destruct (@relaxed_rows_of_response f1111 w4 1 4 1 0 constant_Dk 1%float 0 0 ltac:(lia))
    as (Hsh & Hleft & Hright).
  split; [exact Hsh|].
  split; [exact (eq_trans (proj1 (Hleft 0 ltac:(lia))) eq_refl)|].
  split; [exact (eq_trans (proj1 (Hright 0 ltac:(lia))) eq_refl)|].
  exact (eq_trans (proj2 (proj2 (Hright 1 ltac:(lia)))) eq_refl).
Defined.

(** X20: the real system of response [n] in the fallback without
    relaxation: 2 Ns rows of 2 N + Nc entries built as in the relaxed
    problem but with N columns for sigma and no criterion row, and the
    right-hand side [D * weight(n, k) * f(n, k)] on its first Ns entries,
    zeros on the others. *)
Theorem fallback_rows_of_response (f weight : pyarray) (Ns N Nc : nat)
  (Dk : matrix complex) (D : double) (n k : nat) :
  k < Ns ->
  let A := nonrelaxed_A f weight Ns N Nc Dk n in
  let b := nonrelaxed_b f weight Ns D n in
  let w := py2 weight n k in
  has_shape (2 * Ns) (N + Nc + N) A /\ length b = 2 * Ns /\
  (forall m, m < N + Nc ->
     at2 0%float A k m = (real (at2 C_ZERO Dk k m) * w)%float /\
     at2 0%float A (Ns + k) m = (imag (at2 C_ZERO Dk k m) * w)%float) /\
  (forall m, m < N ->
     at2 0%float A k (N + Nc + m) =
     (real (at2 C_ZERO Dk k m) * - w * py2 f n k)%float /\
     at2 0%float A (Ns + k) (N + Nc + m) =
     (imag (at2 C_ZERO Dk k m) * - w * py2 f n k)%float) /\
  nth k b 0%float = (D * w * py2 f n k)%float /\
  nth (Ns + k) b 0%float = 0%float.
Proof.
  intros Hk A b w. subst A b w. unfold nonrelaxed_A, nonrelaxed_b. cbv zeta.
  set (cols := N + Nc + N).
  destruct (@left_block_spec weight Ns N Nc cols Dk n (full Ns cols C_ZERO)
              (has_shape_full Ns cols C_ZERO) ltac:(unfold cols; lia))
    as (Hsh1 & Hleft & _).
  set (A1 := left_block weight N Nc Dk n (full Ns cols C_ZERO)) in *.
  destruct (@right_block_spec f weight Ns N Nc N cols Dk n A1 Hsh1
              ltac:(unfold cols; lia)) as (Hsh2 & Hright & Hkeep).
  set (A2 := right_block f weight N Nc Dk n N A1) in *.
  assert (Hre : has_shape Ns cols (map (map real) A2))
    by apply has_shape_map_map, Hsh2.
  assert (Him : has_shape Ns cols (map (map imag) A2))
    by apply has_shape_map_map, Hsh2.
  assert (Htop : forall j, j < cols ->
            at2 0%float (map (map real) A2 ++ map (map imag) A2) k j =
            real (at2 C_ZERO A2 k j)).
  { intros j Hj. rewrite at2_app with (r := Ns) by apply Hre.
    replace (k <? Ns) with true by (symmetry; apply Nat.ltb_lt; exact Hk).
    apply at2_map_map with (r := Ns) (c := cols); assumption. }
  assert (Hmid : forall j, j < cols ->
            at2 0%float (map (map real) A2 ++ map (map imag) A2) (Ns + k) j =
            imag (at2 C_ZERO A2 k j)).
  { intros j Hj. rewrite at2_app with (r := Ns) by apply Hre.
    replace (Ns + k <? Ns) with false by (symmetry; apply Nat.ltb_ge; lia).
    replace (Ns + k - Ns) with k by lia.
    apply at2_map_map with (r := Ns) (c := cols); assumption. }
  split; [|split; [|split; [|split; [|split]]]].
  - replace (2 * Ns) with (Ns + Ns) by lia. apply has_shape_app; assumption.
  - rewrite length_app, length_map, !length_tabulate. lia.
  - intros m Hm. split.
    + rewrite Htop by (unfold cols; lia). unfold A2.
      rewrite Hkeep by assumption. unfold A1. rewrite Hleft by assumption.
      reflexivity.
    + rewrite Hmid by (unfold cols; lia). unfold A2.
      rewrite Hkeep by assumption. unfold A1. rewrite Hleft by assumption.
      reflexivity.
  - intros m Hm. split.
    + rewrite Htop by (unfold cols; lia). unfold A2.
      rewrite Hright by assumption. reflexivity.
    + rewrite Hmid by (unfold cols; lia). unfold A2.
      rewrite Hright by assumption. reflexivity.
  - rewrite app_nth1 by (rewrite length_tabulate; exact Hk).
    rewrite nth_tabulate by exact Hk. reflexivity.
  - rewrite app_nth2 by (rewrite length_tabulate; lia).
    rewrite length_tabulate. replace (Ns + k - Ns) with k by lia.
    rewrite nth_map_lt with (d := 0%float) by (rewrite length_tabulate; exact Hk).
    reflexivity.
Qed.

Lemma fallback_rows_of_response_witness :
  has_shape 8 2 (nonrelaxed_A f1111 w4 4 1 0 constant_Dk 0) /\
  at2 0%float (nonrelaxed_A f1111 w4 4 1 0 constant_Dk 0) 0 1
  = (1 / 3 * -1 * 1)%float /\
  nth 0 (nonrelaxed_b f1111 w4 4 1%float 0) 0%float = (1 * 1 * 1)%float /\
  nth 4 (nonrelaxed_b f1111 w4 4 1%float 0) 0%float = 0%float.
Proof.
  destruct (@fallback_rows_of_response f1111 w4 4 1 0 constant_Dk 1%float 0 0 ltac:(lia))
    as (Hsh & _ & _ & Hright & Hb1 & Hb2).
  split; [exact Hsh|].
  split; [exact (eq_trans (proj1 (Hright 0 ltac:(lia))) eq_refl)|].
  split; [exact Hb1 | exact Hb2].
Defined.

(** ** The polynomial columns of the bases *)

(** The polynomial columns [N + lo .. N + lo + n - 1] hold the powers of
    the samples. *)
Lemma poly_columns_values (L : Library) (s : pyarray) (Ns N c lo n : nat)
  (Dk : matrix complex) :
  has_shape Ns c Dk -> N + lo + n <= c ->
  let Dk' := for_loop lo n (fun m D => set_col D (N + m) (s_pow L s m)) Dk in
  forall m k, lo <= m < lo + n -> k < Ns ->
    at2 C_ZERO Dk' k (N + m) = s_pow L s m k.
Proof.
  intros Hsh Hc Dk'. subst Dk'.
  pose (P := fun (i : nat) (D : matrix complex) =>
               has_shape Ns c D /\
               forall m k, lo <= m < i -> k < Ns ->
                 at2 C_ZERO D k (N + m) = s_pow L s m k).
  match goal with
  | |- forall m k, _ -> _ -> at2 _ (for_loop lo n ?body ?init) _ _ = _ =>
    assert (HP : P (lo + n) (for_loop lo n body init))
  end.
  { apply (for_loop_invariant P).
    - split; [exact Hsh | intros; lia].
    - intros i D Hi [HD Hdone]. split; [apply has_shape_set_col, HD|].
      intros m k Hm Hk. destruct (Nat.eq_dec m i) as [->|Hne].
      + rewrite at2_set_col_eq with (r := Ns) (c := c);
          [reflexivity | exact HD | lia | lia].
      + rewrite at2_set_col_neq with (r := Ns) (c := c); [|exact HD|lia|lia].
        apply Hdone; [lia | exact Hk]. }
  intros m k Hm Hk. apply HP; assumption.
Qed.

(** X21: for classified poles, the polynomial columns of the two bases:
    in the basis of residue identification column [N + m] holds
    [pow(s_k, m) + 0i] for every [m < Nc]; in the basis of pole
    identification column [N] holds the literal [1 + 0i] and column [N + m]
    holds [pow(s_k, m) + 0i] for [1 <= m < Nc].  These columns are written
    after the replacement of the infinite entries, which therefore does not
    apply to them. *)
Theorem polynomial_columns (L : Library) (s : pyarray) (Ns N Nc : nat)
  (poles : list complex) (cindex : list Z) (m k : nat) :
  classify N poles = Return cindex -> m < Nc -> k < Ns ->
  (exists Dk,
      Dk_res L s Ns N Nc poles cindex = Return Dk /\
      at2 C_ZERO Dk k (N + m) = Cplx (0 + pow L (py1 s k) m)%float 0%float) /\
  (exists Dk,
      Dk_pole L s Ns N Nc poles cindex = Return Dk /\
      at2 C_ZERO Dk k (N + m) =
      if m =? 0 then Cplx 1%float 0%float
      else Cplx (0 + pow L (py1 s k) m)%float 0%float).
Proof.
  intros Hc Hm Hk. pose proof (classify_returns_tagged _ _ Hc) as Htag. split.
  - destruct (pole_columns_total L s poles (full Ns (N + Nc) C_ZERO) Htag)
      as (Dk1 & H1).
    destruct (@pole_columns_spec L s Ns N poles cindex (N + Nc) _ Dk1
                (has_shape_full Ns _ C_ZERO)) as (Hsh & _ & _); [lia | exact H1 |].
    unfold Dk_res. rewrite H1. simpl.
    eexists; split; [reflexivity|].
    rewrite (@poly_columns_values L s Ns N (N + Nc) 0 Nc Dk1 Hsh) by lia.
    reflexivity.
  - destruct (pole_columns_total L s poles (full Ns (N + Nat.max Nc 1) C_ZERO) Htag)
      as (Dk1 & H1).
    destruct (@pole_columns_spec L s Ns N poles cindex (N + Nat.max Nc 1) _ Dk1
                (has_shape_full Ns _ C_ZERO)) as (Hsh & _ & _); [lia | exact H1 |].
    unfold Dk_pole. rewrite H1. simpl.
    eexists; split; [reflexivity|].
    pose proof (has_shape_set_col N (fun _ => Cplx 1%float 0%float)
                  (has_shape_filter_inf Hsh)) as Hsh2.
    destruct (Nat.eq_dec m 0) as [->|Hne].
    + simpl. destruct (poly_columns_spec L s N 1 (Nc - 1) Hsh2) as [_ Hcols].
      rewrite Nat.add_0_r. rewrite Hcols by lia.
      apply (@at2_set_col_eq _ Ns (N + Nat.max Nc 1) (filter_inf Dk1) N k
               (fun _ => Cplx 1%float 0%float) C_ZERO);
        [apply has_shape_filter_inf, Hsh | lia | lia].
    + replace (m =? 0) with false by (symmetry; apply Nat.eqb_neq; exact Hne).
      rewrite (@poly_columns_values L s Ns N (N + Nat.max Nc 1) 1 (Nc - 1) _ Hsh2)
        by lia.
      reflexivity.
Qed.

Lemma polynomial_columns_witness :
  (exists Dk,
      Dk_res Textbook.library s4 4 1 3 start_pole [0%Z] = Return Dk /\
      at2 C_ZERO Dk 1 3 = Cplx 4%float 0%float) /\
  (exists Dk,
      Dk_pole Textbook.library s4 4 1 3 start_pole [0%Z] = Return Dk /\
      at2 C_ZERO Dk 1 3 = Cplx 4%float 0%float).
Proof.
  destruct (@polynomial_columns Textbook.library s4 4 1 3 start_pole [0%Z] 2 1
              eq_refl ltac:(lia) ltac:(lia)) as [(Dr & Hr & Er) (Dp & Hp & Ep)].
  split.
  - exists Dr. split; [exact Hr | exact (eq_trans Er eq_refl)].
  - exists Dp. split; [exact Hp | exact (eq_trans Ep eq_refl)].
Defined.

(** ** The entries of the joint systems *)

(** The real system of a response has 2 Ns + 1 rows of 2 N + Nc + 1
    entries in the relaxed problem, and 2 Ns rows of 2 N + Nc entries in
    the problem without relaxation. *)
Lemma relaxed_A_shape (f weight : pyarray) (Nv Ns N Nc : nat)
  (Dk : matrix complex) (scale : double) (n : nat) :
  has_shape (2 * Ns + 1) (N + Nc + N + 1)
            (relaxed_A f weight Nv Ns N Nc Dk scale n).
Proof.
  unfold relaxed_A. cbv zeta.
  set (cols := N + Nc + N + 1).
  destruct (@left_block_spec weight Ns N Nc cols Dk n (full Ns cols C_ZERO)
              (has_shape_full Ns cols C_ZERO) ltac:(unfold cols; lia))
    as (Hsh1 & _).
  set (A1 := left_block weight N Nc Dk n (full Ns cols C_ZERO)) in *.
  destruct (@right_block_spec f weight Ns N Nc (N + 1) cols Dk n A1 Hsh1
              ltac:(unfold cols; lia)) as (Hsh2 & _).
  set (A2 := right_block f weight N Nc Dk n (N + 1) A1) in *.
  assert (Hre : has_shape Ns cols (map (map real) A2))
    by apply has_shape_map_map, Hsh2.
  assert (Him : has_shape Ns cols (map (map imag) A2))
    by apply has_shape_map_map, Hsh2.
  assert (HB2 : has_shape (2 * Ns + 1) cols
                  (set_rows (set_rows (full (2 * Ns + 1) cols 0%float) 0
                                      (map (map real) A2))
                            Ns (map (map imag) A2))).
  { apply has_shape_set_rows with (rb := Ns); [|exact Him].
    apply has_shape_set_rows with (rb := Ns); [apply has_shape_full | exact Hre]. }
  destruct (n =? Nv - 1); [|exact HB2].
  apply (@criterion_row_spec (2 * Ns + 1) cols (2 * Ns) (N + Nc) (N + 1)
           (fun m => real (dmul scale (csum (col C_ZERO Dk m)))) _ HB2);
    unfold cols; lia.
Qed.

Lemma nonrelaxed_A_shape (f weight : pyarray) (Ns N Nc : nat)
  (Dk : matrix complex) (n : nat) :
  has_shape (2 * Ns) (N + Nc + N) (nonrelaxed_A f weight Ns N Nc Dk n).
Proof.
  unfold nonrelaxed_A. cbv zeta.
  set (cols := N + Nc + N).
  destruct (@left_block_spec weight Ns N Nc cols Dk n (full Ns cols C_ZERO)
              (has_shape_full Ns cols C_ZERO) ltac:(unfold cols; lia))
    as (Hsh1 & _).
  set (A1 := left_block weight N Nc Dk n (full Ns cols C_ZERO)) in *.
  destruct (@right_block_spec f weight Ns N Nc N cols Dk n A1 Hsh1
              ltac:(unfold cols; lia)) as (Hsh2 & _).
  replace (2 * Ns) with (Ns + Ns) by lia.
  apply has_shape_app; apply has_shape_map_map, Hsh2.
Qed.

(** X15: the joint system of the relaxed solve, whenever the loop over the
    responses returns it, the QR routine returns reduced factors and there
    are enough samples for the views of lines 211-216 to lie inside them
    (2 N + Nc <= 2 Ns): [AA] has Nv (N + 1) rows of N + 1 entries and [bb]
    Nv (N + 1) entries; for each response [n] the factor Q of its system
    has 2 Ns + 1 rows of 2 N + Nc + 1 entries, the factor R is square of
    order 2 N + Nc + 1, and the block of rows of [n] in [AA] is the
    trailing (N + 1) x (N + 1) block (rows and columns N + Nc .. 2 N + Nc)
    of R; the block of the last response in [bb] is [Ns * scale] times the
    trailing N + 1 entries of the last row of its Q, and [bb] is zero
    before that block. *)
Theorem relaxed_joint_system (L : Library) (f weight : pyarray)
  (Nv Ns N Nc : nat) (Dk : matrix complex) (scale : double)
  (AA : matrix double) (bb : list double) :
  qr_reduced L -> N + Nc + N <= 2 * Ns ->
  relaxed_AA_bb L f weight Nv Ns N Nc Dk scale = Return (AA, bb) ->
  has_shape (Nv * (N + 1)) (N + 1) AA /\ length bb = Nv * (N + 1) /\
  (forall n, n < Nv ->
     exists Q R,
       qr L (relaxed_A f weight Nv Ns N Nc Dk scale n) = Return (Q, R) /\
       has_shape (2 * Ns + 1) (N + Nc + N + 1) Q /\
       has_shape (N + Nc + N + 1) (N + Nc + N + 1) R /\
       (forall a b, a < N + 1 -> b < N + 1 ->
          at2 0%float AA (n * (N + 1) + a) b =
          at2 0%float R (N + Nc + a) (N + Nc + b)) /\
       (n = Nv - 1 ->
        forall a, a < N + 1 ->
          nth (n * (N + 1) + a) bb 0%float =
          (double_of_size Ns * scale * at2 0%float Q (2 * Ns) (N + Nc + a))%float)) /\
  (forall j, j < (Nv - 1) * (N + 1) -> nth j bb 0%float = 0%float).
Proof.
  intros Hqr Hsamples H.
  destruct (relaxed_system_shape _ _ _ _ _ _ _ _ _ H) as (HA & Hb & _).
  split; [exact HA | split; [exact Hb|]].
  unfold relaxed_AA_bb in H.
  pose (P := fun (i : nat) (st : matrix double * list double) =>
               has_shape (Nv * (N + 1)) (N + 1) (fst st) /\
               length (snd st) = Nv * (N + 1) /\
               (forall n, n < i ->
                  exists Q R,
                    qr L (relaxed_A f weight Nv Ns N Nc Dk scale n) = Return (Q, R) /\
                    has_shape (2 * Ns + 1) (N + Nc + N + 1) Q /\
                    has_shape (N + Nc + N + 1) (N + Nc + N + 1) R /\
                    (forall a b, a < N + 1 -> b < N + 1 ->
                       at2 0%float (fst st) (n * (N + 1) + a) b =
                       at2 0%float R (N + Nc + a) (N + Nc + b)) /\
                    (n = Nv - 1 ->
                     forall a, a < N + 1 ->
                       nth (n * (N + 1) + a) (snd st) 0%float =
                       (double_of_size Ns * scale *
                        at2 0%float Q (2 * Ns) (N + Nc + a))%float)) /\
               (forall j, j < (Nv - 1) * (N + 1) -> nth j (snd st) 0%float = 0%float)).
  assert (HP : P (0 + Nv) (AA, bb)).
  { apply (for_loop_exn_invariant P) with (3 := H).
    - split; [apply has_shape_full|]. split; [apply repeat_length|].
      split; [intros; lia|].
      intros j Hj. cbn [snd]. apply nth_repeat_lt. nia.
    - intros i [A b] [A' b'] Hi (HAi & Hbi & Hblocks & Hzero) Hbody.
      cbn [fst snd] in HAi, Hbi, Hblocks, Hzero.
      apply bind_Return_inv in Hbody as ([Q R] & HQR & Hbody).
      destruct (Hqr _ _ _ _ _ (relaxed_A_shape f weight Nv Ns N Nc Dk scale i) HQR)
        as [HQ HR].
      replace (Nat.min (2 * Ns + 1) (N + Nc + N + 1)) with (N + Nc + N + 1)
        in HQ, HR by lia.
      set (lo := N + Nc) in *.
      set (B := submatrix 0%float R lo (lo + N + 1) lo (lo + N + 1)) in *.
      assert (HB : has_shape (N + 1) (N + 1) B).
      { pose proof (has_shape_submatrix 0%float R lo (lo + N + 1) lo (lo + N + 1))
          as Hs.
        replace (lo + N + 1 - lo) with (N + 1) in Hs by lia. exact Hs. }
      assert (HlenB : length B = N + 1) by apply HB.
      assert (HA' : has_shape (Nv * (N + 1)) (N + 1) (set_rows A (i * (N + 1)) B))
        by (apply has_shape_set_rows with (rb := N + 1); assumption).
      assert (HlenQ : length Q = 2 * Ns + 1) by apply HQ.
      assert (Hqrow : length (nth (length Q - 1) Q []) = lo + N + 1).
      { rewrite HlenQ. replace (2 * Ns + 1 - 1) with (2 * Ns) by lia.
        apply HQ. lia. }
      set (v := map (fun q => (double_of_size Ns * scale * q)%float)
                    (slice 0%float (nth (length Q - 1) Q [])
                           lo (length (nth (length Q - 1) Q [])))) in *.
      assert (Hv : length v = N + 1).
      { unfold v. rewrite length_map, length_slice, Hqrow. lia. }
      assert (Hvnth : forall a, a < N + 1 ->
                nth a v 0%float =
                (double_of_size Ns * scale * at2 0%float Q (2 * Ns) (lo + a))%float).
      { intros a Ha. unfold v.
        rewrite nth_map_lt with (d := 0%float)
          by (rewrite length_slice, Hqrow; lia).
        rewrite nth_slice by (rewrite Hqrow; lia).
        rewrite HlenQ. replace (2 * Ns + 1 - 1) with (2 * Ns) by lia.
        reflexivity. }
      cbv zeta in Hbody.
      assert (Hst : A' = set_rows A (i * (N + 1)) B /\
                    b' = if i =? Nv - 1 then set_range b (i * (N + 1)) v else b).
      { destruct (i =? Nv - 1); injection Hbody as <- <-; split; reflexivity. }
      destruct Hst as [-> ->]. clear Hbody.
      unfold P. cbn [fst snd].
      split; [exact HA'|].
      split; [destruct (i =? Nv - 1); [rewrite length_set_range|]; exact Hbi|].
      split.
      + intros n Hn. destruct (Nat.eq_dec n i) as [->|Hne].
        * exists Q, R. split; [exact HQR|]. split; [exact HQ|]. split; [exact HR|].
          split.
          -- intros a c Ha Hc.
             rewrite at2_set_rows with (r := Nv * (N + 1)) (c := N + 1)
               by (trivial; nia).
             rewrite HlenB.
             replace (i * (N + 1) <=? i * (N + 1) + a) with true
               by (symmetry; apply Nat.leb_le; lia).
             replace (i * (N + 1) + a <? i * (N + 1) + (N + 1)) with true
               by (symmetry; apply Nat.ltb_lt; lia).
             simpl. replace (i * (N + 1) + a - i * (N + 1)) with a by lia.
             unfold B. apply at2_submatrix; lia.
          -- intros Elast a Ha.
             replace (i =? Nv - 1) with true by (symmetry; apply Nat.eqb_eq; exact Elast).
             rewrite nth_set_range by (rewrite Hbi; nia).
             change (@length double v) with (@length float v). rewrite Hv.
             replace (i * (N + 1) <=? i * (N + 1) + a) with true
               by (symmetry; apply Nat.leb_le; lia).
             replace (i * (N + 1) + a <? i * (N + 1) + (N + 1)) with true
               by (symmetry; apply Nat.ltb_lt; lia).
             simpl. replace (i * (N + 1) + a - i * (N + 1)) with a by lia.
             apply Hvnth. exact Ha.
        * destruct (Hblocks n) as (Q0 & R0 & HQR0 & HQ0 & HR0 & Hval & Hlastb); [lia|].
          exists Q0, R0. split; [exact HQR0|]. split; [exact HQ0|].
          split; [exact HR0|]. split.
          -- intros a c Ha Hc.
             rewrite at2_set_rows with (r := Nv * (N + 1)) (c := N + 1)
               by (trivial; nia).
             replace (i * (N + 1) <=? n * (N + 1) + a) with false
               by (symmetry; apply Nat.leb_gt; nia).
             simpl. apply Hval; assumption.
          -- intros Elast. lia.
      + intros j Hj. destruct (i =? Nv - 1) eqn:Elast; [|apply Hzero; exact Hj].
        apply Nat.eqb_eq in Elast.
        rewrite nth_set_range_below by (rewrite Elast; exact Hj).
        apply Hzero. exact Hj. }
  destruct HP as (_ & _ & Hblocks & Hzero). split; [exact Hblocks | exact Hzero].
Qed.

Lemma relaxed_joint_system_witness :
  relaxed_AA_bb Textbook.library f24 w24 2 4 1 0 constant_Dk
    (scale_value Textbook.library f24 w24 2 4) = Return joint_system /\
  has_shape 4 2 (fst joint_system) /\ length (snd joint_system) = 4 /\
  nth 0 (snd joint_system) 0%float = 0%float /\
  nth 1 (snd joint_system) 0%float = 0%float /\
  (nth 2 (snd joint_system) 0%float =? 0)%float = false /\
  exists Q R : matrix double,
    has_shape 9 3 Q /\ has_shape 3 3 R /\
    at2 0%float (fst joint_system) 3 1 = at2 0%float R 2 2 /\
    nth 2 (snd joint_system) 0%float =
    (4 * scale_value Textbook.library f24 w24 2 4 * at2 0%float Q 8 1)%float.
Proof.
  assert (H : relaxed_AA_bb Textbook.library f24 w24 2 4 1 0 constant_Dk
                (scale_value Textbook.library f24 w24 2 4)
              = Return (fst joint_system, snd joint_system))
    by (vm_compute; reflexivity).
  destruct (@relaxed_joint_system Textbook.library f24 w24 2 4 1 0 constant_Dk
              (scale_value Textbook.library f24 w24 2 4)
              (fst joint_system) (snd joint_system)
              textbook_qr_reduced ltac:(simpl; lia) H)
    as (HA & Hb & Hblocks & Hzero).
  split; [exact H|]. split; [exact HA|]. split; [exact Hb|].
  split; [apply Hzero; simpl; lia|]. split; [apply Hzero; simpl; lia|].
  split; [reflexivity|].
  destruct (Hblocks 1 ltac:(lia)) as (Q & R & _ & HQ & HR & HAA & Hbb).
  exists Q, R. split; [exact HQ|]. split; [exact HR|]. split.
  - exact (HAA 1 1 ltac:(lia) ltac:(lia)).
  - exact (Hbb eq_refl 0 ltac:(lia)).
Defined.

(** X18: the joint system of the fallback, whenever its loop over the
    responses returns it, the QR routine returns reduced factors,
    matrix-vector products have one entry per row and there are enough
    samples for the views of lines 277-279 to lie inside the factors
    (2 N + Nc <= 2 Ns): [AA] has Nv N rows of N entries and [bb] Nv N
    entries; for each response [n] the factor Q of its system has 2 Ns rows
    of 2 N + Nc entries, the factor R is square of order 2 N + Nc, the
    block of rows [n N .. n N + N - 1] of [AA] is the trailing N x N block
    of R, and the same block of [bb] is the product of the transposed
    trailing N columns of Q with the right-hand side [D * weight * f]
    followed by zeros. *)
Theorem fallback_joint_system (L : Library) (f weight : pyarray)
  (Nv Ns N Nc : nat) (Dk : matrix complex) (D : double)
  (AA : matrix double) (bb : list double) :
  qr_reduced L -> dot_mv_sized L -> N + Nc + N <= 2 * Ns ->
  nonrelaxed_AA_bb L f weight Nv Ns N Nc Dk D = Return (AA, bb) ->
  has_shape (Nv * N) N AA /\ length bb = Nv * N /\
  forall n, n < Nv ->
    exists Q R,
      qr L (nonrelaxed_A f weight Ns N Nc Dk n) = Return (Q, R) /\
      has_shape (2 * Ns) (N + Nc + N) Q /\
      has_shape (N + Nc + N) (N + Nc + N) R /\
      (forall a b, a < N -> b < N ->
         at2 0%float AA (n * N + a) b = at2 0%float R (N + Nc + a) (N + Nc + b)) /\
      (forall a, a < N ->
         nth (n * N + a) bb 0%float =
         nth a (dot_mv L (tabulate N (fun j => col 0%float Q (N + Nc + j)))
                       (nonrelaxed_b f weight Ns D n)) 0%float).
Proof.
  intros Hqr Hdot Hsamples H.
  destruct (nonrelaxed_system_shape _ _ _ _ _ _ _ _ _ H) as (HA & Hb & _).
  split; [exact HA | split; [exact Hb|]].
  unfold nonrelaxed_AA_bb in H.
  pose (P := fun (i : nat) (st : matrix double * list double) =>
               has_shape (Nv * N) N (fst st) /\ length (snd st) = Nv * N /\
               forall n, n < i ->
                 exists Q R,
                   qr L (nonrelaxed_A f weight Ns N Nc Dk n) = Return (Q, R) /\
                   has_shape (2 * Ns) (N + Nc + N) Q /\
                   has_shape (N + Nc + N) (N + Nc + N) R /\
                   (forall a b, a < N -> b < N ->
                      at2 0%float (fst st) (n * N + a) b =
                      at2 0%float R (N + Nc + a) (N + Nc + b)) /\
                   (forall a, a < N ->
                      nth (n * N + a) (snd st) 0%float =
                      nth a (dot_mv L (tabulate N (fun j => col 0%float Q (N + Nc + j)))
                                    (nonrelaxed_b f weight Ns D n)) 0%float)).
  assert (HP : P (0 + Nv) (AA, bb)).
  { apply (for_loop_exn_invariant P) with (3 := H).
    - split; [apply has_shape_full | split; [apply repeat_length | intros; lia]].
    - intros i [A b] [A' b'] Hi (HAi & Hbi & Hblocks) Hbody.
      cbn [fst snd] in HAi, Hbi, Hblocks.
      apply bind_Return_inv in Hbody as ([Q R] & HQR & Hbody).
      destruct (Hqr _ _ _ _ _ (nonrelaxed_A_shape f weight Ns N Nc Dk i) HQR)
        as [HQ HR].
      replace (Nat.min (2 * Ns) (N + Nc + N)) with (N + Nc + N) in HQ, HR by lia.
      cbv zeta in Hbody. injection Hbody as <- <-.
      set (lo := N + Nc) in *.
      set (B := submatrix 0%float R lo (lo + N) lo (lo + N)) in *.
      set (v := dot_mv L (tabulate N (fun j => col 0%float Q (lo + j)))
                       (nonrelaxed_b f weight Ns D i)) in *.
      assert (Hv : length v = N) by (unfold v; rewrite Hdot; apply length_tabulate).
      assert (HB : has_shape N N B).
      { pose proof (has_shape_submatrix 0%float R lo (lo + N) lo (lo + N)) as Hs.
        replace (lo + N - lo) with N in Hs by lia. exact Hs. }
      assert (HlenB : length B = N) by apply HB.
      unfold P. cbn [fst snd].
      split; [apply has_shape_set_rows with (rb := N); assumption|].
      split; [rewrite length_set_range; exact Hbi|].
      intros n Hn. destruct (Nat.eq_dec n i) as [->|Hne].
      + exists Q, R. split; [exact HQR|]. split; [exact HQ|]. split; [exact HR|].
        split.
        * intros a c Ha Hc.
          rewrite at2_set_rows with (r := Nv * N) (c := N) by (trivial; nia).
          rewrite HlenB.
          replace (i * N <=? i * N + a) with true
            by (symmetry; apply Nat.leb_le; lia).
          replace (i * N + a <? i * N + N) with true
            by (symmetry; apply Nat.ltb_lt; lia).
          simpl. replace (i * N + a - i * N) with a by lia.
          unfold B. apply at2_submatrix; lia.
        * intros a Ha.
          rewrite nth_set_range by (rewrite Hbi; nia).
          rewrite Hv.
          replace (i * N <=? i * N + a) with true
            by (symmetry; apply Nat.leb_le; lia).
          replace (i * N + a <? i * N + N) with true
            by (symmetry; apply Nat.ltb_lt; lia).
          simpl. replace (i * N + a - i * N) with a by lia. reflexivity.
      + destruct (Hblocks n) as (Q0 & R0 & HQR0 & HQ0 & HR0 & HvalA & Hvalb); [lia|].
        exists Q0, R0. split; [exact HQR0|]. split; [exact HQ0|].
        split; [exact HR0|]. split.
        * intros a c Ha Hc.
          rewrite at2_set_rows with (r := Nv * N) (c := N) by (trivial; nia).
          replace (i * N <=? n * N + a) with false
            by (symmetry; apply Nat.leb_gt; nia).
          simpl. apply HvalA; assumption.
        * intros a Ha.
          rewrite nth_set_range by (rewrite Hbi; nia).
          replace (i * N <=? n * N + a) with false
            by (symmetry; apply Nat.leb_gt; nia).
          simpl. apply Hvalb; assumption. }
  destruct HP as (_ & _ & Hblocks). exact Hblocks.
Qed.

Lemma fallback_joint_system_witness :
  nonrelaxed_AA_bb Textbook.library f24 w24 2 4 1 0 constant_Dk 1%float
  = Return fallback_system /\
  has_shape 2 1 (fst fallback_system) /\ length (snd fallback_system) = 2 /\
  exists Q R : matrix double,
    has_shape 8 2 Q /\ has_shape 2 2 R /\
    at2 0%float (fst fallback_system) 1 0 = at2 0%float R 1 1.
Proof.
  assert (H : nonrelaxed_AA_bb Textbook.library f24 w24 2 4 1 0 constant_Dk 1%float
              = Return (fst fallback_system, snd fallback_system))
    by (vm_compute; reflexivity).
  destruct (@fallback_joint_system Textbook.library f24 w24 2 4 1 0 constant_Dk
              1%float (fst fallback_system) (snd fallback_system)
              textbook_qr_reduced textbook_dot_mv_sized ltac:(simpl; lia) H)
    as (HA & Hb & Hblocks).
  split; [exact H | split; [exact HA | split; [exact Hb|]]].
  destruct (Hblocks 1 ltac:(lia)) as (Q & R & _ & HQ & HR & HAA & _).
  exists Q, R. split; [exact HQ|]. split; [exact HR|].
  exact (HAA 0 0 ltac:(lia) ltac:(lia)).
Defined.
